(** * djs-forge: InteractionRouter, CooldownManager, Paginator, ConfirmationManager

    A shallow embedding of the interaction toolkit of djs-forge
    (routing/InteractionRouter.mjs, cooldowns/CooldownManager.mjs,
    pagination/Paginator.mjs, confirmations/ConfirmationManager.mjs) and the
    properties of its dispatch, expiry and navigation logic.

    Conventions of the embedding.
    - A JavaScript string is the list of its UTF-16 code units ([jsstring]).
    - A number that the code uses as an instant, a duration or an index is an
      integer of [Z]; [Date.now()] is an explicit argument of the operation
      that reads the clock.
    - A method that can throw returns an [Outcome]: the value it returns or
      the error it throws, next to the state of the object afterwards.
    - Callbacks supplied by the caller (route handlers, the fallback) and the
      calls into discord.js ([deferUpdate], [edit], [reply]) are effects that
      complete, in the order in which they are made; what the code invokes
      is recorded in a trace. *)

From Stdlib Require Import Ascii String.
From stdpp Require Import gmap strings list fin_maps.

Open Scope Z_scope.

(* ===================================================================== *)
(** * Part I. Definitions *)
(* ===================================================================== *)

(** ** JavaScript strings and errors *)

Abbreviation code_unit := N.
Abbreviation jsstring := (list N).

(** The code unit of an ASCII character, and the string of an ASCII literal. *)
Definition cu (a : ascii) : code_unit := N_of_ascii a.
Definition js (s : string) : jsstring := cu <$> list_ascii_of_string s.

(** ForgeErrorCode, restricted to the codes the toolkit classes throw. *)
Inductive ForgeErrorCode :=
| ROUTER_INVALID_PATTERN
| PAGINATOR_NO_PAGES
| PAGINATOR_INVALID_PAGE
| COOLDOWN_ACTIVE
| COOLDOWN_INVALID_DURATION
| CONFIRMATION_TIMED_OUT.

(** What a method throws. [ForgeError code extra]: the [extra] text of a
    COOLDOWN_ACTIVE error is [formatMs remaining ++ " remaining"]; the model
    keeps the number of milliseconds that the text renders. [TypeError] is
    the engine's error for a property read on [undefined] or [null]. *)
Inductive Error :=
| ForgeError (code : ForgeErrorCode) (extra : option Z)
| TypeError.

Inductive Outcome (S A : Type) :=
| Returned (a : A) (s : S)
| Threw (e : Error) (s : S).
Arguments Returned {S A} a s.
Arguments Threw {S A} e s.

Definition state_of {S A} (o : Outcome S A) : S :=
  match o with Returned _ s => s | Threw _ s => s end.

(** Chaining of calls that can throw at registration time
    ([router.on(..).on(..)]): the first error wins. *)
#[global] Instance sum_bind {E : Type} : MBind (sum E) :=
  fun A B (f : A -> E + B) (x : E + A) =>
    match x with inl e => inl e | inr a => f a end.

(** ** Regular expressions

    [RegExp] objects. A pattern that [_register] compiles from a string is
    built by [new RegExp(source)]; its source only uses the syntax below:
    the assertions [^] and [$], an escaped syntax character, the group
    [(.+)] and plain characters. Regular expressions written by the caller
    are either given by their syntax tree, when they are in the fragment
    (which also has named groups and [.*]), or by the function from the
    subject string to the match array ([Native]). *)
Module RegExp.

Inductive Quant := OneOrMore | ZeroOrMore.

Inductive node :=
| AssertStart
| AssertEnd
| Char (c : code_unit)
| DotGroup (name : option jsstring) (q : Quant).

(** The array returned by [String.prototype.match] for a regular expression
    without the global flag: element 0, elements 1.. (a group that did not
    take part is [undefined], here [None]) and the [groups] object
    ([undefined] when the expression has no named group). *)
Record MatchArray := {
  m_full : jsstring;
  m_captures : list (option jsstring);
  m_groups : option (list (jsstring * option jsstring))
}.

Inductive t :=
| Ast (ns : list node)
| Native (exec : jsstring -> option MatchArray).

(** SyntaxCharacter of the pattern grammar: ^ $ \ . * + ? ( ) [ ] { } | *)
Definition isSyntaxCharacter (c : code_unit) : bool :=
  existsb (N.eqb c) (js "^$\.*+?()[]{}|").

(** LineTerminator: LF, CR, U+2028, U+2029. The dot does not match them. *)
Definition isLineTerminator (c : code_unit) : bool :=
  existsb (N.eqb c) [10%N; 13%N; 8232%N; 8233%N].

(** [new RegExp(source)] on the fragment; [None] outside of it. *)
Fixpoint parse (src : jsstring) : option (list node) :=
  match src with
  | [] => Some []
  | c :: rest =>
    if N.eqb c (cu "^") then cons AssertStart <$> parse rest
    else if N.eqb c (cu "$") then cons AssertEnd <$> parse rest
    else if N.eqb c (cu "\") then
      match rest with
      | e :: rest' =>
        if isSyntaxCharacter e then cons (Char e) <$> parse rest' else None
      | [] => None
      end
    else if N.eqb c (cu "(") then
      match rest with
      | d :: p :: q :: rest' =>
        if N.eqb d (cu ".") && N.eqb p (cu "+") && N.eqb q (cu ")")
        then cons (DotGroup None OneOrMore) <$> parse rest'
        else None
      | _ => None
      end
    else if isSyntaxCharacter c then None
    else cons (Char c) <$> parse rest
  end.

Definition new (source : jsstring) : option t := Ast <$> parse source.

(** Length of the longest prefix the dot can match. *)
Fixpoint dotRun (s : jsstring) : nat :=
  match s with
  | [] => 0
  | c :: s' => if isLineTerminator c then 0 else S (dotRun s')
  end.

(** Greedy repetition: try [k] repetitions, then [k - 1], ... down to [lo]. *)
Fixpoint greedy {A} (lo k : nat) (cont : nat -> option A) : option A :=
  match cont k with
  | Some r => Some r
  | None =>
    match k with
    | O => None
    | S k' => if (k <=? lo)%nat then None else greedy lo k' cont
    end
  end.

Definition minCount (q : Quant) : nat :=
  match q with OneOrMore => 1%nat | ZeroOrMore => 0%nat end.

(** Backtracking matcher: the nodes against the subject [s], which starts at
    index [pos] of the whole string. Returns the captures in group order and
    the number of code units matched. *)
Fixpoint matchNodes (ns : list node) (pos : nat) (s : jsstring)
  : option (list (option jsstring * jsstring) * nat) :=
  match ns with
  | [] => Some ([], 0%nat)
  | AssertStart :: ns' => if (pos =? 0)%nat then matchNodes ns' pos s else None
  | AssertEnd :: ns' =>
    match s with [] => matchNodes ns' pos s | _ :: _ => None end
  | Char c :: ns' =>
    match s with
    | x :: s' =>
      if N.eqb x c
      then (fun r : _ * nat => (r.1, S r.2)) <$> matchNodes ns' (S pos) s'
      else None
    | [] => None
    end
  | DotGroup name q :: ns' =>
    if (dotRun s <? minCount q)%nat then None
    else greedy (minCount q) (dotRun s) (fun k =>
           (fun r : _ * nat => ((name, take k s) :: r.1, (k + r.2)%nat))
             <$> matchNodes ns' (pos + k) (drop k s))
  end.

Definition namedGroups (caps : list (option jsstring * jsstring))
  : list (jsstring * option jsstring) :=
  omap (fun c : option jsstring * jsstring =>
          match c.1 with Some n => Some (n, Some c.2) | None => None end) caps.

Definition hasNamedGroup (ns : list node) : bool :=
  existsb (fun n => match n with DotGroup (Some _) _ => true | _ => false end) ns.

Definition matchArray (ns : list node) (s : jsstring)
    (r : list (option jsstring * jsstring) * nat) : MatchArray :=
  {| m_full := take r.2 s;
     m_captures := (fun c : option jsstring * jsstring => Some c.2) <$> r.1;
     m_groups := if hasNamedGroup ns then Some (namedGroups r.1) else None |}.

(** [RegExp.prototype.exec]: the first index, from [pos] on, at which the
    nodes match. *)
Fixpoint execFrom (ns : list node) (pos : nat) (s : jsstring) : option MatchArray :=
  match matchNodes ns pos s with
  | Some r => Some (matchArray ns s r)
  | None =>
    match s with
    | [] => None
    | _ :: s' => execFrom ns (S pos) s'
    end
  end.

(** [s.match(re)] *)
Definition match_ (s : jsstring) (re : t) : option MatchArray :=
  match re with
  | Ast ns => execFrom ns 0 s
  | Native exec => exec s
  end.

End RegExp.

(** ** routing/InteractionRouter.mjs

    [on], [once], [fallback], [_register] and [handle]. [off] compares
    patterns with [!==] (regular expressions by identity) and [attach] only
    subscribes [handle] to the client; both are left out. *)
Module InteractionRouter.
Import RegExp.

(** An interaction, as far as the router reads it: [customId] is absent on
    interactions that are not component or modal interactions. *)
Record Interaction := { customId : option jsstring }.

(** The object passed to a handler as [params]: property names and values
    in insertion order; a value is a string or [undefined] ([None]). *)
Abbreviation Params := (list (jsstring * option jsstring)).

(** [params[key]]: [undefined] for a missing key. *)
Fixpoint getProp (params : Params) (key : jsstring) : option jsstring :=
  match params with
  | [] => None
  | (k, v) :: rest => if bool_decide (k = key) then v else getProp rest key
  end.

(** [params[key] = value] *)
Fixpoint setProp (params : Params) (key : jsstring) (value : option jsstring) : Params :=
  match params with
  | [] => [(key, value)]
  | (k, v) :: rest =>
    if bool_decide (k = key) then (k, value) :: rest
    else (k, v) :: setProp rest key value
  end.

(** ToBoolean on a string or [undefined]: only a non-empty string is truthy. *)
Definition truthy (v : option jsstring) : bool :=
  match v with
  | Some (_ :: _) => true
  | _ => false
  end.

(** [pattern.replace(/[.+?^${}()|[\]\\]/g, '\\$&')] *)
Definition inEscapeClass (c : code_unit) : bool :=
  existsb (N.eqb c) (js ".+?^${}()|[]\").

Definition escapeMeta (pattern : jsstring) : jsstring :=
  pattern ≫= (fun c => if inEscapeClass c then [cu "\"; c] else [c]).

(** [.replace(/\*/g, '(.+)')] *)
Definition replaceStar (s : jsstring) : jsstring :=
  s ≫= (fun c => if N.eqb c (cu "*") then js "(.+)" else [c]).

(** [pattern.includes('*')] *)
Definition includesStar (pattern : jsstring) : bool :=
  existsb (N.eqb (cu "*")) pattern.

Section Router.

(** The functions registered with the router are opaque to it: a handler is
    a value of [Handler], and calling it is an effect. *)
Context {Handler : Type}.

(** The [pattern] argument of [on] and [once], by its type. *)
Inductive Pattern :=
| PRegExp (re : RegExp.t)
| PString (s : jsstring)
| POther.

(** The [handler] argument: a function or some other value. *)
Inductive HandlerArg :=
| Fn (h : Handler)
| NotFn.

Record Route := {
  pattern : Pattern;
  compiled : RegExp.t;
  handler : Handler;
  once_ : bool
}.

Record t := {
  _routes : list Route;
  _fallback : option Handler
}.

Definition constructor : t := {| _routes := []; _fallback := None |}.

(** One effect of [handle]: the call of a route handler, with the params it
    receives and the route list as it is when the handler is entered, or
    the call of the fallback. *)
Inductive Effect :=
| CallHandler (h : Handler) (i : Interaction) (params : Params) (routesNow : list Route)
| CallFallback (h : Handler) (i : Interaction).

(** [_register]; the third error is [new RegExp] rejecting the source. *)
Inductive RegisterError :=
| InvalidHandler
| InvalidPattern
| RegExpSyntaxError.

Definition compile (pattern : Pattern) : RegisterError + RegExp.t :=
  match pattern with
  | PRegExp re => inr re
  | PString p =>
    if includesStar p then
      let escaped := replaceStar (escapeMeta p) in
      match RegExp.new (js "^" ++ escaped ++ js "$") with
      | Some re => inr re
      | None => inl RegExpSyntaxError
      end
    else
      match RegExp.new (js "^" ++ escapeMeta p ++ js "$") with
      | Some re => inr re
      | None => inl RegExpSyntaxError
      end
  | POther => inl InvalidPattern
  end.

Definition _register (r : t) (p : Pattern) (h : HandlerArg) (once : bool)
  : RegisterError + t :=
  match h with
  | NotFn => inl InvalidHandler
  | Fn f =>
    match compile p with
    | inl e => inl e
    | inr re =>
      inr {| _routes := _routes r ++
                        [{| pattern := p; compiled := re; handler := f; once_ := once |}];
             _fallback := _fallback r |}
    end
  end.

Definition on (r : t) (p : Pattern) (h : HandlerArg) : RegisterError + t :=
  _register r p h false.

Definition once (r : t) (p : Pattern) (h : HandlerArg) : RegisterError + t :=
  _register r p h true.

Definition fallback (r : t) (h : Handler) : t :=
  {| _routes := _routes r; _fallback := Some h |}.

(** The [for] loop of [handle] from index [i] on, [rest] being the routes at
    the indices [i], [i + 1], ...: the first index whose route matches, with
    the route and the match array. *)
Fixpoint scan (customId : jsstring) (i : nat) (rest : list Route)
  : option (nat * Route * MatchArray) :=
  match rest with
  | [] => None
  | route :: rest' =>
    match RegExp.match_ customId (compiled route) with
    | None => scan customId (S i) rest'
    | Some m => Some (i, route, m)
    end
  end.

(** [match.groups ?? {}], then the [wildcard] convenience key. *)
Definition paramsOf (m : MatchArray) : Params :=
  let params := default [] (m_groups m) in
  match m_captures m !! 0%nat with
  | Some (Some m1) =>
    if negb (truthy (getProp params (js "wildcard")))
    then setProp params (js "wildcard") (Some m1)
    else params
  | _ => params
  end.

(** [handle]: the router afterwards, the calls made, and the value the
    returned promise resolves to. *)
Definition handle (r : t) (interaction : Interaction) : t * list Effect * bool :=
  match customId interaction with
  | None => (r, [], false)
  | Some [] => (r, [], false)
  | Some cid =>
    match scan cid 0 (_routes r) with
    | Some (i, route, m) =>
      let params := paramsOf m in
      let r' := if once_ route
                then {| _routes := delete i (_routes r); _fallback := _fallback r |}
                else r in
      (r', [CallHandler (handler route) interaction params (_routes r')], true)
    | None =>
      match _fallback r with
      | Some f => (r, [CallFallback f interaction], false)
      | None => (r, [], false)
      end
    end
  end.

(** [off(pattern)] called with a string: [r.pattern !== pattern] holds for
    every route registered with a regular expression and for the routes
    registered with another string. (Called with a regular expression,
    [off] compares object identities, which the values of the model do not
    carry; that case is left out.) *)
Definition off (r : t) (p : jsstring) : t :=
  {| _routes :=
       List.filter
         (fun route =>
            match pattern route with
            | PString s => negb (bool_decide (s = p))
            | _ => true
            end)
         (_routes r);
     _fallback := _fallback r |}.

(** A sequence of interactions handled one after the other, as the
    listener installed by [attach] does: the router afterwards and all the
    calls made, in order. *)
Definition handleAll (r : t) (interactions : list Interaction) : t * list Effect :=
  foldl (fun (acc : t * list Effect) i =>
           let '(r', calls, _) := handle acc.1 i in (r', acc.2 ++ calls))
        (r, []) interactions.

(** The calls of route handlers of a given class among some calls. *)
Definition handlerCalls (inClass : Handler -> bool) (calls : list Effect) : nat :=
  length (List.filter
            (fun c => match c with
                      | CallHandler h _ _ _ => inClass h
                      | CallFallback _ _ => false
                      end) calls).

End Router.

(** What the comment of [_register] and the documentation say a glob
    compiles to: every [*] a capturing [(.+)], every other character
    itself, between [^] and [$]. *)
Definition globNodes (pattern : jsstring) : list node :=
  (fun c => if N.eqb c (cu "*") then DotGroup None OneOrMore else Char c) <$> pattern.

(** The route that [_register] is meant to build for a string pattern. *)
Definition stringRoute {Handler : Type} (p : string) (h : Handler) (o : bool)
  : Route (Handler := Handler) :=
  {| pattern := PString (js p);
     compiled := Ast (AssertStart :: globNodes (js p) ++ [AssertEnd]);
     handler := h;
     once_ := o |}.

Arguments Pattern : clear implicits.
Arguments HandlerArg : clear implicits.
Arguments Route : clear implicits.
Arguments t : clear implicits.
Arguments Effect : clear implicits.

End InteractionRouter.

(** ** cooldowns/CooldownManager.mjs *)
Module CooldownManager.

(** The manager: [_store] maps a key to its expiry timestamp. The
    auto-sweep timer of the constructor only calls [sweep] from time to
    time and is not part of the state. *)
Record t := {
  _store : gmap jsstring Z;
  _prefix : jsstring
}.

Record CooldownManagerOptions := {
  store : option (gmap jsstring Z);
  keyPrefix : option jsstring
}.

Definition constructor (options : CooldownManagerOptions) : t :=
  {| _store := default ∅ (store options);
     _prefix := default (js "forge:cd:") (keyPrefix options) |}.

(** Store abstraction *)
Definition _key (m : t) (command entityId : jsstring) : jsstring :=
  _prefix m ++ command ++ js ":" ++ entityId.
Definition _get (m : t) (key : jsstring) : option Z := _store m !! key.
Definition _set (m : t) (key : jsstring) (value : Z) : t :=
  {| _store := <[key := value]> (_store m); _prefix := _prefix m |}.
Definition _delete (m : t) (key : jsstring) : t :=
  {| _store := delete key (_store m); _prefix := _prefix m |}.
Definition _entries (m : t) : list (jsstring * Z) := map_to_list (_store m).

(** [remainingText] is [formatMs remaining] and is left out. *)
Record CooldownResult := {
  onCooldown : bool;
  remaining : Z;
  expiry : option Z
}.

(** [check], [now] being the value of [Date.now()]. [!expiry] holds for a
    missing entry and for a stored 0. *)
Definition check (m : t) (command entityId : jsstring) (now : Z) : CooldownResult :=
  let key := _key m command entityId in
  match _get m key with
  | None => {| onCooldown := false; remaining := 0; expiry := None |}
  | Some e =>
    if (e =? 0) || (now >=? e)
    then {| onCooldown := false; remaining := 0; expiry := None |}
    else {| onCooldown := true; remaining := e - now; expiry := Some e |}
  end.

Definition set (m : t) (command entityId : jsstring) (durationMs now : Z) : Outcome t Z :=
  if durationMs <=? 0 then Threw (ForgeError COOLDOWN_INVALID_DURATION None) m
  else
    let e := now + durationMs in
    Returned e (_set m (_key m command entityId) e).

(** [use] reads the clock twice: [nowCheck] in [check], then [nowSet] in
    [set]. *)
Definition use (m : t) (command entityId : jsstring) (durationMs nowCheck nowSet : Z)
  : Outcome t unit :=
  let result := check m command entityId nowCheck in
  if onCooldown result
  then Threw (ForgeError COOLDOWN_ACTIVE (Some (remaining result))) m
  else
    match set m command entityId durationMs nowSet with
    | Returned _ m' => Returned () m'
    | Threw e m' => Threw e m'
    end.

Definition reset (m : t) (command entityId : jsstring) : t :=
  _delete m (_key m command entityId).

(** [remaining(command, entityId)] *)
Definition remaining_ (m : t) (command entityId : jsstring) (now : Z) : Z :=
  remaining (check m command entityId now).

(** [sweep]: one pass over the entries; deleting the entry under the
    iterator does not disturb the iteration of a Map. Returns [removed]. *)
Definition sweepStep (now : Z) (acc : t * nat) (entry : jsstring * Z) : t * nat :=
  if now >=? entry.2 then (_delete acc.1 entry.1, S acc.2) else acc.

Definition sweep (m : t) (now : Z) : t * nat :=
  foldl (sweepStep now) (m, 0%nat) (_entries m).

(** [key.startsWith(prefix)] *)
Fixpoint startsWith (key prefix : jsstring) : bool :=
  match prefix, key with
  | [], _ => true
  | _ :: _, [] => false
  | p :: prefix', k :: key' => N.eqb k p && startsWith key' prefix'
  end.

Definition _keys (m : t) : list jsstring := (map_to_list (_store m)).*1.

(** [resetAll]: one pass over the keys, deleting those of the command. *)
Definition resetAllStep (prefix : jsstring) (acc : t) (key : jsstring) : t :=
  if startsWith key prefix then _delete acc key else acc.

Definition resetAll (m : t) (command : jsstring) : t :=
  let prefix := _prefix m ++ command ++ js ":" in
  foldl (resetAllStep prefix) m (_keys m).

(** [destroy]: the timer is cleared and the store emptied. *)
Definition destroy (m : t) : t := {| _store := ∅; _prefix := _prefix m |}.

(** The interaction, as far as the scope helpers read it; [guildId] and
    [channelId] are [null] ([None]) where there is no guild or channel. *)
Record ScopeInteraction := {
  user_id : jsstring;
  guildId : option jsstring;
  channelId : option jsstring
}.

(** [scope.user], [scope.guild], [scope.channel], [scope.global]: the
    entity each of them passes to [use]. A [null] in a template literal
    reads "null". *)
Definition userEntity (i : ScopeInteraction) : jsstring := js "user_" ++ user_id i.
Definition guildEntity (i : ScopeInteraction) : jsstring :=
  js "guild_" ++ default (js "dm") (guildId i).
Definition channelEntity (i : ScopeInteraction) : jsstring :=
  js "channel_" ++ default (js "null") (channelId i).
Definition globalEntity : jsstring := js "global".

Definition scope_user (m : t) (command : jsstring) (i : ScopeInteraction)
    (duration nowCheck nowSet : Z) : Outcome t unit :=
  use m command (userEntity i) duration nowCheck nowSet.
Definition scope_guild (m : t) (command : jsstring) (i : ScopeInteraction)
    (duration nowCheck nowSet : Z) : Outcome t unit :=
  use m command (guildEntity i) duration nowCheck nowSet.
Definition scope_channel (m : t) (command : jsstring) (i : ScopeInteraction)
    (duration nowCheck nowSet : Z) : Outcome t unit :=
  use m command (channelEntity i) duration nowCheck nowSet.
Definition scope_global (m : t) (command : jsstring) (i : ScopeInteraction)
    (duration nowCheck nowSet : Z) : Outcome t unit :=
  use m command globalEntity duration nowCheck nowSet.

(** Calls on a manager over time: a [use] with its two clock readings, or
    a [sweep] (the timer, or a manual call) with its clock reading. *)
Inductive Op :=
| OpUse (command entityId : jsstring) (durationMs nowCheck nowSet : Z)
| OpSweep (now : Z).

Definition runOp (m : t) (op : Op) : t :=
  match op with
  | OpUse command entityId durationMs nowCheck nowSet =>
    state_of (use m command entityId durationMs nowCheck nowSet)
  | OpSweep now => (sweep m now).1
  end.

Definition runOps (m : t) (ops : list Op) : t := foldl runOp m ops.

(** The clock as the call first reads it. *)
Definition opClock (op : Op) : Z :=
  match op with
  | OpUse _ _ _ nowCheck _ => nowCheck
  | OpSweep now => now
  end.

End CooldownManager.

(** ** pagination/Paginator.mjs

    The constructor, [_buildPayload], [_update], [goTo], [reply] and the
    ['collect'] listener of [_startCollector]. The [filter] of the
    collector makes sure that the listener only sees the five navigation
    buttons, pressed by the permitted user. *)
Module Paginator.

Definition NAV_ID_FIRST : jsstring := js "forge_page_first".
Definition NAV_ID_PREV : jsstring := js "forge_page_prev".
Definition NAV_ID_NEXT : jsstring := js "forge_page_next".
Definition NAV_ID_LAST : jsstring := js "forge_page_last".
Definition NAV_ID_STOP : jsstring := js "forge_page_stop".

Record PaginatorOptions := {
  startPage : option Z;
  timeout : option Z;
  showPageCount : option bool;
  ephemeral : option bool;
  showStop : option bool;
  userId : option jsstring
}.

(** The navigation row built by [_buildPayload]: which buttons are disabled,
    the label of the counter button when shown ([current + 1], [total]) and
    whether there is a stop button. Button labels are left out. *)
Record NavRow := {
  firstDisabled : bool;
  prevDisabled : bool;
  count : option (Z * Z);
  nextDisabled : bool;
  lastDisabled : bool;
  stopShown : bool
}.

Section Paginator.

(** A page payload is opaque to the paginator. *)
Context {Page : Type}.

Record Payload := {
  page : Page;
  row : NavRow;
  payloadEphemeral : option bool
}.

(** The message handle: what the message shows after the last [edit]. *)
Record Message := { shown : Payload }.

(** The collector: ended with a reason or still collecting. *)
Record Collector := { endReason : option jsstring }.

Record t := {
  _pages : list Page;
  _current : Z;
  _timeout : Z;
  _showCount : bool;
  _ephemeral : bool;
  _showStop : bool;
  _userId : option jsstring;
  _collector : option Collector;
  _message : option Message
}.

Definition setCurrent (p : t) (index : Z) : t :=
  {| _pages := _pages p; _current := index; _timeout := _timeout p;
     _showCount := _showCount p; _ephemeral := _ephemeral p;
     _showStop := _showStop p; _userId := _userId p;
     _collector := _collector p; _message := _message p |}.

Definition setMessage (p : t) (m : Message) : t :=
  {| _pages := _pages p; _current := _current p; _timeout := _timeout p;
     _showCount := _showCount p; _ephemeral := _ephemeral p;
     _showStop := _showStop p; _userId := _userId p;
     _collector := _collector p; _message := Some m |}.

Definition setCollector (p : t) (c : Collector) : t :=
  {| _pages := _pages p; _current := _current p; _timeout := _timeout p;
     _showCount := _showCount p; _ephemeral := _ephemeral p;
     _showStop := _showStop p; _userId := _userId p;
     _collector := Some c; _message := _message p |}.

(** [new Paginator(pages, options)]; [pages] is [None] when the argument is
    missing. *)
Definition constructor (pages : option (list Page)) (options : PaginatorOptions)
  : Error + t :=
  match pages with
  | None | Some [] => inl (ForgeError PAGINATOR_NO_PAGES None)
  | Some pages =>
    inr {| _pages := pages;
           _current := default 0 (startPage options);
           _timeout := default 120000 (timeout options);
           _showCount := default true (showPageCount options);
           _ephemeral := default false (ephemeral options);
           _showStop := default true (showStop options);
           _userId := userId options;
           _collector := None;
           _message := None |}
  end.

(** [this._pages[i]]: [undefined] outside of the array. *)
Definition pageAt (pages : list Page) (i : Z) : option Page :=
  if i <? 0 then None else pages !! Z.to_nat i.

(** [_buildPayload]; reading [page.components] of a missing page throws. *)
Definition _buildPayload (p : t) : Error + Payload :=
  let total := Z.of_nat (length (_pages p)) in
  let isFirst := _current p =? 0 in
  let isLast := _current p =? total - 1 in
  let onlyOne := total =? 1 in
  match pageAt (_pages p) (_current p) with
  | None => inl TypeError
  | Some pg =>
    inr {| page := pg;
           row := {| firstDisabled := isFirst || onlyOne;
                     prevDisabled := isFirst || onlyOne;
                     count := if _showCount p then Some (_current p + 1, total) else None;
                     nextDisabled := isLast || onlyOne;
                     lastDisabled := isLast || onlyOne;
                     stopShown := _showStop p |};
           payloadEphemeral := Some (_ephemeral p) |}
  end.

(** [_update]: rebuild the payload, drop [ephemeral], edit the message. *)
Definition _update (p : t) : Outcome t unit :=
  match _buildPayload p with
  | inl e => Threw e p
  | inr payload =>
    let payload := {| page := page payload; row := row payload; payloadEphemeral := None |} in
    match _message p with
    | None => Threw TypeError p
    | Some _ => Returned () (setMessage p {| shown := payload |})
    end
  end.

Definition goTo (p : t) (index : Z) : Outcome t unit :=
  if (index <? 0) || (index >=? Z.of_nat (length (_pages p)))
  then Threw (ForgeError PAGINATOR_INVALID_PAGE None) p
  else _update (setCurrent p index).

(** [reply]: the message shows the payload of the current page and the
    collector starts. *)
Definition reply (p : t) (interactionUserId : jsstring) : Outcome t unit :=
  let p := {| _pages := _pages p; _current := _current p; _timeout := _timeout p;
              _showCount := _showCount p; _ephemeral := _ephemeral p;
              _showStop := _showStop p;
              _userId := Some (default interactionUserId (_userId p));
              _collector := _collector p; _message := _message p |} in
  match _buildPayload p with
  | inl e => Threw e p
  | inr payload =>
    Returned () (setCollector (setMessage p {| shown := payload |}) {| endReason := None |})
  end.

(** [this._collector.stop(reason)] on a collector that exists. *)
Definition stopCollector (p : t) (reason : jsstring) : t :=
  match _collector p with
  | Some {| endReason := None |} => setCollector p {| endReason := Some reason |}
  | _ => p
  end.

(** The ['collect'] listener installed by [_startCollector], on a button
    with the given [customId]. *)
Definition onCollect (p : t) (btnCustomId : jsstring) : Outcome t unit :=
  let total := Z.of_nat (length (_pages p)) in
  if bool_decide (btnCustomId = NAV_ID_FIRST) then _update (setCurrent p 0)
  else if bool_decide (btnCustomId = NAV_ID_PREV)
    then _update (setCurrent p (Z.max 0 (_current p - 1)))
  else if bool_decide (btnCustomId = NAV_ID_NEXT)
    then _update (setCurrent p (Z.min (total - 1) (_current p + 1)))
  else if bool_decide (btnCustomId = NAV_ID_LAST)
    then _update (setCurrent p (total - 1))
  else if bool_decide (btnCustomId = NAV_ID_STOP)
    then Returned () (stopCollector p (js "user"))
  else _update p.

(** The message shows the page under the cursor. *)
Definition displays (p : t) : Prop :=
  exists msg, _message p = Some msg /\
              pageAt (_pages p) (_current p) = Some (page (shown msg)).

(** [!this._userId]: no restriction is set. *)
Definition noUserId (u : option jsstring) : bool :=
  match u with
  | Some (_ :: _) => false
  | _ => true
  end.

(** [Object.values(NAV_ID).includes(customId)] *)
Definition isNavId (customId : jsstring) : bool :=
  bool_decide (customId ∈
    [NAV_ID_FIRST; NAV_ID_PREV; NAV_ID_NEXT; NAV_ID_LAST; NAV_ID_STOP]).

(** The [filter] of the collector: whether the click is collected, and
    whether its author is told that the pagination is not for them. *)
Definition filter (p : t) (userId customId : jsstring) : bool * bool :=
  let allowed := noUserId (_userId p) || bool_decide (_userId p = Some userId) in
  (allowed && isNavId customId, negb allowed).

(** [send(channel, userId)] *)
Definition send (p : t) (userId : option jsstring) : Outcome t unit :=
  let p := {| _pages := _pages p; _current := _current p; _timeout := _timeout p;
              _showCount := _showCount p; _ephemeral := _ephemeral p;
              _showStop := _showStop p;
              _userId := if noUserId userId then _userId p else userId;
              _collector := _collector p; _message := _message p |} in
  match _buildPayload p with
  | inl e => Threw e p
  | inr payload =>
    Returned () (setCollector (setMessage p {| shown := payload |}) {| endReason := None |})
  end.

(** [stop()] *)
Definition stop (p : t) : t := stopCollector p (js "manual").

(** What happens to a paginator on display: a programmatic jump or a
    collected button. *)
Inductive Action :=
| GoTo (index : Z)
| Press (customId : jsstring).

Definition act (p : t) (a : Action) : Outcome t unit :=
  match a with
  | GoTo index => goTo p index
  | Press customId => onCollect p customId
  end.

Definition actAll (p : t) (actions : list Action) : t :=
  foldl (fun p a => state_of (act p a)) p actions.

End Paginator.

(** The paginator that [new Paginator(pages)] builds without options. *)
Definition ofPages {Page : Type} (pages : list Page) : t (Page := Page) :=
  {| _pages := pages; _current := 0; _timeout := 120000; _showCount := true;
     _ephemeral := false; _showStop := true; _userId := None;
     _collector := None; _message := None |}.

Definition noOptions : PaginatorOptions :=
  {| startPage := None; timeout := None; showPageCount := None;
     ephemeral := None; showStop := None; userId := None |}.

Arguments Payload : clear implicits.
Arguments Message : clear implicits.
Arguments t : clear implicits.

End Paginator.

(** ** confirmations/ConfirmationManager.mjs

    [ask] creates a collector on the prompt with [max: 1] and [time], and
    registers a ['collect'] and an ['end'] listener that settle the promise
    it returns. The session below is the state these closures share.

    The collector is the InteractionCollector of discord.js. Its
    [handleCollect] is the listener of the client's interaction event
    until the collector ends, and it is an async method: it awaits
    [collect], calls the filter and awaits it, and only then stores the
    item, emits ['collect'] and checks the end condition. So for the
    presses that the client emits in one turn of the event loop the filter
    is called for every press before anything is collected, and a press
    that passed the filter is collected even when the collector has ended
    in between; presses emitted in a later turn find the listener removed.
    The timer and the deletion of the message call [stop] in a turn of
    their own.

    The calls that the listeners await ([deferUpdate], [edit]) complete in
    the order in which they are made, so that the listeners started first
    finish first. *)
Module ConfirmationManager.

Definition DEFAULT_ID_CONFIRM : jsstring := js "forge_confirm_yes".
Definition DEFAULT_ID_CANCEL : jsstring := js "forge_confirm_no".

(** The options [ask] works with, after the defaults are merged in; button
    labels and styles are left out. *)
Record Options := {
  timeout : Z;
  ephemeral : bool;
  confirmedText : jsstring;
  cancelledText : jsstring;
  timedOutText : jsstring;
  updateReply : bool
}.

(** The defaults of the constructor called without argument. The texts
    start with U+2705, U+274C and U+23F3. *)
Definition defaults : Options :=
  {| timeout := 30000;
     ephemeral := true;
     confirmedText := 9989%N :: js " Confirmed.";
     cancelledText := 10060%N :: js " Cancelled.";
     timedOutText := 9203%N :: js " Timed out.";
     updateReply := true |}.

(** Why a collector ended: ['limit'] when [max] items were collected,
    ['time'] when the timer ran out, or the deletion of the message (or of
    its channel, thread or guild). *)
Inductive EndReason := limit | time | messageDelete.

(** What reaches the collector of the prompt, turn by turn of the event
    loop: the buttons of the message pressed in one turn, each with the
    user who pressed it and the customId, in the order in which the client
    emits them; the timer running out; the message going away. *)
Inductive Event :=
| Clicks (batch : list (jsstring * jsstring))
| TimerExpired
| MessageDeleted.

(** One press, alone in its turn. *)
Definition Click (userId customId : jsstring) : Event := Clicks [(userId, customId)].

Inductive PromiseState :=
| Pending
| Fulfilled (confirmed : bool)
| Rejected (e : Error).

(** What the message shows: the prompt with its two buttons, or a terminal
    text with the components removed. *)
Inductive Shown :=
| Prompt
| Terminal (content : jsstring).

(** A confirmation session: the closure of [ask] (owner, button ids,
    options), the collector ([collectorMax], [total], [endReason]), the
    promise returned by [ask] with the number of [resolve] and [reject]
    calls made so far, the message, and the users told that the
    confirmation is not for them. *)
Record Session := {
  owner : jsstring;
  yesId : jsstring;
  noId : jsstring;
  opts : Options;
  collectorMax : option nat;
  total : nat;
  endReason : option EndReason;
  promise : PromiseState;
  resolveCalls : nat;
  rejectCalls : nat;
  message : Shown;
  notices : list jsstring
}.

(** [ask] up to the creation of the collector. The nonce is
    [`${Date.now()}_${Math.random().toString(36).slice(2, 6)}`], an
    argument here. *)
Definition ask (interactionUserId nonce : jsstring) (o : Options) : Session :=
  {| owner := interactionUserId;
     yesId := DEFAULT_ID_CONFIRM ++ js "_" ++ nonce;
     noId := DEFAULT_ID_CANCEL ++ js "_" ++ nonce;
     opts := o;
     collectorMax := Some 1%nat;
     total := 0;
     endReason := None;
     promise := Pending;
     resolveCalls := 0;
     rejectCalls := 0;
     message := Prompt;
     notices := [] |}.

(** [resolve(v)] and [reject(e)] of the promise: only the first call
    settles it. *)
Definition resolve (s : Session) (v : bool) : Session :=
  {| owner := owner s; yesId := yesId s; noId := noId s; opts := opts s;
     collectorMax := collectorMax s; total := total s; endReason := endReason s;
     promise := match promise s with Pending => Fulfilled v | st => st end;
     resolveCalls := S (resolveCalls s); rejectCalls := rejectCalls s;
     message := message s; notices := notices s |}.

Definition reject (s : Session) (e : Error) : Session :=
  {| owner := owner s; yesId := yesId s; noId := noId s; opts := opts s;
     collectorMax := collectorMax s; total := total s; endReason := endReason s;
     promise := match promise s with Pending => Rejected e | st => st end;
     resolveCalls := resolveCalls s; rejectCalls := S (rejectCalls s);
     message := message s; notices := notices s |}.

(** [message.edit({ content, embeds: [], components: [] })] *)
Definition edit (s : Session) (content : jsstring) : Session :=
  {| owner := owner s; yesId := yesId s; noId := noId s; opts := opts s;
     collectorMax := collectorMax s; total := total s; endReason := endReason s;
     promise := promise s;
     resolveCalls := resolveCalls s; rejectCalls := rejectCalls s;
     message := Terminal content; notices := notices s |}.

Definition notify (s : Session) (user : jsstring) : Session :=
  {| owner := owner s; yesId := yesId s; noId := noId s; opts := opts s;
     collectorMax := collectorMax s; total := total s; endReason := endReason s;
     promise := promise s;
     resolveCalls := resolveCalls s; rejectCalls := rejectCalls s;
     message := message s; notices := notices s ++ [user] |}.

Definition setCollector (s : Session) (n : nat) (r : option EndReason) : Session :=
  {| owner := owner s; yesId := yesId s; noId := noId s; opts := opts s;
     collectorMax := collectorMax s; total := n; endReason := r;
     promise := promise s;
     resolveCalls := resolveCalls s; rejectCalls := rejectCalls s;
     message := message s; notices := notices s |}.

(** The [filter] option of the collector: the result, and the session after
    the notice to a user who is not the owner. *)
Definition filter (s : Session) (userId customId : jsstring) : bool * Session :=
  let isOwner := bool_decide (userId = owner s) in
  let s := if isOwner then s else notify s userId in
  (isOwner && (bool_decide (customId = yesId s) || bool_decide (customId = noId s)), s).

(** The ['collect'] listener. *)
Definition onCollect (s : Session) (btnCustomId : jsstring) : Session :=
  let confirmed := bool_decide (btnCustomId = yesId s) in
  let s := if updateReply (opts s)
           then edit s (if confirmed then confirmedText (opts s) else cancelledText (opts s))
           else s in
  resolve s confirmed.

(** The ['end'] listener. *)
Definition onEnd (s : Session) (reason : EndReason) : Session :=
  match reason with
  | limit => s
  | _ =>
    let s := if updateReply (opts s) then edit s (timedOutText (opts s)) else s in
    reject s (ForgeError CONFIRMATION_TIMED_OUT None)
  end.

(** The collector of discord.js, as the session uses it.
    [stop]: the first stop records the reason and emits ['end']. *)
Definition stop (s : Session) (reason : EndReason) : Session :=
  match endReason s with
  | Some _ => s
  | None => onEnd (setCollector s (total s) (Some reason)) reason
  end.

(** [checkEnd]: stop with ['limit'] once [max] items were collected. *)
Definition checkEnd (s : Session) : Session :=
  match collectorMax s with
  | Some (S _ as max) => if (max <=? total s)%nat then stop s limit else s
  | _ => s
  end.

(** The listener that the collector registers on its own ['collect']
    event, ahead of the one of [ask]: [this.total++]. *)
Definition count (s : Session) : Session :=
  setCollector s (S (total s)) (endReason s).

(** [handleCollect] up to its second [await]: [collect] accepts the press
    and the filter is called. The result of the filter is kept with the
    customId of the press. *)
Definition handleCollect_filter (acc : list (jsstring * bool) * Session)
    (click : jsstring * jsstring) : list (jsstring * bool) * Session :=
  let '(pass, s) := filter acc.2 click.1 click.2 in
  (acc.1 ++ [(click.2, pass)], s).

(** [handleCollect] after the filter: a press that passed is emitted as
    ['collect'], to the counting listener and to the listener of [ask];
    then [checkEnd]. *)
Definition handleCollect_emit (s : Session) (item : jsstring * bool) : Session :=
  let s := if item.2 then onCollect (count s) item.1 else s in
  checkEnd s.

(** The presses of one turn. An ended collector no longer listens.
    Otherwise [handleCollect] starts for every press, the filter runs for
    each in order, and then the rest of [handleCollect] runs for each in
    order. *)
Definition deliver (s : Session) (batch : list (jsstring * jsstring)) : Session :=
  match endReason s with
  | Some _ => s
  | None =>
    let '(items, s) := foldl handleCollect_filter ([], s) batch in
    foldl handleCollect_emit s items
  end.

Definition dispatch (s : Session) (ev : Event) : Session :=
  match ev with
  | Clicks batch => deliver s batch
  | TimerExpired => stop s time
  | MessageDeleted => stop s messageDelete
  end.

Definition run (s : Session) (evs : list Event) : Session := foldl dispatch s evs.

(** A press that the filter of a session lets pass: by the user who
    triggered [ask], on one of the two buttons of the session. *)
Definition qualifying (ownerId yes no : jsstring) (click : jsstring * jsstring) : bool :=
  bool_decide (click.1 = ownerId)
  && (bool_decide (click.2 = yes) || bool_decide (click.2 = no)).

(** The customIds of the qualifying presses of a turn, in order. *)
Definition collected (ownerId yes no : jsstring) (batch : list (jsstring * jsstring))
  : list jsstring :=
  (List.filter (qualifying ownerId yes no) batch).*2.

(** The users of a turn who are not the owner, press by press. *)
Definition others (ownerId : jsstring) (batch : list (jsstring * jsstring))
  : list jsstring :=
  (List.filter (fun click => negb (bool_decide (click.1 = ownerId))) batch).*1.

(** A turn that settles the session: one with a qualifying press, the
    timer, the deletion of the message. [firstDecisive] is the first such
    turn of a sequence. *)
Definition decisive (ownerId yes no : jsstring) (ev : Event) : bool :=
  match ev with
  | Clicks batch => existsb (qualifying ownerId yes no) batch
  | TimerExpired | MessageDeleted => true
  end.

Fixpoint firstDecisive (ownerId yes no : jsstring) (evs : list Event) : option Event :=
  match evs with
  | [] => None
  | ev :: rest =>
    if decisive ownerId yes no ev then Some ev else firstDecisive ownerId yes no rest
  end.

(** The users told that the confirmation is not for them, over a sequence
    of turns: the users who are not the owner, press by press, of every
    turn up to and including the one that settles the session. *)
Fixpoint expectedNotices (ownerId yes no : jsstring) (evs : list Event) : list jsstring :=
  match evs with
  | [] => []
  | ev :: rest =>
    match ev with Clicks batch => others ownerId batch | _ => [] end
    ++ (if decisive ownerId yes no ev then []
        else expectedNotices ownerId yes no rest)
  end.

(** The text that the ['collect'] listener puts on the message for a
    press. *)
Definition outcomeText (o : Options) (yes customId : jsstring) : jsstring :=
  if bool_decide (customId = yes) then confirmedText o else cancelledText o.

End ConfirmationManager.

(** ** webhooks/WebhookManager.mjs

    [send], [sendBatch], [_parse] and [_normalise]. The REST call of
    [send] is the effect; the model returns the request that is issued.
    What WEBHOOK_URL_REGEX extracts from a URL and the [toJSON] of
    builders are parameters. *)
Module WebhookManager.

Section Webhook.

Context {Embed Component Other : Type}.

(** [WEBHOOK_URL_REGEX.exec(url)]: the id and the token, or no match. *)
Context (execUrl : jsstring -> option (jsstring * jsstring)).

(** [e.toJSON?.() ?? e] on an embed and on a component. *)
Context (embedJSON : Embed -> Embed) (componentJSON : Component -> Component).

(** The payload: [content], [embeds], [components], and the properties
    that are only copied ([username], [avatarUrl], [tts], ...). *)
Record WebhookSendOptions := {
  content : option jsstring;
  embeds : option (list Embed);
  components : option (list Component);
  other : Other
}.

Record WebhookSendMeta := {
  threadId : option jsstring;
  wait : option bool
}.

(** The POST that [send] issues: the webhook, the query and the body. *)
Record Request := {
  webhookId : jsstring;
  webhookToken : jsstring;
  queryWait : bool;
  queryThreadId : option jsstring;
  body : WebhookSendOptions
}.

Inductive WebhookError := WEBHOOK_INVALID_URL (url : jsstring).

Definition _parse (url : jsstring) : WebhookError + (jsstring * jsstring) :=
  match execUrl url with
  | None => inl (WEBHOOK_INVALID_URL url)
  | Some idToken => inr idToken
  end.

Definition _normalise (payload : WebhookSendOptions) : WebhookSendOptions :=
  {| content := content payload;
     embeds := (fun es : list Embed => embedJSON <$> es) <$> embeds payload;
     components := (fun cs : list Component => componentJSON <$> cs) <$> components payload;
     other := other payload |}.

Definition send (url : jsstring) (payload : WebhookSendOptions) (meta : WebhookSendMeta)
  : WebhookError + Request :=
  match _parse url with
  | inl e => inl e
  | inr (id, token) =>
    inr {| webhookId := id;
           webhookToken := token;
           queryWait := negb (bool_decide (wait meta = Some false));
           queryThreadId := match threadId meta with
                            | Some (c :: thread) => Some (c :: thread)
                            | _ => None
                            end;
           body := _normalise payload |}
  end.

(** The first loop of [sendBatch], from index [i] on:
    [chunks.push(embeds.slice(i, i + 10))] while [i < embeds.length]. The
    fuel bounds the number of iterations. *)
Fixpoint chunkLoop (fuel i : nat) (embeds : list Embed) : list (list Embed) :=
  match fuel with
  | O => []
  | S fuel' =>
    if (i <? length embeds)%nat
    then take 10 (drop i embeds) :: chunkLoop fuel' (i + 10) embeds
    else []
  end.

Definition chunksOf (embeds : list Embed) : list (list Embed) :=
  chunkLoop (length embeds) 0 embeds.

(** The second loop of [sendBatch] from chunk index [ci] on; a [send] that
    throws ends the batch. *)
Fixpoint sendEach (url : jsstring) (payload : WebhookSendOptions) (meta : WebhookSendMeta)
    (ci : nat) (chunks : list (list Embed)) : WebhookError + list Request :=
  match chunks with
  | [] => inr []
  | chunk :: rest =>
    match send url
            {| content := if (ci =? 0)%nat then content payload else None;
               embeds := Some chunk;
               components := components payload;
               other := other payload |}
            meta with
    | inl e => inl e
    | inr msg =>
      match sendEach url payload meta (S ci) rest with
      | inl e => inl e
      | inr msgs => inr (msg :: msgs)
      end
    end
  end.

Definition sendBatch (url : jsstring) (payload : WebhookSendOptions) (meta : WebhookSendMeta)
  : WebhookError + list Request :=
  sendEach url payload meta 0 (chunksOf (default [] (embeds payload))).

End Webhook.

End WebhookManager.

(** ** utils: Strings

    [Strings.truncate] and [Strings.chunk], with the string methods they
    call on integer arguments. *)
Module Strings.

(** [text.slice(0, end)] and [text.slice(begin)]: a negative index counts
    from the end, and indices are clamped to the string. *)
Definition relativeIndex (len i : Z) : Z :=
  if i <? 0 then Z.max (len + i) 0 else Z.min i len.

Definition sliceTo (text : jsstring) (e : Z) : jsstring :=
  take (Z.to_nat (relativeIndex (Z.of_nat (length text)) e)) text.

Definition sliceFrom (text : jsstring) (b : Z) : jsstring :=
  drop (Z.to_nat (relativeIndex (Z.of_nat (length text)) b)) text.

(** [truncate(text, max, suffix)]; the default suffix is U+2026. *)
Definition truncate (text : jsstring) (max : Z) (suffix : option jsstring) : jsstring :=
  let suffix := default [8230%N] suffix in
  if Z.of_nat (length text) <=? max then text
  else sliceTo text (max - Z.of_nat (length suffix)) ++ suffix.

(** The search of [lastIndexOf] for a line feed at the indices [k],
    [k - 1], ..., 0. *)
Fixpoint searchBackwards (text : jsstring) (k : nat) : Z :=
  if bool_decide (text !! k = Some 10%N) then Z.of_nat k
  else match k with
       | O => -1
       | S k' => searchBackwards text k'
       end.

(** [text.lastIndexOf('\n', position)]: the search starts at [position]
    clamped to the indices of the string. *)
Definition lastIndexOfNewline (text : jsstring) (position : Z) : Z :=
  let start := Z.min (Z.max position 0) (Z.of_nat (length text) - 1) in
  if start <? 0 then -1 else searchBackwards text (Z.to_nat start).

(** WhiteSpace and LineTerminator code units, which [trimStart] removes. *)
Definition isWhiteSpace (c : code_unit) : bool :=
  existsb (N.eqb c)
    [9%N; 10%N; 11%N; 12%N; 13%N; 32%N; 160%N; 5760%N; 8232%N; 8233%N;
     8239%N; 8287%N; 12288%N; 65279%N]
  || (N.leb 8192 c && N.leb c 8202).

Fixpoint trimStart (text : jsstring) : jsstring :=
  match text with
  | c :: rest => if isWhiteSpace c then trimStart rest else text
  | [] => []
  end.

(** The loop of [chunk] with the chunks pushed so far; [None] when the
    fuel runs out before the loop ends. *)
Fixpoint chunkLoop (fuel : nat) (text : jsstring) (maxLength : Z) (chunks : list jsstring)
  : option (list jsstring) :=
  if Z.of_nat (length text) >? maxLength then
    match fuel with
    | O => None
    | S fuel' =>
      let idx := lastIndexOfNewline text maxLength in
      let idx := if idx <=? 0 then maxLength else idx in
      chunkLoop fuel' (trimStart (sliceFrom text idx)) maxLength
        (chunks ++ [sliceTo text idx])
    end
  else
    Some (match text with [] => chunks | _ :: _ => chunks ++ [text] end).

Definition chunk (fuel : nat) (text : jsstring) (maxLength : Z) : option (list jsstring) :=
  chunkLoop fuel text maxLength [].

End Strings.

(* ===================================================================== *)
(** * Part II. Properties *)
(* ===================================================================== *)

(** ** Pattern compilation *)
Module RouterFacts.
Import RegExp InteractionRouter.


(** The tests on code units, with the constants evaluated. *)
Lemma inEscapeClass_unfold c :
  inEscapeClass c =
  (N.eqb c 46 || (N.eqb c 43 || (N.eqb c 63 || (N.eqb c 94 || (N.eqb c 36 ||
  (N.eqb c 123 || (N.eqb c 125 || (N.eqb c 40 || (N.eqb c 41 || (N.eqb c 124 ||
  (N.eqb c 91 || (N.eqb c 93 || (N.eqb c 92 || false))))))))))))).
Proof. reflexivity. Qed.

Lemma isSyntaxCharacter_unfold c :
  isSyntaxCharacter c =
  (N.eqb c 94 || (N.eqb c 36 || (N.eqb c 92 || (N.eqb c 46 || (N.eqb c 42 ||
  (N.eqb c 43 || (N.eqb c 63 || (N.eqb c 40 || (N.eqb c 41 || (N.eqb c 91 ||
  (N.eqb c 93 || (N.eqb c 123 || (N.eqb c 125 || (N.eqb c 124 || false)))))))))))))).
Proof. reflexivity. Qed.

Lemma parse_cons c rest :
  parse (c :: rest) =
  if N.eqb c 94 then cons AssertStart <$> parse rest
  else if N.eqb c 36 then cons AssertEnd <$> parse rest
  else if N.eqb c 92 then
    match rest with
    | e :: rest' =>
      if isSyntaxCharacter e then cons (Char e) <$> parse rest' else None
    | [] => None
    end
  else if N.eqb c 40 then
    match rest with
    | d :: p :: q :: rest' =>
      if N.eqb d 46 && N.eqb p 43 && N.eqb q 41
      then cons (DotGroup None OneOrMore) <$> parse rest'
      else None
    | _ => None
    end
  else if isSyntaxCharacter c then None
  else cons (Char c) <$> parse rest.
Proof. reflexivity. Qed.

Lemma escapeMeta_cons c p :
  escapeMeta (c :: p) = (if inEscapeClass c then [92%N; c] else [c]) ++ escapeMeta p.
Proof. reflexivity. Qed.

Lemma replaceStar_cons c s :
  replaceStar (c :: s) =
  (if N.eqb c 42 then [40%N; 46%N; 43%N; 41%N] else [c]) ++ replaceStar s.
Proof. reflexivity. Qed.

Lemma replaceStar_app s1 s2 :
  replaceStar (s1 ++ s2) = replaceStar s1 ++ replaceStar s2.
Proof. unfold replaceStar. apply bind_app. Qed.

Ltac split_code_unit c :=
  repeat match goal with
         | |- context [N.eqb c ?k] => destruct (N.eqb_spec c k); [subst c|]
         end.

(** One character of the pattern, escaped and with its star replaced,
    parses to its node. *)
Lemma parse_glob_char c rest :
  parse (replaceStar (if inEscapeClass c then [92%N; c] else [c]) ++ rest) =
  cons (if N.eqb c 42 then DotGroup None OneOrMore else Char c) <$> parse rest.
Proof.
  rewrite inEscapeClass_unfold.
  destruct (N.eqb_spec c 42) as [->|Hstar]; [reflexivity|].
  split_code_unit c; try reflexivity.
  cbn [orb].
  rewrite replaceStar_cons, (proj2 (N.eqb_neq c 42) Hstar).
  cbn [app replaceStar mbind list_bind].
  rewrite parse_cons, isSyntaxCharacter_unfold.
  repeat match goal with
         | H : c ≠ ?k |- context [N.eqb c ?k] => rewrite (proj2 (N.eqb_neq c k) H)
         end.
  reflexivity.
Qed.

Lemma parse_glob p rest :
  parse (replaceStar (escapeMeta p) ++ rest) = app (globNodes p) <$> parse rest.
Proof.
  induction p as [|c p IH].
  - cbn. by destruct (parse rest).
  - rewrite escapeMeta_cons, replaceStar_app, <- app_assoc, parse_glob_char, IH.
    change (cu "*") with 42%N. unfold globNodes. rewrite fmap_cons.
    change (cu "*") with 42%N.
    by destruct (parse rest).
Qed.

Lemma replaceStar_no_star s :
  existsb (N.eqb 42) s = false -> replaceStar s = s.
Proof.
  induction s as [|c s IH]; [done|].
  cbn [existsb]. intros [Hc Hs]%orb_false_elim.
  rewrite replaceStar_cons, IH by done.
  rewrite N.eqb_sym, Hc. done.
Qed.

Lemma escapeMeta_no_star p :
  includesStar p = false -> existsb (N.eqb 42) (escapeMeta p) = false.
Proof.
  unfold includesStar. change (cu "*") with 42%N.
  induction p as [|c p IH]; [done|].
  cbn [existsb]. intros [Hc Hs]%orb_false_elim.
  rewrite escapeMeta_cons, existsb_app, IH by done.
  destruct (inEscapeClass c); cbn [existsb]; rewrite Hc; reflexivity.
Qed.

Lemma globNodes_no_star p :
  includesStar p = false -> globNodes p = Char <$> p.
Proof.
  unfold includesStar, globNodes. change (cu "*") with 42%N.
  induction p as [|c p IH]; [done|].
  cbn [existsb]. intros [Hc Hs]%orb_false_elim.
  rewrite !fmap_cons, IH by done. rewrite N.eqb_sym, Hc. done.
Qed.

(** Compilation of a string pattern never fails, and yields the nodes of
    the glob between the two anchors. *)
Lemma compile_string p :
  compile (PString p) = inr (Ast (AssertStart :: globNodes p ++ [AssertEnd])).
Proof.
  unfold compile, RegExp.new.
  assert (Hsrc : parse (js "^" ++ replaceStar (escapeMeta p) ++ js "$")
                 = Some (AssertStart :: globNodes p ++ [AssertEnd])).
  { change (js "^" ++ ?x) with (94%N :: x). rewrite parse_cons.
    change (N.eqb 94 94) with true. cbv iota.
    rewrite parse_glob. reflexivity. }
  destruct (includesStar p) eqn:Hstar.
  - by rewrite Hsrc.
  - rewrite replaceStar_no_star in Hsrc by by apply escapeMeta_no_star.
    by rewrite Hsrc.
Qed.

(** ** Dispatch *)
Section Dispatch.
Context {Handler : Type}.
Implicit Types (r : InteractionRouter.t Handler) (route : Route Handler).
Implicit Types (pre post routes : list (Route Handler)).

Lemma scan_skip cid i pre rest :
  Forall (fun q => match_ cid (compiled q) = None) pre ->
  scan cid i (pre ++ rest) = scan cid (i + length pre) rest.
Proof.
  intros Hpre. revert i. induction Hpre as [|q pre Hq _ IH]; intros i.
  - cbn. by rewrite Nat.add_0_r.
  - cbn [app scan length]. rewrite Hq, IH. f_equal. lia.
Qed.

Lemma scan_first cid i pre route post m :
  Forall (fun q => match_ cid (compiled q) = None) pre ->
  match_ cid (compiled route) = Some m ->
  scan cid i (pre ++ route :: post) = Some ((i + length pre)%nat, route, m).
Proof.
  intros Hpre Hm. rewrite scan_skip by done. cbn [scan]. by rewrite Hm.
Qed.

Lemma scan_None cid i routes :
  scan cid i routes = None <->
  Forall (fun q => match_ cid (compiled q) = None) routes.
Proof.
  revert i. induction routes as [|q routes IH]; intros i; cbn [scan].
  - split; [constructor|done].
  - destruct (match_ cid (compiled q)) eqn:Hq.
    + split; [done|]. intros H. inversion H; congruence.
    + rewrite IH. split; [by constructor|]. intros H. by inversion H.
Qed.

(** A successful scan returns the first matching route and its index. *)
Lemma scan_Some cid i routes j route m :
  scan cid i routes = Some (j, route, m) ->
  exists pre post,
    routes = pre ++ route :: post /\ j = (i + length pre)%nat /\
    Forall (fun q => match_ cid (compiled q) = None) pre /\
    match_ cid (compiled route) = Some m.
Proof.
  revert i. induction routes as [|q routes IH]; intros i; cbn [scan]; [done|].
  destruct (match_ cid (compiled q)) eqn:Hq.
  - intros [= <- <- <-]. exists [], routes. cbn. rewrite Nat.add_0_r. by repeat split.
  - intros (pre & post & -> & -> & Hpre & Hm)%IH.
    exists (q :: pre), post. cbn [app length]. repeat split; [lia| by constructor | done].
Qed.

Lemma delete_middle pre route post :
  delete (length pre) (pre ++ route :: post) = pre ++ post.
Proof. induction pre as [|q pre IH]; cbn; [done|]. by f_equal. Qed.

Lemma handle_first_match r cid pre route post m :
  cid <> [] ->
  _routes r = pre ++ route :: post ->
  Forall (fun q => match_ cid (compiled q) = None) pre ->
  match_ cid (compiled route) = Some m ->
  handle r {| customId := Some cid |} =
  (if once_ route then {| _routes := pre ++ post; _fallback := _fallback r |} else r,
   [CallHandler (handler route) {| customId := Some cid |} (paramsOf m)
      (if once_ route then pre ++ post else _routes r)],
   true).
Proof.
  intros Hcid Hr Hpre Hm. unfold handle. cbn [customId].
  destruct cid as [|c cid]; [done|].
  rewrite Hr, (scan_first _ _ _ _ _ m) by done. cbn [Nat.add].
  rewrite delete_middle. destruct (once_ route); cbn [_routes]; rewrite <- ?Hr; done.
Qed.

Lemma handle_no_match r cid :
  cid <> [] ->
  Forall (fun q => match_ cid (compiled q) = None) (_routes r) ->
  handle r {| customId := Some cid |} =
  (r, match _fallback r with
      | Some f => [CallFallback f {| customId := Some cid |}]
      | None => []
      end, false).
Proof.
  intros Hcid Hr. unfold handle. cbn [customId].
  destruct cid as [|c cid]; [done|].
  apply (scan_None _ 0%nat) in Hr. rewrite Hr. by destruct (_fallback r).
Qed.

End Dispatch.

(** C1. Routes are tried in registration order and the handler of the
    first route that matches is the one invoked: [_register] appends the new
    route to the list; when the routes before a matching route do not match
    the identifier, [handle] calls the handler of that route and nothing
    else. Registering "page_*" and then "page_1" makes the dispatch of
    "page_1" call the wildcard handler; in the reverse order it calls the
    exact handler. *)
Theorem C1_first_registered_match_wins :
  (forall (Handler : Type) (r r' : InteractionRouter.t Handler) p h o,
     _register r p (Fn h) o = inr r' ->
     exists re, compile p = inr re /\
       _routes r' = _routes r ++
         [{| pattern := p; compiled := re; handler := h; once_ := o |}]) /\
  (forall (Handler : Type) (r : InteractionRouter.t Handler) cid pre route post m,
     cid <> [] ->
     _routes r = pre ++ route :: post ->
     Forall (fun q => match_ cid (compiled q) = None) pre ->
     match_ cid (compiled route) = Some m ->
     exists r',
       handle r {| customId := Some cid |} =
       (r', [CallHandler (handler route) {| customId := Some cid |} (paramsOf m)
               (_routes r')], true)) /\
  (forall (Handler : Type) (wildcardHandler exactHandler : Handler),
     (exists r,
        (r1 ← on constructor (PString (js "page_*")) (Fn wildcardHandler);
         on r1 (PString (js "page_1")) (Fn exactHandler)) = inr r /\
        handle r {| customId := Some (js "page_1") |} =
        (r, [CallHandler wildcardHandler {| customId := Some (js "page_1") |}
               [(js "wildcard", Some (js "1"))] (_routes r)], true)) /\
     (exists r,
        (r1 ← on constructor (PString (js "page_1")) (Fn exactHandler);
         on r1 (PString (js "page_*")) (Fn wildcardHandler)) = inr r /\
        handle r {| customId := Some (js "page_1") |} =
        (r, [CallHandler exactHandler {| customId := Some (js "page_1") |}
               [] (_routes r)], true))).
Proof.
  split; [|split].
  - intros Handler r r' p h o. unfold _register.
    destruct (compile p) as [e|re]; [done|].
    intros [= <-]. by exists re.
  - intros Handler r cid pre route post m Hcid Hr Hpre Hm.
    rewrite (handle_first_match r cid pre route post m) by done.
    destruct (once_ route);
      [exists {| _routes := pre ++ post; _fallback := _fallback r |} | exists r];
      reflexivity.
  - intros Handler wildcardHandler exactHandler.
    split; eexists; (split; [reflexivity|]); vm_compute; reflexivity.
Qed.

Lemma C1_first_registered_match_wins_witness :
  exists r',
    handle
      {| _routes := [stringRoute "page_*" 1%nat false; stringRoute "page_1" 2%nat false];
         _fallback := None |}
      {| customId := Some (js "page_1") |} =
    (r', [CallHandler 1%nat {| customId := Some (js "page_1") |}
            [(js "wildcard", Some (js "1"))] (_routes r')], true).
Proof.
  refine (proj1 (proj2 C1_first_registered_match_wins) nat _ (js "page_1") []
            (stringRoute "page_*" 1%nat false) [stringRoute "page_1" 2%nat false]
            {| m_full := js "page_1"; m_captures := [Some (js "1")]; m_groups := None |}
            _ _ _ _).
  - vm_compute. discriminate.
  - reflexivity.
  - constructor.
  - vm_compute. reflexivity.
Defined.

(** C9. What [handle] returns. An interaction without identifier (absent
    or empty) is ignored: [false], no call, not even of the fallback. An
    identifier that no route matches runs the fallback when there is one
    and returns [false]; without fallback it returns [false] and nothing
    happens. When some route matches, [handle] returns [true]. *)
Theorem C9_dispatch_outcomes :
  forall (Handler : Type) (r : InteractionRouter.t Handler),
    handle r {| customId := None |} = (r, [], false) /\
    handle r {| customId := Some [] |} = (r, [], false) /\
    (forall cid f,
       cid <> [] ->
       Forall (fun q => match_ cid (compiled q) = None) (_routes r) ->
       _fallback r = Some f ->
       handle r {| customId := Some cid |} =
       (r, [CallFallback f {| customId := Some cid |}], false)) /\
    (forall cid,
       cid <> [] ->
       Forall (fun q => match_ cid (compiled q) = None) (_routes r) ->
       _fallback r = None ->
       handle r {| customId := Some cid |} = (r, [], false)) /\
    (forall cid,
       cid <> [] ->
       Exists (fun q => match_ cid (compiled q) <> None) (_routes r) ->
       exists r' h params,
         handle r {| customId := Some cid |} =
         (r', [CallHandler h {| customId := Some cid |} params (_routes r')], true)).
Proof.
  intros Handler r. repeat split.
  - intros cid f Hcid Hno Hf. rewrite handle_no_match by done. by rewrite Hf.
  - intros cid Hcid Hno Hf. rewrite handle_no_match by done. by rewrite Hf.
  - intros cid Hcid Hex.
    destruct (scan cid 0 (_routes r)) as [[[j route] m]|] eqn:Hscan.
    + apply scan_Some in Hscan as (pre & post & Hr & _ & Hpre & Hm).
      rewrite (handle_first_match r cid pre route post m) by done.
      destruct (once_ route).
      * by exists {| _routes := pre ++ post; _fallback := _fallback r |},
                  (handler route), (paramsOf m).
      * by exists r, (handler route), (paramsOf m).
    + apply scan_None in Hscan. apply Exists_exists in Hex as (q & Hq & Hmatch).
      rewrite Forall_forall in Hscan. by specialize (Hscan q Hq).
Qed.

Lemma C9_dispatch_outcomes_witness :
  handle
    {| _routes := [stringRoute "open_ticket" 1%nat false]; _fallback := Some 9%nat |}
    {| customId := Some (js "unknown_action") |} =
  ({| _routes := [stringRoute "open_ticket" 1%nat false]; _fallback := Some 9%nat |},
   [CallFallback 9%nat {| customId := Some (js "unknown_action") |}], false).
Proof.
  refine (proj1 (proj2 (proj2 (C9_dispatch_outcomes nat _))) (js "unknown_action") 9%nat _ _ _).
  - vm_compute. discriminate.
  - repeat constructor.
  - reflexivity.
Defined.

(** C6. A route registered with [once] is a route with the single-shot
    mark. On the first dispatch that reaches it, it is taken out of the
    route list before its handler is entered (the handler sees the list
    without it). A second dispatch of the same identifier is a dispatch
    over the remaining routes: the first later route that matches gets it,
    and when none does the fallback, if any, runs. *)
Theorem C6_once_route_fires_once :
  (forall (Handler : Type) (r r' : InteractionRouter.t Handler) p h,
     once r p (Fn h) = inr r' ->
     exists re, _routes r' = _routes r ++
       [{| pattern := p; compiled := re; handler := h; once_ := true |}]) /\
  (forall (Handler : Type) (r : InteractionRouter.t Handler) cid pre route post m,
     cid <> [] ->
     _routes r = pre ++ route :: post ->
     Forall (fun q => match_ cid (compiled q) = None) pre ->
     match_ cid (compiled route) = Some m ->
     once_ route = true ->
     let r1 := {| _routes := pre ++ post; _fallback := _fallback r |} in
     handle r {| customId := Some cid |} =
     (r1, [CallHandler (handler route) {| customId := Some cid |} (paramsOf m)
             (pre ++ post)], true) /\
     (forall pre' route' post' m',
        post = pre' ++ route' :: post' ->
        Forall (fun q => match_ cid (compiled q) = None) pre' ->
        match_ cid (compiled route') = Some m' ->
        exists r2,
          handle r1 {| customId := Some cid |} =
          (r2, [CallHandler (handler route') {| customId := Some cid |} (paramsOf m')
                  (_routes r2)], true)) /\
     (Forall (fun q => match_ cid (compiled q) = None) post ->
      handle r1 {| customId := Some cid |} =
      (r1, match _fallback r with
           | Some f => [CallFallback f {| customId := Some cid |}]
           | None => []
           end, false))).
Proof.
  split.
  - intros Handler r r' p h. unfold once, _register.
    destruct (compile p) as [e|re]; [done|]. intros [= <-]. by exists re.
  - intros Handler r cid pre route post m Hcid Hr Hpre Hm Honce r1. repeat split.
    + rewrite (handle_first_match r cid pre route post m) by done.
      by rewrite Honce.
    + intros pre' route' post' m' Hpost Hpre' Hm'.
      rewrite (handle_first_match r1 cid (pre ++ pre') route' post' m'); try done.
      * destruct (once_ route');
          [exists {| _routes := (pre ++ pre') ++ post'; _fallback := _fallback r1 |}
          | exists r1]; reflexivity.
      * cbn. by rewrite Hpost, app_assoc.
      * by apply Forall_app.
    + intros Hpost. rewrite handle_no_match; [done..|].
      cbn. by apply Forall_app.
Qed.

Lemma C6_once_route_fires_once_witness :
  handle
    {| _routes := [stringRoute "claim_*" 1%nat true; stringRoute "claim_*" 2%nat false];
       _fallback := None |}
    {| customId := Some (js "claim_7") |} =
  ({| _routes := [stringRoute "claim_*" 2%nat false]; _fallback := None |},
   [CallHandler 1%nat {| customId := Some (js "claim_7") |}
      [(js "wildcard", Some (js "7"))] [stringRoute "claim_*" 2%nat false]], true) /\
  exists r2,
    handle {| _routes := [stringRoute "claim_*" 2%nat false]; _fallback := None |}
      {| customId := Some (js "claim_7") |} =
    (r2, [CallHandler 2%nat {| customId := Some (js "claim_7") |}
            [(js "wildcard", Some (js "7"))] (_routes r2)], true).
Proof.
  assert (Hm : forall (h : nat) o,
             match_ (js "claim_7") (compiled (stringRoute "claim_*" h o)) =
             Some {| m_full := js "claim_7"; m_captures := [Some (js "7")];
                     m_groups := None |}) by (intros h o; vm_compute; reflexivity).
  destruct (proj2 C6_once_route_fires_once nat
              {| _routes := [stringRoute "claim_*" 1%nat true;
                             stringRoute "claim_*" 2%nat false];
                 _fallback := None |}
              (js "claim_7") [] (stringRoute "claim_*" 1%nat true)
              [stringRoute "claim_*" 2%nat false] _
              ltac:(vm_compute; discriminate) eq_refl (List.Forall_nil _)
              (Hm 1%nat true) eq_refl)
    as (H1 & H2 & _).
  split; [exact H1|].
  exact (H2 [] (stringRoute "claim_*" 2%nat false) [] _ eq_refl (List.Forall_nil _)
            (Hm 2%nat false)).
Defined.

(** ** Matching a glob with one star *)

Lemma matchNodes_chars l ns pos s :
  matchNodes ((Char <$> l) ++ ns) pos (l ++ s) =
  (fun r : _ * nat => (r.1, (length l + r.2)%nat)) <$> matchNodes ns (pos + length l) s.
Proof.
  revert pos. induction l as [|c l IH]; intros pos.
  - cbn. rewrite Nat.add_0_r. by destruct (matchNodes ns pos s) as [[? ?]|].
  - cbn [fmap list_fmap app matchNodes length]. rewrite N.eqb_refl, IH.
    replace (S pos + length l)%nat with (pos + S (length l))%nat by lia.
    by destruct (matchNodes ns (pos + S (length l)) s) as [[? ?]|].
Qed.

Lemma matchNodes_chars_inv l ns pos s r :
  matchNodes ((Char <$> l) ++ ns) pos s = Some r -> exists s', s = l ++ s'.
Proof.
  revert pos s r. induction l as [|c l IH]; intros pos s r.
  - by exists s.
  - cbn [fmap list_fmap app matchNodes]. destruct s as [|x s]; [done|].
    destruct (N.eqb_spec x c) as [->|]; [|done].
    destruct (matchNodes _ (S pos) s) as [r'|] eqn:Hm; [|done].
    intros _. apply IH in Hm as [s' ->]. by exists s'.
Qed.

(** The characters after the last group, up to the end of the subject. *)
Lemma matchNodes_tail post pos s r :
  matchNodes ((Char <$> post) ++ [AssertEnd]) pos s = Some r <->
  s = post /\ r = ([], length post).
Proof.
  split.
  - intros Hm. destruct (matchNodes_chars_inv _ _ _ _ _ Hm) as [s' ->].
    rewrite matchNodes_chars in Hm. destruct s' as [|x s']; [|done].
    cbn in Hm. injection Hm as <-. by rewrite app_nil_r, Nat.add_0_r.
  - intros [-> ->]. rewrite <- (app_nil_r post) at 2.
    rewrite matchNodes_chars. cbn. by rewrite Nat.add_0_r.
Qed.

Lemma greedy_first {A} lo k (cont : nat -> option A) j r :
  (lo <= j <= k)%nat -> cont j = Some r ->
  (forall i, (j < i <= k)%nat -> cont i = None) ->
  greedy lo k cont = Some r.
Proof.
  intros Hj Hr Hnone. induction k as [|k IH].
  - assert (j = 0%nat) as -> by lia. cbn. by rewrite Hr.
  - cbn [greedy]. destruct (decide (j = S k)) as [->|Hne].
    + by rewrite Hr.
    + rewrite Hnone by lia.
      destruct (Nat.leb_spec (S k) lo); [lia|].
      apply IH; [lia|]. intros i Hi. apply Hnone. lia.
Qed.

Lemma greedy_Some {A} lo k (cont : nat -> option A) r :
  (lo <= k)%nat -> greedy lo k cont = Some r ->
  exists j, (lo <= j <= k)%nat /\ cont j = Some r.
Proof.
  induction k as [|k IH]; intros Hlo; cbn [greedy].
  - destruct (cont 0%nat) eqn:H0; [|done]. intros [= ->]. exists 0%nat. split; [lia|done].
  - destruct (cont (S k)) eqn:Hk.
    + intros [= ->]. exists (S k). split; [lia|done].
    + destruct (Nat.leb_spec (S k) lo); [done|].
      intros (j & Hj & Hr)%IH; [|lia]. exists j. split; [lia|done].
Qed.

Lemma dotRun_length s : (dotRun s <= length s)%nat.
Proof.
  induction s as [|c s IH]; cbn [dotRun length]; [lia|].
  destruct (isLineTerminator c); lia.
Qed.

Lemma dotRun_app x s :
  forallb (fun c => negb (isLineTerminator c)) x = true ->
  (length x <= dotRun (x ++ s))%nat.
Proof.
  induction x as [|c x IH]; cbn [forallb app length dotRun]; [lia|].
  intros [Hc Hx]%andb_prop. apply negb_true_iff in Hc. rewrite Hc.
  specialize (IH Hx). lia.
Qed.

Lemma dotRun_take j s :
  (j <= dotRun s)%nat ->
  forallb (fun c => negb (isLineTerminator c)) (take j s) = true.
Proof.
  revert j. induction s as [|c s IH]; intros j; [by destruct j|].
  destruct j as [|j]; [done|]. cbn [dotRun take forallb].
  destruct (isLineTerminator c); [lia|]. intros Hj. cbn. apply IH. lia.
Qed.

Lemma execFrom_anchored ns pos s :
  pos <> 0%nat -> execFrom (AssertStart :: ns) pos s = None.
Proof.
  revert pos. induction s as [|c s IH]; intros pos Hpos; cbn [execFrom matchNodes].
  - by destruct pos.
  - destruct pos; [done|]. cbn [Nat.eqb]. by apply IH.
Qed.

Lemma hasNamedGroup_chars l : hasNamedGroup (Char <$> l) = false.
Proof. by induction l. Qed.

Lemma globNodes_app p q : globNodes (p ++ q) = globNodes p ++ globNodes q.
Proof. unfold globNodes. apply fmap_app. Qed.

(** What the group of a one-star glob matches against the rest of the
    subject: the subject is some non-empty [x] without line terminator
    followed by [post], and the group captures [x]. *)
Lemma matchNodes_star post pos s r :
  matchNodes (DotGroup None OneOrMore :: (Char <$> post) ++ [AssertEnd]) pos s = Some r <->
  exists x,
    s = x ++ post /\ x <> [] /\
    forallb (fun c => negb (isLineTerminator c)) x = true /\
    r = ([(None, x)], length s).
Proof.
  cbn [matchNodes minCount]. split.
  - destruct (Nat.ltb_spec (dotRun s) 1); [done|].
    intros (j & Hj & Hc)%greedy_Some; [|done].
    destruct (matchNodes _ (pos + j) (drop j s)) as [r'|] eqn:Hm; [|done].
    apply matchNodes_tail in Hm as [Hdrop ->]. cbn in Hc. injection Hc as <-.
    pose proof (dotRun_length s) as Hlen.
    exists (take j s). repeat split.
    + by rewrite <- Hdrop, take_drop.
    + intros Hnil. apply (f_equal length) in Hnil. rewrite length_take in Hnil.
      cbn in Hnil. lia.
    + apply dotRun_take. lia.
    + f_equal. rewrite <- Hdrop, length_drop. lia.
  - intros (x & -> & Hx & Hlt & ->).
    pose proof (dotRun_app x post Hlt) as Hrun.
    pose proof (dotRun_length (x ++ post)) as Hlen. rewrite length_app in Hlen.
    assert (length x <> 0%nat) by (by destruct x).
    destruct (Nat.ltb_spec (dotRun (x ++ post)) 1); [lia|].
    apply (greedy_first _ _ _ (length x)); [lia| |].
    + rewrite drop_app_length, take_app_length.
      rewrite (proj2 (matchNodes_tail post _ post _) (conj eq_refl eq_refl)).
      cbn. by rewrite length_app.
    + intros i Hi.
      destruct (matchNodes _ (pos + i) (drop i (x ++ post))) as [r'|] eqn:Hm; [|done].
      apply matchNodes_tail in Hm as [Hdrop _].
      apply (f_equal length) in Hdrop. rewrite length_drop, length_app in Hdrop. lia.
Qed.

(** A glob with exactly one star matches the subjects made of the text
    before the star, a non-empty text without line terminator, and the
    text after the star; the capture is the text in the middle. *)
Lemma match_one_star pre post s m :
  match_ s (Ast (AssertStart :: globNodes (pre ++ cu "*" :: post) ++ [AssertEnd])) = Some m ->
  includesStar pre = false -> includesStar post = false ->
  exists x,
    s = pre ++ x ++ post /\ x <> [] /\
    forallb (fun c => negb (isLineTerminator c)) x = true /\
    m = {| m_full := s; m_captures := [Some x]; m_groups := None |}.
Proof.
  intros Hm Hpre Hpost. cbn [match_] in Hm.
  rewrite globNodes_app in Hm. change (globNodes (cu "*" :: post))
    with (DotGroup None OneOrMore :: globNodes post) in Hm.
  rewrite !globNodes_no_star in Hm by done. rewrite <- !app_assoc in Hm.
  cbn [app] in Hm.
  assert (Hnamed : hasNamedGroup (AssertStart :: (Char <$> pre) ++
            DotGroup None OneOrMore :: (Char <$> post) ++ [AssertEnd]) = false).
  { unfold hasNamedGroup. cbn [existsb]. rewrite existsb_app. cbn [existsb].
    rewrite existsb_app. fold (hasNamedGroup (Char <$> pre)).
    fold (hasNamedGroup (Char <$> post)). by rewrite !hasNamedGroup_chars. }
  destruct s as [|c0 s0] eqn:Hs; cbn [execFrom] in Hm.
  - cbn [matchNodes Nat.eqb] in Hm.
    destruct (matchNodes _ 0 []) as [r|] eqn:Hr in Hm; [|done].
    destruct (matchNodes_chars_inv _ _ _ _ _ Hr) as [s' Hs'].
    symmetry in Hs'. apply app_eq_nil in Hs' as [-> ->].
    cbn [fmap list_fmap app] in Hr. apply matchNodes_star in Hr as (x & Hx & Hne & _).
    symmetry in Hx. apply app_eq_nil in Hx as [-> _]. done.
  - rewrite execFrom_anchored in Hm by done. rewrite <- Hs in *. clear Hs c0 s0.
    cbn [matchNodes Nat.eqb] in Hm.
    destruct (matchNodes _ 0 s) as [r|] eqn:Hr in Hm; [|done].
    injection Hm as <-.
    destruct (matchNodes_chars_inv _ _ _ _ _ Hr) as [s' ->].
    rewrite matchNodes_chars in Hr.
    destruct (matchNodes _ _ s') as [r'|] eqn:Hr'; [|done].
    cbn in Hr. injection Hr as <-.
    apply matchNodes_star in Hr' as (x & -> & Hne & Hlt & ->).
    exists x. repeat split; [done..|].
    unfold matchArray. rewrite Hnamed. cbn [fst snd fmap list_fmap].
    f_equal. rewrite <- length_app. apply firstn_all.
Qed.

Lemma match_one_star_intro pre post x :
  x <> [] ->
  forallb (fun c => negb (isLineTerminator c)) x = true ->
  includesStar pre = false -> includesStar post = false ->
  match_ (pre ++ x ++ post)
    (Ast (AssertStart :: globNodes (pre ++ cu "*" :: post) ++ [AssertEnd])) =
  Some {| m_full := pre ++ x ++ post; m_captures := [Some x]; m_groups := None |}.
Proof.
  intros Hne Hlt Hpre Hpost. cbn [match_].
  rewrite globNodes_app. change (globNodes (cu "*" :: post))
    with (DotGroup None OneOrMore :: globNodes post).
  rewrite !globNodes_no_star by done. rewrite <- !app_assoc. cbn [app].
  assert (Hnamed : hasNamedGroup (AssertStart :: (Char <$> pre) ++
            DotGroup None OneOrMore :: (Char <$> post) ++ [AssertEnd]) = false).
  { unfold hasNamedGroup. cbn [existsb]. rewrite existsb_app. cbn [existsb].
    rewrite existsb_app. fold (hasNamedGroup (Char <$> pre)).
    fold (hasNamedGroup (Char <$> post)). by rewrite !hasNamedGroup_chars. }
  assert (Hr : matchNodes (AssertStart :: (Char <$> pre) ++
                 DotGroup None OneOrMore :: (Char <$> post) ++ [AssertEnd])
                 0 (pre ++ x ++ post) =
               Some ([(None, x)], length (pre ++ x ++ post))).
  { cbn [matchNodes Nat.eqb]. rewrite matchNodes_chars.
    rewrite (proj2 (matchNodes_star post _ (x ++ post)
                      ([(None, x)], length (x ++ post)))).
    - cbn. by rewrite (length_app pre).
    - by exists x. }
  destruct (pre ++ x ++ post) as [|c0 s0] eqn:Hs.
  - apply app_eq_nil in Hs as [_ Hs]. by apply app_eq_nil in Hs as [-> _].
  - rewrite <- Hs in *. clear Hs. 
    assert (Hex : forall s, execFrom (AssertStart :: (Char <$> pre) ++
                 DotGroup None OneOrMore :: (Char <$> post) ++ [AssertEnd]) 0 s =
                 match matchNodes (AssertStart :: (Char <$> pre) ++
                 DotGroup None OneOrMore :: (Char <$> post) ++ [AssertEnd]) 0 s with
                 | Some r => Some (matchArray (AssertStart :: (Char <$> pre) ++
                     DotGroup None OneOrMore :: (Char <$> post) ++ [AssertEnd]) s r)
                 | None => match s with [] => None | _ :: s' =>
                     execFrom (AssertStart :: (Char <$> pre) ++
                     DotGroup None OneOrMore :: (Char <$> post) ++ [AssertEnd]) 1 s' end
                 end) by (by intros []).
    rewrite Hex, Hr. unfold matchArray. rewrite Hnamed. cbn [fst snd fmap list_fmap].
    do 2 f_equal. apply firstn_all.
Qed.

(** An anchored expression is only tried at index 0. *)
Lemma execFrom_anchored_0 ns s :
  execFrom (AssertStart :: ns) 0 s =
  matchArray (AssertStart :: ns) s <$> matchNodes (AssertStart :: ns) 0 s.
Proof.
  destruct s as [|c s]; cbn [execFrom];
    destruct (matchNodes (AssertStart :: ns) 0 _); try done.
  by rewrite execFrom_anchored.
Qed.

(** A pattern without star matches its own text and nothing else. *)
Lemma match_exact p s :
  includesStar p = false ->
  is_Some (match_ s (Ast (AssertStart :: globNodes p ++ [AssertEnd]))) <-> s = p.
Proof.
  intros Hp. cbn [match_]. rewrite execFrom_anchored_0, globNodes_no_star by done.
  cbn [matchNodes Nat.eqb]. split.
  - intros [m Hm].
    destruct (matchNodes _ 0 s) as [r|] eqn:Hr; [|done].
    by apply matchNodes_tail in Hr as [-> _].
  - intros ->.
    rewrite (proj2 (matchNodes_tail p 0 p ([], length p)) (conj eq_refl eq_refl)).
    by eexists.
Qed.

(** [_register] on a string pattern appends the route of the pattern. *)
Lemma _register_string (Handler : Type) (r : InteractionRouter.t Handler)
    (p : string) (h : Handler) (o : bool) :
  _register r (PString (js p)) (Fn h) o =
  inr {| _routes := _routes r ++ [stringRoute p h o]; _fallback := _fallback r |}.
Proof. unfold _register. by rewrite compile_string. Qed.

(** Two stars: the first group takes as much as it can. *)
Example match_two_stars_greedy :
  match_ (js "a_1_2_3") (Ast (AssertStart :: globNodes (js "a_*_*") ++ [AssertEnd])) =
  Some {| m_full := js "a_1_2_3";
          m_captures := [Some (js "1_2"); Some (js "3")];
          m_groups := None |}.
Proof. vm_compute. reflexivity. Qed.

(** C2. A string pattern with a [*] compiles to the anchored sequence of
    its characters in which every [*] is a capturing group of one or more
    characters, matched greedily. With one [*], the pattern matches exactly
    the identifiers made of the text before the star, a non-empty text
    (without line terminator, which the dot does not match) and the text
    after the star, and the capture is the text in the middle. For the
    route "a_*_b": "a_X_b" is dispatched to the handler with [wildcard] =
    "X"; "a__b" and "a_b" do not match the route. *)
Theorem C2_glob_compilation :
  (forall p,
     includesStar p = true ->
     compile (PString p) = inr (Ast (AssertStart :: globNodes p ++ [AssertEnd]))) /\
  (forall pre post,
     includesStar pre = false -> includesStar post = false ->
     exists re,
       compile (PString (pre ++ cu "*" :: post)) = inr re /\
       (forall x,
          x <> [] ->
          forallb (fun c => negb (isLineTerminator c)) x = true ->
          match_ (pre ++ x ++ post) re =
          Some {| m_full := pre ++ x ++ post; m_captures := [Some x]; m_groups := None |}) /\
       (forall s m,
          match_ s re = Some m ->
          exists x,
            s = pre ++ x ++ post /\ x <> [] /\
            forallb (fun c => negb (isLineTerminator c)) x = true /\
            m_captures m = [Some x])) /\
  (forall (Handler : Type) (h : Handler),
     exists r,
       on constructor (PString (js "a_*_b")) (Fn h) = inr r /\
       handle r {| customId := Some (js "a_X_b") |} =
         (r, [CallHandler h {| customId := Some (js "a_X_b") |}
                [(js "wildcard", Some (js "X"))] (_routes r)], true) /\
       handle r {| customId := Some (js "a__b") |} = (r, [], false) /\
       handle r {| customId := Some (js "a_b") |} = (r, [], false)).
Proof.
  split; [|split].
  - intros p _. apply compile_string.
  - intros pre post Hpre Hpost. eexists. split; [apply compile_string|]. split.
    + intros x Hne Hlt. by apply match_one_star_intro.
    + intros s m Hm.
      destruct (match_one_star pre post s m Hm Hpre Hpost) as (x & ? & ? & ? & ->).
      by exists x.
  - intros Handler h. eexists. split; [reflexivity|].
    split; [|split]; vm_compute; reflexivity.
Qed.

Lemma C2_glob_compilation_witness :
  compile (PString (js "a_*_b")) =
  inr (Ast [AssertStart; Char (cu "a"); Char (cu "_"); DotGroup None OneOrMore;
            Char (cu "_"); Char (cu "b"); AssertEnd]).
Proof.
  exact (proj1 C2_glob_compilation (js "a_*_b") eq_refl).
Defined.

(** ** The [wildcard] key of the params *)

Lemma getProp_setProp_eq (params : Params) key value :
  getProp (setProp params key value) key = value.
Proof.
  induction params as [|[k v] params IH]; cbn.
  - by rewrite bool_decide_eq_true_2.
  - destruct (bool_decide (k = key)) eqn:Hk; cbn; by rewrite Hk.
Qed.

Lemma getProp_setProp_ne (params : Params) key key' value :
  key <> key' ->
  getProp (setProp params key value) key' = getProp params key'.
Proof.
  intros Hne. induction params as [|[k v] params IH]; cbn.
  - by rewrite bool_decide_eq_false_2.
  - destruct (bool_decide (k = key)) eqn:Hk; cbn.
    + apply bool_decide_eq_true_1 in Hk as ->.
      by rewrite !bool_decide_eq_false_2.
    + by rewrite IH.
Qed.

Lemma getProp_missing (params : Params) key :
  key ∉ params.*1 -> getProp params key = None.
Proof.
  induction params as [|[k v] params IH]; cbn; [done|].
  intros [Hk Hrest]%not_elem_of_cons.
  rewrite bool_decide_eq_false_2 by done. by apply IH.
Qed.

(** When the first capture is defined and the named groups have no key
    [wildcard], the params carry the first capture under [wildcard] and the
    named groups as they were. This holds for every match array, so for
    every regular expression a route is registered with. *)
Lemma paramsOf_adds_wildcard m w :
  m_captures m !! 0%nat = Some (Some w) ->
  js "wildcard" ∉ (default [] (m_groups m)).*1 ->
  getProp (paramsOf m) (js "wildcard") = Some w /\
  forall key, key <> js "wildcard" ->
    getProp (paramsOf m) key = getProp (default [] (m_groups m)) key.
Proof.
  intros Hcap Hkey. unfold paramsOf. rewrite Hcap.
  rewrite (getProp_missing _ _ Hkey). cbn [truthy negb]. split.
  - apply getProp_setProp_eq.
  - intros key Hne. by apply getProp_setProp_ne.
Qed.

(** A named group [wildcard] that captured a non-empty text is kept. *)
Lemma paramsOf_keeps_nonempty_wildcard m :
  truthy (getProp (default [] (m_groups m)) (js "wildcard")) = true ->
  paramsOf m = default [] (m_groups m).
Proof.
  intros Htruthy. unfold paramsOf. rewrite Htruthy.
  by destruct (m_captures m !! 0%nat) as [[?|]|].
Qed.

(** C10. A regular expression whose first group is unnamed and whose
    second group is named [wildcard]: an anchored [(.+)], an underscore,
    then the group [wildcard] of zero or more characters. Dispatched on
    "12_", the named group [wildcard] exists and captured the empty text,
    and the handler receives [wildcard] = "12", the text of the first
    positional capture, in its place. *)
Theorem C10_empty_named_wildcard_is_overwritten :
  forall (Handler : Type) (h : Handler),
    exists r,
      on constructor
        (PRegExp (Ast [AssertStart; DotGroup None OneOrMore; Char (cu "_");
                       DotGroup (Some (js "wildcard")) ZeroOrMore; AssertEnd]))
        (Fn h) = inr r /\
      match_ (js "12_")
        (Ast [AssertStart; DotGroup None OneOrMore; Char (cu "_");
              DotGroup (Some (js "wildcard")) ZeroOrMore; AssertEnd]) =
        Some {| m_full := js "12_";
                m_captures := [Some (js "12"); Some []];
                m_groups := Some [(js "wildcard", Some [])] |} /\
      handle r {| customId := Some (js "12_") |} =
        (r, [CallHandler h {| customId := Some (js "12_") |}
               [(js "wildcard", Some (js "12"))] (_routes r)], true).
Proof.
  intros Handler h. eexists. split; [reflexivity|].
  split; vm_compute; reflexivity.
Qed.

End RouterFacts.

(** ** Cooldowns *)
Module CooldownFacts.
Import CooldownManager.

(** The store after the pass of [sweep] over a list of entries. *)
Lemma sweep_fold_store (now : Z) (l : list (jsstring * Z)) (m : CooldownManager.t) (n : nat) :
  _store (foldl (sweepStep now) (m, n) l).1 =
  foldl (fun st (kv : jsstring * Z) => if now >=? kv.2 then delete kv.1 st else st)
        (_store m) l.
Proof.
  revert m n. induction l as [|kv l IH]; intros m n; [done|].
  cbn [foldl]. unfold sweepStep at 2.
  destruct (now >=? kv.2); cbn [fst snd]; by rewrite IH.
Qed.

Lemma sweep_fold_prefix (now : Z) (l : list (jsstring * Z)) (m : CooldownManager.t) (n : nat) :
  _prefix (foldl (sweepStep now) (m, n) l).1 = _prefix m.
Proof.
  revert m n. induction l as [|kv l IH]; intros m n; [done|].
  cbn [foldl]. unfold sweepStep at 2.
  destruct (now >=? kv.2); cbn [fst snd]; by rewrite IH.
Qed.

(** The counter after the pass: one more for every expired entry. *)
Lemma sweep_fold_removed (now : Z) (l : list (jsstring * Z)) (m : CooldownManager.t) (n : nat) :
  (foldl (sweepStep now) (m, n) l).2 =
  (n + length (filter (fun kv : jsstring * Z => (kv.2 <= now)%Z) l))%nat.
Proof.
  revert m n. induction l as [|kv l IH]; intros m n.
  - cbn. lia.
  - cbn [foldl]. unfold sweepStep at 2. rewrite filter_cons.
    destruct (Z.geb_spec now kv.2) as [Hge|Hlt]; cbn [fst snd].
    + rewrite IH, decide_True by lia. cbn [length]. lia.
    + rewrite IH, decide_False by lia. done.
Qed.

(** Deleting the expired keys that a list of entries names. *)
Lemma sweep_fold_lookup (now : Z) (l : list (jsstring * Z)) (st : gmap jsstring Z)
    (k : jsstring) :
  foldl (fun st (kv : jsstring * Z) => if now >=? kv.2 then delete kv.1 st else st)
        st l !! k =
  if decide (k ∈ (filter (fun kv : jsstring * Z => kv.2 <= now) l).*1)
  then None else st !! k.
Proof.
  revert st. induction l as [|kv l IH]; intros st.
  - cbn. by rewrite decide_False by apply not_elem_of_nil.
  - cbn [foldl]. rewrite IH, filter_cons.
    destruct (Z.geb_spec now kv.2) as [Hge|Hlt].
    + rewrite (decide_True (P := kv.2 <= now)) by lia. rewrite fmap_cons.
      destruct (decide (k ∈ (filter _ l).*1)) as [Hin|Hnin].
      * rewrite decide_True; [done|]. apply elem_of_cons. by right.
      * destruct (decide (k = kv.1)) as [->|Hne].
        -- rewrite decide_True by (apply elem_of_cons; by left). apply lookup_delete_eq.
        -- rewrite decide_False; [by apply lookup_delete_ne|].
           rewrite elem_of_cons. by intros [?|?].
    + by rewrite (decide_False (P := kv.2 <= now)) by lia.
Qed.

Lemma expired_key_of_store (now : Z) (s : gmap jsstring Z) (k : jsstring) :
  k ∈ (filter (fun kv : jsstring * Z => kv.2 <= now) (map_to_list s)).*1 <->
  exists e, s !! k = Some e /\ e <= now.
Proof.
  rewrite list_elem_of_fmap. split.
  - intros ([k' e] & -> & [He Hin]%list_elem_of_filter).
    apply elem_of_map_to_list in Hin. by exists e.
  - intros (e & Hk & He). exists (k, e). split; [done|].
    apply list_elem_of_filter. split; [done|]. by apply elem_of_map_to_list.
Qed.

Lemma sweep_store m now :
  _store (sweep m now).1 = filter (fun kv : jsstring * Z => now < kv.2) (_store m).
Proof.
  unfold sweep, _entries. rewrite sweep_fold_store.
  apply map_eq. intros k. rewrite sweep_fold_lookup.
  destruct (decide _) as [Hin|Hnin].
  - apply expired_key_of_store in Hin as (e & Hk & He).
    symmetry. apply map_lookup_filter_None. right. intros e' Hk'. cbn. 
    assert (e' = e) by congruence. lia.
  - destruct (_store m !! k) as [e|] eqn:Hk.
    + symmetry. apply map_lookup_filter_Some. split; [done|]. cbn.
      destruct (decide (e <= now)) as [He|]; [|lia].
      exfalso. apply Hnin, expired_key_of_store. by exists e.
    + symmetry. apply map_lookup_filter_None. by left.
Qed.

Lemma sweep_removed m now :
  (sweep m now).2 = size (filter (fun kv : jsstring * Z => kv.2 <= now) (_store m)).
Proof.
  unfold sweep, _entries. rewrite sweep_fold_removed. cbn [Nat.add].
  rewrite map_filter_alt, map_size_list_to_map; [done|].
  eapply NoDup_fmap_fst.
  - intros k e1 e2 [_ H1%elem_of_map_to_list]%list_elem_of_filter
      [_ H2%elem_of_map_to_list]%list_elem_of_filter. congruence.
  - apply NoDup_filter, NoDup_map_to_list.
Qed.

(** C5. [sweep] leaves exactly the entries whose expiry is after [now]:
    an entry is in the store afterwards if and only if it was there with
    an expiry greater than [now]; every entry with expiry at most [now] is
    gone; the number returned is the number of entries with expiry at most
    [now], and the store has that many entries less. *)
Theorem C5_sweep_removes_exactly_expired :
  forall (m : CooldownManager.t) (now : Z),
    (forall k e,
       _store (sweep m now).1 !! k = Some e <-> _store m !! k = Some e /\ now < e) /\
    (forall k e,
       _store m !! k = Some e -> e <= now -> _store (sweep m now).1 !! k = None) /\
    (sweep m now).2 =
      size (filter (fun kv : jsstring * Z => kv.2 <= now) (_store m)) /\
    size (_store (sweep m now).1) = (size (_store m) - (sweep m now).2)%nat /\
    _prefix (sweep m now).1 = _prefix m.
Proof.
  intros m now. rewrite sweep_store, sweep_removed.
  split; [|split; [|split; [|split]]].
  - intros k e. by rewrite map_lookup_filter_Some.
  - intros k e Hk He. apply map_lookup_filter_None. right.
    intros e' Hk'. cbn. assert (e' = e) by congruence. lia.
  - done.
  - pose proof (map_filter_union_complement
                  (fun kv : jsstring * Z => kv.2 <= now) (_store m)) as Hu.
    pose proof (map_disjoint_filter_complement
                  (fun kv : jsstring * Z => kv.2 <= now) (_store m)) as Hd.
    apply map_size_disj_union in Hd. rewrite Hu in Hd.
    assert (Heq : filter (fun kv : jsstring * Z => now < kv.2) (_store m) =
                  filter (fun kv : jsstring * Z => ¬ kv.2 <= now) (_store m)).
    { apply map_filter_ext. intros k e _. cbn. lia. }
    rewrite Heq. lia.
  - unfold sweep. apply sweep_fold_prefix.
Qed.

(** ** [check], [set] and [use] *)

(** [check] reports a cooldown exactly for a stored, non-zero expiry that
    is after [now]. *)
Lemma check_onCooldown m command entityId now :
  onCooldown (check m command entityId now) = true <->
  exists e, _store m !! _key m command entityId = Some e /\ e <> 0 /\ now < e.
Proof.
  unfold check, _get. destruct (_store m !! _key m command entityId) as [e|].
  - destruct (Z.eqb_spec e 0) as [->|Hne]; cbn [orb].
    + split; [done|]. by intros (e & [= <-] & ? & _).
    + destruct (Z.geb_spec now e); cbn [onCooldown].
      * split; [done|]. intros (e' & [= <-] & _ & ?). lia.
      * split; [|done]. intros _. exists e. repeat split; [done|lia].
  - split; [done|]. by intros (e & ? & _).
Qed.

Lemma check_active m command entityId now e :
  0 <= now ->
  _store m !! _key m command entityId = Some e -> now < e ->
  check m command entityId now =
  {| onCooldown := true; remaining := e - now; expiry := Some e |}.
Proof.
  intros Hnow Hk He. unfold check, _get. rewrite Hk.
  destruct (Z.eqb_spec e 0); [lia|]. destruct (Z.geb_spec now e); [lia|]. done.
Qed.

Lemma check_idle m command entityId now :
  ~ (exists e, _store m !! _key m command entityId = Some e /\ now < e) ->
  check m command entityId now =
  {| onCooldown := false; remaining := 0; expiry := None |}.
Proof.
  intros Hno. unfold check, _get.
  destruct (_store m !! _key m command entityId) as [e|]; [|done].
  destruct (Z.eqb_spec e 0); [done|]. destruct (Z.geb_spec now e); [done|].
  destruct Hno. exists e. split; [done|lia].
Qed.

Lemma active_or_idle (st : gmap jsstring Z) (key : jsstring) (now : Z) :
  (exists e, st !! key = Some e /\ now < e) \/
  ~ (exists e, st !! key = Some e /\ now < e).
Proof.
  destruct (st !! key) as [e|].
  - destruct (decide (now < e)) as [Hlt|Hge].
    + left. by exists e.
    + right. intros (e' & [= <-] & ?). done.
  - right. by intros (e & ? & _).
Qed.

Lemma use_active m command entityId durationMs nowCheck nowSet e :
  0 <= nowCheck ->
  _store m !! _key m command entityId = Some e -> nowCheck < e ->
  use m command entityId durationMs nowCheck nowSet =
  Threw (ForgeError COOLDOWN_ACTIVE (Some (e - nowCheck))) m.
Proof.
  intros Hnow Hk He. unfold use. by rewrite (check_active _ _ _ _ e).
Qed.

Lemma use_idle m command entityId durationMs nowCheck nowSet :
  ~ (exists e, _store m !! _key m command entityId = Some e /\ nowCheck < e) ->
  use m command entityId durationMs nowCheck nowSet =
  if durationMs <=? 0
  then Threw (ForgeError COOLDOWN_INVALID_DURATION None) m
  else Returned () (_set m (_key m command entityId) (nowSet + durationMs)).
Proof.
  intros Hno. unfold use, set. rewrite check_idle by done. cbn [onCooldown].
  by destruct (durationMs <=? 0).
Qed.

(** C3, as the code has it. For a clock that reads [nowCheck >= 0] in
    [check]: [use] throws COOLDOWN_ACTIVE, with the remaining time, exactly
    when the stored expiry of the key is greater than [nowCheck], and the
    store is then unchanged. Otherwise a positive duration stores the
    expiry [nowSet + durationMs], [nowSet] being the clock as [set] reads
    it, and [use] returns; a duration that is not positive throws
    COOLDOWN_INVALID_DURATION and leaves the store unchanged. After a
    successful [use], a second [use] of the key before the stored expiry
    throws COOLDOWN_ACTIVE, and one at or after the expiry succeeds. *)
Theorem C3_use_checks_then_sets :
  forall (m : CooldownManager.t) (command entityId : jsstring)
         (durationMs nowCheck nowSet : Z),
    0 <= nowCheck ->
    let key := _key m command entityId in
    let active := exists e, _store m !! key = Some e /\ nowCheck < e in
    (forall e, _store m !! key = Some e -> nowCheck < e ->
       use m command entityId durationMs nowCheck nowSet =
       Threw (ForgeError COOLDOWN_ACTIVE (Some (e - nowCheck))) m) /\
    (active <->
     exists extra m',
       use m command entityId durationMs nowCheck nowSet =
       Threw (ForgeError COOLDOWN_ACTIVE extra) m') /\
    (~ active -> 0 < durationMs ->
       use m command entityId durationMs nowCheck nowSet =
       Returned () (_set m key (nowSet + durationMs))) /\
    (~ active -> durationMs <= 0 ->
       use m command entityId durationMs nowCheck nowSet =
       Threw (ForgeError COOLDOWN_INVALID_DURATION None) m) /\
    (~ active -> 0 < durationMs ->
       let m1 := _set m key (nowSet + durationMs) in
       forall durationMs' nowCheck' nowSet',
         0 <= nowCheck' ->
         (nowCheck' < nowSet + durationMs ->
            use m1 command entityId durationMs' nowCheck' nowSet' =
            Threw (ForgeError COOLDOWN_ACTIVE
                     (Some (nowSet + durationMs - nowCheck'))) m1) /\
         (nowSet + durationMs <= nowCheck' -> 0 < durationMs' ->
            use m1 command entityId durationMs' nowCheck' nowSet' =
            Returned () (_set m1 key (nowSet' + durationMs')))).
Proof.
  intros m command entityId durationMs nowCheck nowSet Hnow key active.
  split; [|split; [|split; [|split]]].
  - intros e Hk He. by apply use_active.
  - split.
    + intros (e & Hk & He). eexists _, _. by apply use_active.
    + intros (extra & m' & Huse).
      destruct (active_or_idle (_store m) key nowCheck) as [?|Hno]; [done|].
      rewrite use_idle in Huse by done. by destruct (durationMs <=? 0).
  - intros Hno Hd. rewrite use_idle by done.
    by destruct (Z.leb_spec durationMs 0); [lia|].
  - intros Hno Hd. rewrite use_idle by done.
    by destruct (Z.leb_spec durationMs 0); [|lia].
  - intros Hno Hd m1 durationMs' nowCheck' nowSet' Hnow'.
    assert (Hk1 : _store m1 !! _key m1 command entityId = Some (nowSet + durationMs))
      by apply lookup_insert_eq.
    split.
    + intros Hlt. by apply use_active.
    + intros Hge Hd'. rewrite use_idle.
      * by destruct (Z.leb_spec durationMs' 0); [lia|].
      * intros (e & He & Hlt). rewrite Hk1 in He. injection He as <-. lia.
Qed.

Lemma C3_use_checks_then_sets_witness :
  use (constructor {| store := None; keyPrefix := None |})
      (js "ban") (js "u1") 1000 5000 5000 =
  Returned ()
    (_set (constructor {| store := None; keyPrefix := None |})
          (_key (constructor {| store := None; keyPrefix := None |}) (js "ban") (js "u1"))
          (5000 + 1000)).
Proof.
  refine (proj1 (proj2 (proj2
            (C3_use_checks_then_sets
               (constructor {| store := None; keyPrefix := None |})
               (js "ban") (js "u1") 1000 5000 5000 _))) _ _).
  - lia.
  - intros (e & He & _). cbn in He. by rewrite lookup_empty in He.
  - lia.
Defined.

(** The claim as worded, "otherwise it stores expiry = now + duration and
    returns normally", fails for a duration that is not positive: on an
    empty store nothing is on cooldown, and [use] with duration 0 throws
    COOLDOWN_INVALID_DURATION without storing anything. *)
Lemma C3_use_nonpositive_duration_counterexample :
  _get (constructor {| store := None; keyPrefix := None |})
       (_key (constructor {| store := None; keyPrefix := None |}) (js "ban") (js "u1"))
    = None /\
  use (constructor {| store := None; keyPrefix := None |})
      (js "ban") (js "u1") 0 1000 1000 =
    Threw (ForgeError COOLDOWN_INVALID_DURATION None)
      (constructor {| store := None; keyPrefix := None |}) /\
  use (constructor {| store := None; keyPrefix := None |})
      (js "ban") (js "u1") 0 1000 1000 <>
    Returned ()
      (_set (constructor {| store := None; keyPrefix := None |})
         (_key (constructor {| store := None; keyPrefix := None |}) (js "ban") (js "u1"))
         (1000 + 0)).
Proof.
  assert (Hget : _get (constructor {| store := None; keyPrefix := None |})
                   (_key (constructor {| store := None; keyPrefix := None |})
                      (js "ban") (js "u1")) = None) by apply lookup_empty.
  assert (Huse : use (constructor {| store := None; keyPrefix := None |})
                   (js "ban") (js "u1") 0 1000 1000 =
                 Threw (ForgeError COOLDOWN_INVALID_DURATION None)
                   (constructor {| store := None; keyPrefix := None |})).
  { unfold use, check. by rewrite Hget. }
  split; [done|]. split; [done|]. by rewrite Huse.
Qed.

End CooldownFacts.

(** ** Paginator *)
Module PaginatorFacts.
Import Paginator.

Section Pages.
Context {Page : Type}.
Implicit Types (p : Paginator.t Page).

Lemma _update_current p : _current (state_of (_update p)) = _current p.
Proof.
  unfold _update. destruct (_buildPayload p); [done|].
  by destruct (_message p).
Qed.

Lemma _update_pages p : _pages (state_of (_update p)) = _pages p.
Proof.
  unfold _update. destruct (_buildPayload p); [done|].
  by destruct (_message p).
Qed.

Lemma _update_not_invalid_page p extra s :
  _update p <> Threw (ForgeError PAGINATOR_INVALID_PAGE extra) s.
Proof.
  unfold _update, _buildPayload.
  destruct (pageAt (_pages p) (_current p)); [|done].
  by destruct (_message p).
Qed.

Lemma pageAt_in_range (pages : list Page) i :
  0 <= i < Z.of_nat (length pages) -> is_Some (pageAt pages i).
Proof.
  intros Hi. unfold pageAt. destruct (Z.ltb_spec i 0); [lia|].
  apply lookup_lt_is_Some. lia.
Qed.

(** With a message on display, an update at a cursor in range returns. *)
Lemma _update_returns p msg :
  _message p = Some msg ->
  0 <= _current p < Z.of_nat (length (_pages p)) ->
  exists p', _update p = Returned () p'.
Proof.
  intros Hmsg Hcur. unfold _update, _buildPayload.
  destruct (pageAt_in_range (_pages p) (_current p) Hcur) as [pg ->].
  rewrite Hmsg. by eexists.
Qed.

End Pages.

(** C7. [goTo] throws PAGINATOR_INVALID_PAGE exactly for an index outside
    of [0, N - 1], the state being unchanged; for an index in range the
    cursor becomes the index (and with a message on display the call
    returns). The buttons clamp: "next" sets the cursor to
    [min (N - 1) (cursor + 1)], so at [N - 1] it stays at [N - 1], and
    "prev" sets it to [max 0 (cursor - 1)]. *)
Theorem C7_goTo_and_navigation :
  forall (Page : Type) (p : Paginator.t Page),
    let N := Z.of_nat (length (_pages p)) in
    (forall index,
       (index < 0 \/ N <= index) <->
       exists extra s, goTo p index = Threw (ForgeError PAGINATOR_INVALID_PAGE extra) s) /\
    (forall index,
       index < 0 \/ N <= index ->
       goTo p index = Threw (ForgeError PAGINATOR_INVALID_PAGE None) p) /\
    (forall index,
       0 <= index < N ->
       _current (state_of (goTo p index)) = index /\
       (forall msg, _message p = Some msg -> exists p', goTo p index = Returned () p')) /\
    _current (state_of (onCollect p NAV_ID_NEXT)) = Z.min (N - 1) (_current p + 1) /\
    (_current p = N - 1 -> _current (state_of (onCollect p NAV_ID_NEXT)) = N - 1) /\
    _current (state_of (onCollect p NAV_ID_PREV)) = Z.max 0 (_current p - 1).
Proof.
  intros Page p N.
  assert (Hout : forall index, index < 0 \/ N <= index ->
            goTo p index = Threw (ForgeError PAGINATOR_INVALID_PAGE None) p).
  { intros index Hout. unfold goTo. fold N.
    destruct (Z.ltb_spec index 0); [done|].
    destruct (Z.geb_spec index N); [done|lia]. }
  assert (Hin : forall index, 0 <= index < N ->
            goTo p index = _update (setCurrent p index)).
  { intros index Hi. unfold goTo. fold N.
    destruct (Z.ltb_spec index 0); [lia|].
    destruct (Z.geb_spec index N); [lia|done]. }
  split; [|split; [|split; [|split; [|split]]]].
  - intros index. split.
    + intros Ho. eexists _, _. by apply Hout.
    + intros (extra & s & Hgo).
      destruct (decide (0 <= index < N)) as [Hi|Hi]; [|lia].
      rewrite Hin in Hgo by done. by apply _update_not_invalid_page in Hgo.
  - exact Hout.
  - intros index Hi. rewrite Hin by done. split.
    + by rewrite _update_current.
    + intros msg Hmsg. by apply (_update_returns _ msg).
  - unfold onCollect. rewrite bool_decide_eq_false_2 by (vm_compute; discriminate).
    rewrite bool_decide_eq_false_2 by (vm_compute; discriminate).
    rewrite bool_decide_eq_true_2 by done. by rewrite _update_current.
  - intros Hlast. unfold onCollect.
    rewrite bool_decide_eq_false_2 by (vm_compute; discriminate).
    rewrite bool_decide_eq_false_2 by (vm_compute; discriminate).
    rewrite bool_decide_eq_true_2 by done. rewrite _update_current. cbn. fold N. lia.
  - unfold onCollect. rewrite bool_decide_eq_false_2 by (vm_compute; discriminate).
    rewrite bool_decide_eq_true_2 by done. by rewrite _update_current.
Qed.

Lemma C7_goTo_and_navigation_witness :
  goTo (ofPages [10; 20; 30]%nat) 3 =
    Threw (ForgeError PAGINATOR_INVALID_PAGE None) (ofPages [10; 20; 30]%nat) /\
  goTo (ofPages [10; 20; 30]%nat) (-1) =
    Threw (ForgeError PAGINATOR_INVALID_PAGE None) (ofPages [10; 20; 30]%nat) /\
  _current (state_of (goTo (ofPages [10; 20; 30]%nat) 2)) = 2 /\
  _current (state_of (onCollect (setCurrent (ofPages [10; 20; 30]%nat) 2) NAV_ID_NEXT)) = 2.
Proof.
  split; [|split; [|split]].
  - refine (proj1 (proj2 (C7_goTo_and_navigation nat (ofPages [10; 20; 30]%nat))) 3 _).
    right. cbn. lia.
  - refine (proj1 (proj2 (C7_goTo_and_navigation nat (ofPages [10; 20; 30]%nat))) (-1) _).
    left. lia.
  - refine (proj1 (proj1 (proj2 (proj2
              (C7_goTo_and_navigation nat (ofPages [10; 20; 30]%nat)))) 2 _)).
    cbn. lia.
  - exact (proj1 (proj2 (proj2 (proj2 (proj2
              (C7_goTo_and_navigation nat (setCurrent (ofPages [10; 20; 30]%nat) 2))))))
              eq_refl).
Defined.

(** The constructor accepts every non-empty page list, whatever the
    starting index. *)
Lemma constructor_accepts (Page : Type) (pages : list Page) options :
  pages <> [] ->
  exists p,
    constructor (Some pages) options = inr p /\
    _pages p = pages /\ _current p = default 0 (startPage options).
Proof.
  intros Hne. destruct pages as [|pg pages]; [done|]. by eexists.
Qed.

Lemma constructor_without_options (Page : Type) (pg : Page) pages :
  constructor (Some (pg :: pages)) noOptions = inr (ofPages (pg :: pages)).
Proof. reflexivity. Qed.

(** C8. Without pages (no argument, or an empty list) the constructor
    throws PAGINATOR_NO_PAGES. The starting index is not checked: with two
    pages and [startPage] 5 the constructor returns a paginator whose
    cursor is 5, an index that [goTo] refuses on the same paginator, and
    [reply] then fails on the missing page. *)
Theorem C8_constructor_start_page_unchecked :
  forall (Page : Type) (a b : Page),
    (forall options,
       constructor (Page := Page) None options = inl (ForgeError PAGINATOR_NO_PAGES None) /\
       constructor (Page := Page) (Some []) options =
         inl (ForgeError PAGINATOR_NO_PAGES None)) /\
    exists p,
      constructor (Some [a; b])
        {| startPage := Some 5; timeout := None; showPageCount := None;
           ephemeral := None; showStop := None; userId := None |} = inr p /\
      _current p = 5 /\
      goTo p 5 = Threw (ForgeError PAGINATOR_INVALID_PAGE None) p /\
      forall user, exists p', reply p user = Threw TypeError p'.
Proof.
  intros Page a b. split; [done|].
  eexists. split; [reflexivity|]. split; [reflexivity|]. split; [reflexivity|].
  intros user. by eexists.
Qed.

End PaginatorFacts.

(** ** Confirmation sessions *)
Module ConfirmationFacts.
Import ConfirmationManager.


Lemma ask_ids interactionUserId nonce o :
  yesId (ask interactionUserId nonce o) = js "forge_confirm_yes_" ++ nonce /\
  noId (ask interactionUserId nonce o) = js "forge_confirm_no_" ++ nonce.
Proof. split; reflexivity. Qed.

(** An ended collector: the listener is gone and [stop] returns at once. *)
Lemma dispatch_ended s ev r : endReason s = Some r -> dispatch s ev = s.
Proof.
  intros He. destruct ev; cbn; unfold deliver, stop; by rewrite He.
Qed.

Lemma run_ended s evs r : endReason s = Some r -> run s evs = s.
Proof.
  intros He. induction evs as [|ev evs IH]; [done|].
  unfold run in *. cbn [foldl]. by rewrite (dispatch_ended s ev r).
Qed.

Lemma run_cons s ev evs : run s (ev :: evs) = run (dispatch s ev) evs.
Proof. reflexivity. Qed.

(** *** The filter stage of a turn *)

Lemma notify_fold_fields users : forall s,
  owner (foldl notify s users) = owner s /\
  yesId (foldl notify s users) = yesId s /\
  noId (foldl notify s users) = noId s /\
  opts (foldl notify s users) = opts s /\
  collectorMax (foldl notify s users) = collectorMax s /\
  total (foldl notify s users) = total s /\
  endReason (foldl notify s users) = endReason s /\
  promise (foldl notify s users) = promise s /\
  resolveCalls (foldl notify s users) = resolveCalls s /\
  rejectCalls (foldl notify s users) = rejectCalls s /\
  message (foldl notify s users) = message s /\
  notices (foldl notify s users) = notices s ++ users.
Proof.
  induction users as [|u users IH]; intros s; cbn [foldl].
  - by rewrite app_nil_r.
  - destruct (IH (notify s u)) as (-> & -> & -> & -> & -> & -> & -> & -> & -> & -> & -> & ->).
    cbn. by rewrite <- app_assoc.
Qed.

(** The filter is called for every press of the turn; it tells the users
    who are not the owner, and passes the qualifying presses. *)
Lemma filter_fold batch : forall acc s,
  foldl handleCollect_filter (acc, s) batch =
  (acc ++ ((fun click => (click.2, qualifying (owner s) (yesId s) (noId s) click))
             <$> batch),
   foldl notify s (others (owner s) batch)).
Proof.
  induction batch as [|[u c] batch IH]; intros acc s.
  - cbn. by rewrite app_nil_r.
  - cbn [foldl fmap list_fmap]. unfold handleCollect_filter at 2, filter.
    cbn [fst snd]. unfold others. cbn [List.filter fst snd].
    destruct (bool_decide (u = owner s)) eqn:Hu; cbn [negb].
    + rewrite IH, <- app_assoc. unfold qualifying, others. cbn [fst snd].
      by rewrite Hu.
    + rewrite IH, <- app_assoc. cbn [fmap list_fmap fst foldl].
      unfold qualifying, others. cbn [fst snd andb owner yesId noId notify].
      by rewrite Hu.
Qed.

Lemma passed_collected ownerId yes no batch :
  (List.filter snd
     ((fun click : jsstring * jsstring => (click.2, qualifying ownerId yes no click))
        <$> batch)).*1 =
  collected ownerId yes no batch.
Proof.
  unfold collected. induction batch as [|click batch IH]; [done|].
  cbn [fmap list_fmap List.filter snd].
  destruct (qualifying ownerId yes no click); cbn [fmap list_fmap fst snd];
    by rewrite <- IH.
Qed.

Lemma collected_nil ownerId yes no batch :
  existsb (qualifying ownerId yes no) batch = false <->
  collected ownerId yes no batch = [].
Proof.
  unfold collected. induction batch as [|click batch IH]; [done|].
  cbn [existsb List.filter]. destruct (qualifying ownerId yes no click); cbn; [|done].
  split; discriminate.
Qed.

(** *** The emit stage of a turn *)

Lemma emit_fail s customId :
  collectorMax s = Some 1%nat ->
  total s = 0%nat \/ is_Some (endReason s) ->
  handleCollect_emit s (customId, false) = s.
Proof.
  intros Hmax H. unfold handleCollect_emit, checkEnd. cbn [snd]. rewrite Hmax.
  destruct H as [-> | [r Hr]]; [done|].
  unfold stop. rewrite Hr. by destruct (1 <=? total s)%nat.
Qed.

(** A press that passed the filter reaches the listeners although the
    collector has ended. *)
Lemma emit_pass_ended s customId r :
  endReason s = Some r ->
  handleCollect_emit s (customId, true) = onCollect (count s) customId.
Proof.
  intros Hr. unfold handleCollect_emit, checkEnd. cbn [fst snd].
  assert (He : endReason (onCollect (count s) customId) = Some r).
  { unfold onCollect. by destruct (updateReply _). }
  destruct (collectorMax _) as [[|max]|]; [done| |done].
  destruct (_ <=? _)%nat; [|done]. unfold stop. by rewrite He.
Qed.

Lemma emit_pass_open s customId :
  endReason s = None -> total s = 0%nat -> collectorMax s = Some 1%nat ->
  handleCollect_emit s (customId, true) =
  setCollector (onCollect (count s) customId) 1 (Some limit).
Proof.
  intros He Ht Hmax. unfold handleCollect_emit, checkEnd. cbn [fst snd].
  destruct s as [ow y n o mx tot er pr rc rj msg nt]. cbn in He, Ht, Hmax. subst.
  unfold onCollect, count. cbn. by destruct (updateReply o).
Qed.

(** The presses of a turn that are emitted once the collector has ended:
    each one is counted, edits the message and calls [resolve]. *)
Lemma emit_fold_ended items : forall s r,
  endReason s = Some r -> collectorMax s = Some 1%nat ->
  endReason (foldl handleCollect_emit s items) = Some r /\
  total (foldl handleCollect_emit s items)
    = (total s + length (List.filter snd items))%nat /\
  resolveCalls (foldl handleCollect_emit s items)
    = (resolveCalls s + length (List.filter snd items))%nat /\
  rejectCalls (foldl handleCollect_emit s items) = rejectCalls s /\
  promise (foldl handleCollect_emit s items) =
    match promise s with
    | Pending =>
      match (List.filter snd items).*1 with
      | [] => Pending
      | customId :: _ => Fulfilled (bool_decide (customId = yesId s))
      end
    | st => st
    end /\
  message (foldl handleCollect_emit s items) =
    (if updateReply (opts s)
     then match last (List.filter snd items).*1 with
          | Some customId => Terminal (outcomeText (opts s) (yesId s) customId)
          | None => message s
          end
     else message s) /\
  notices (foldl handleCollect_emit s items) = notices s /\
  owner (foldl handleCollect_emit s items) = owner s /\
  yesId (foldl handleCollect_emit s items) = yesId s /\
  noId (foldl handleCollect_emit s items) = noId s /\
  opts (foldl handleCollect_emit s items) = opts s /\
  collectorMax (foldl handleCollect_emit s items) = collectorMax s.
Proof.
  induction items as [|[c pass] items IH]; intros s r He Hmax.
  - cbn. rewrite !Nat.add_0_r. destruct (promise s), (updateReply (opts s)); done.
  - cbn [foldl]. destruct pass.
    + rewrite (emit_pass_ended s c r He).
      assert (He1 : endReason (onCollect (count s) c) = Some r).
      { unfold onCollect. by destruct (updateReply _). }
      assert (Hmax1 : collectorMax (onCollect (count s) c) = Some 1%nat).
      { unfold onCollect. by destruct (updateReply _). }
      destruct (IH _ r He1 Hmax1)
        as (-> & -> & -> & -> & -> & -> & -> & -> & -> & -> & -> & ->).
      cbn [List.filter snd fmap list_fmap fst length].
      rewrite last_cons.
      destruct s as [ow y n o mx tot er pr rc rj msg nt].
      unfold onCollect, count, outcomeText. cbn.
      destruct (updateReply o) eqn:Hu; cbn; rewrite ?Hu;
        (repeat split; try done; try lia);
        try (by destruct pr);
        by destruct (last _).
    + rewrite (emit_fail s c Hmax) by (right; by eexists).
      cbn [List.filter snd]. by apply IH.
Qed.

(** The presses of a turn on a session that is open: nothing happens up
    to the first press that passed; that one ends the collector with
    'limit', and the ones after it are emitted all the same. *)
Lemma emit_fold_open items : forall s,
  endReason s = None -> promise s = Pending ->
  resolveCalls s = 0%nat -> rejectCalls s = 0%nat ->
  total s = 0%nat -> collectorMax s = Some 1%nat -> message s = Prompt ->
  match (List.filter snd items).*1 with
  | [] => foldl handleCollect_emit s items = s
  | customId :: rest =>
    endReason (foldl handleCollect_emit s items) = Some limit /\
    total (foldl handleCollect_emit s items) = S (length rest) /\
    resolveCalls (foldl handleCollect_emit s items) = S (length rest) /\
    rejectCalls (foldl handleCollect_emit s items) = 0%nat /\
    promise (foldl handleCollect_emit s items)
      = Fulfilled (bool_decide (customId = yesId s)) /\
    message (foldl handleCollect_emit s items) =
      (if updateReply (opts s)
       then match last (customId :: rest) with
            | Some c => Terminal (outcomeText (opts s) (yesId s) c)
            | None => Prompt
            end
       else Prompt) /\
    notices (foldl handleCollect_emit s items) = notices s /\
    owner (foldl handleCollect_emit s items) = owner s /\
    yesId (foldl handleCollect_emit s items) = yesId s /\
    noId (foldl handleCollect_emit s items) = noId s /\
    opts (foldl handleCollect_emit s items) = opts s /\
    collectorMax (foldl handleCollect_emit s items) = collectorMax s
  end.
Proof.
  induction items as [|[c pass] items IH]; intros s He Hp Hrc Hrj Ht Hmax Hmsg; [done|].
  cbn [foldl List.filter snd]. destruct pass.
  - rewrite (emit_pass_open s c He Ht Hmax).
    cbn [fmap list_fmap fst].
    set (s1 := setCollector (onCollect (count s) c) 1 (Some limit)).
    assert (He1 : endReason s1 = Some limit) by done.
    assert (Hmax1 : collectorMax s1 = Some 1%nat).
    { unfold s1, onCollect. cbn. by destruct (updateReply _). }
    destruct (emit_fold_ended items s1 limit He1 Hmax1)
      as (-> & -> & -> & -> & -> & -> & -> & -> & -> & -> & -> & ->).
    rewrite length_fmap, last_cons.
    destruct s as [ow y n o mx tot er pr rc rj msg nt].
    cbn in He, Hp, Hrc, Hrj, Ht, Hmax, Hmsg. subst.
    unfold s1, onCollect, count, outcomeText. cbn.
    destruct (updateReply o) eqn:Hu; cbn; rewrite ?Hu;
      (repeat split; try done); by destruct (last _).
  - rewrite (emit_fail s c Hmax) by (by left). by apply IH.
Qed.

(** *** One turn, and a sequence of turns *)

(** The presses of one turn on an open session. *)
Lemma deliver_open s batch :
  endReason s = None -> promise s = Pending ->
  resolveCalls s = 0%nat -> rejectCalls s = 0%nat ->
  total s = 0%nat -> collectorMax s = Some 1%nat -> message s = Prompt ->
  notices (deliver s batch) = notices s ++ others (owner s) batch /\
  owner (deliver s batch) = owner s /\ yesId (deliver s batch) = yesId s /\
  noId (deliver s batch) = noId s /\ opts (deliver s batch) = opts s /\
  collectorMax (deliver s batch) = Some 1%nat /\
  rejectCalls (deliver s batch) = 0%nat /\
  match collected (owner s) (yesId s) (noId s) batch with
  | [] =>
    endReason (deliver s batch) = None /\ promise (deliver s batch) = Pending /\
    resolveCalls (deliver s batch) = 0%nat /\ total (deliver s batch) = 0%nat /\
    message (deliver s batch) = Prompt
  | customId :: rest =>
    endReason (deliver s batch) = Some limit /\
    promise (deliver s batch) = Fulfilled (bool_decide (customId = yesId s)) /\
    resolveCalls (deliver s batch) = S (length rest) /\
    total (deliver s batch) = S (length rest) /\
    message (deliver s batch) =
      (if updateReply (opts s)
       then match last (customId :: rest) with
            | Some c => Terminal (outcomeText (opts s) (yesId s) c)
            | None => Prompt
            end
       else Prompt)
  end.
Proof.
  intros He Hp Hrc Hrj Ht Hmax Hmsg. unfold deliver. rewrite He, filter_fold.
  cbn [app].
  destruct (notify_fold_fields (others (owner s) batch) s)
    as (Ho & Hy & Hn & Hopts & Hmx & Htot & Hend & Hpr & Hres & Hrej & Hm & Hnt).
  set (s1 := foldl notify s (others (owner s) batch)) in *.
  pose proof (emit_fold_open
                ((fun click => (click.2, qualifying (owner s) (yesId s) (noId s) click))
                   <$> batch) s1) as Hemit.
  rewrite passed_collected in Hemit.
  specialize (Hemit ltac:(congruence) ltac:(congruence) ltac:(congruence)
                    ltac:(congruence) ltac:(congruence) ltac:(congruence)
                    ltac:(congruence)).
  destruct (collected (owner s) (yesId s) (noId s) batch) as [|c rest].
  - rewrite Hemit. repeat split; congruence.
  - destruct Hemit as (-> & -> & -> & -> & -> & -> & -> & -> & -> & -> & -> & ->).
    rewrite Hy, Hopts. repeat split; congruence.
Qed.

(** The session after a sequence of turns is decided by the first turn
    that has a qualifying press or ends the collector; the notices are
    those of the turns up to that one. *)
Lemma run_open evs : forall s,
  endReason s = None -> promise s = Pending ->
  resolveCalls s = 0%nat -> rejectCalls s = 0%nat ->
  total s = 0%nat -> collectorMax s = Some 1%nat -> message s = Prompt ->
  notices (run s evs) =
    notices s ++ expectedNotices (owner s) (yesId s) (noId s) evs /\
  match firstDecisive (owner s) (yesId s) (noId s) evs with
  | Some (Clicks batch) =>
    exists customId rest,
      collected (owner s) (yesId s) (noId s) batch = customId :: rest /\
      promise (run s evs) = Fulfilled (bool_decide (customId = yesId s)) /\
      resolveCalls (run s evs) = S (length rest) /\
      rejectCalls (run s evs) = 0%nat /\
      endReason (run s evs) = Some limit /\
      total (run s evs) = S (length rest) /\
      message (run s evs) =
        (if updateReply (opts s)
         then match last (customId :: rest) with
              | Some c => Terminal (outcomeText (opts s) (yesId s) c)
              | None => Prompt
              end
         else Prompt)
  | Some ev =>
    promise (run s evs) = Rejected (ForgeError CONFIRMATION_TIMED_OUT None) /\
    resolveCalls (run s evs) = 0%nat /\ rejectCalls (run s evs) = 1%nat /\
    endReason (run s evs)
      = Some (match ev with MessageDeleted => messageDelete | _ => time end) /\
    total (run s evs) = 0%nat /\
    message (run s evs)
      = (if updateReply (opts s) then Terminal (timedOutText (opts s)) else Prompt)
  | None =>
    promise (run s evs) = Pending /\ resolveCalls (run s evs) = 0%nat /\
    rejectCalls (run s evs) = 0%nat /\ endReason (run s evs) = None /\
    total (run s evs) = 0%nat /\ message (run s evs) = Prompt
  end.
Proof.
  induction evs as [|ev evs IH]; intros s He Hp Hrc Hrj Ht Hmax Hmsg.
  - cbn. by rewrite app_nil_r.
  - rewrite run_cons. cbn [firstDecisive expectedNotices].
    destruct ev as [batch| |].
    + cbn [dispatch decisive].
      destruct (deliver_open s batch He Hp Hrc Hrj Ht Hmax Hmsg)
        as (Hnt & Ho & Hy & Hn & Hopts & Hmx & Hrej & Hcase).
      destruct (existsb _ batch) eqn:Hex.
      * destruct (collected (owner s) (yesId s) (noId s) batch) as [|c rest] eqn:Hcol.
        { apply collected_nil in Hcol. congruence. }
        destruct Hcase as (Hend & Hpr & Hres & Htot & Hm).
        rewrite (run_ended _ evs _ Hend), app_nil_r. split; [done|].
        by exists c, rest.
      * apply collected_nil in Hex. rewrite Hex in Hcase.
        destruct Hcase as (Hend & Hpr & Hres & Htot & Hm).
        destruct (IH (deliver s batch) Hend Hpr Hres Hrej Htot Hmx Hm) as [IHn IHc].
        rewrite Ho, Hy, Hn in IHn, IHc. rewrite Hopts in IHc.
        split; [|done]. by rewrite IHn, Hnt, <- app_assoc.
    + cbn [dispatch decisive app].
      assert (Hend : endReason (stop s time) = Some time).
      { unfold stop. rewrite He. cbn. by destruct (updateReply _). }
      rewrite (run_ended _ evs _ Hend), app_nil_r.
      destruct s as [ow y n o mx tot er pr rc rj msg nt].
      cbn in He, Hp, Hrc, Hrj, Ht, Hmax, Hmsg. subst.
      unfold stop. cbn. by destruct (updateReply o).
    + cbn [dispatch decisive app].
      assert (Hend : endReason (stop s messageDelete) = Some messageDelete).
      { unfold stop. rewrite He. cbn. by destruct (updateReply _). }
      rewrite (run_ended _ evs _ Hend), app_nil_r.
      destruct s as [ow y n o mx tot er pr rc rj msg nt].
      cbn in He, Hp, Hrc, Hrj, Ht, Hmax, Hmsg. subst.
      unfold stop. cbn. by destruct (updateReply o).
Qed.







(** A run of a session with the default options, one press per turn:
    somebody else presses confirm, the owner presses cancel, the owner
    presses confirm, the timer fires late. *)
Example confirmation_run_cancel :
  promise (run (ask (js "owner") (js "n1") defaults)
             [Click (js "other") (js "forge_confirm_yes_n1");
              Click (js "owner") (js "forge_confirm_no_n1");
              Click (js "owner") (js "forge_confirm_yes_n1");
              TimerExpired]) = Fulfilled false /\
  message (run (ask (js "owner") (js "n1") defaults)
             [Click (js "other") (js "forge_confirm_yes_n1");
              Click (js "owner") (js "forge_confirm_no_n1");
              Click (js "owner") (js "forge_confirm_yes_n1");
              TimerExpired]) = Terminal (cancelledText defaults) /\
  notices (run (ask (js "owner") (js "n1") defaults)
             [Click (js "other") (js "forge_confirm_yes_n1");
              Click (js "owner") (js "forge_confirm_no_n1");
              Click (js "owner") (js "forge_confirm_yes_n1");
              TimerExpired]) = [js "other"].
Proof. vm_compute. repeat split. Qed.

End ConfirmationFacts.

(** ** More on the router *)
Module RouterExtra.
Import RegExp InteractionRouter RouterFacts.

Lemma hasNamedGroup_glob p : hasNamedGroup (globNodes p) = false.
Proof.
  unfold hasNamedGroup, globNodes. induction p as [|c p IH]; [done|].
  rewrite fmap_cons. cbn [existsb]. rewrite IH. by destruct (N.eqb c (cu "*")).
Qed.

Lemma hasNamedGroup_compiled p :
  hasNamedGroup (AssertStart :: globNodes p ++ [AssertEnd]) = false.
Proof.
  unfold hasNamedGroup. cbn [existsb]. rewrite existsb_app.
  fold (hasNamedGroup (globNodes p)). by rewrite hasNamedGroup_glob.
Qed.

(** The first capture of a glob with a star is the text of its first
    group, which is not empty. *)
Lemma matchNodes_glob_first_capture p ns pos s r :
  includesStar p = true ->
  matchNodes (globNodes p ++ ns) pos s = Some r ->
  exists c rest, r.1 = (None, c) :: rest /\ c <> [].
Proof.
  unfold includesStar. change (cu "*") with 42%N.
  revert pos s r. induction p as [|x p IH]; intros pos s r; [done|].
  unfold globNodes. rewrite fmap_cons. fold (globNodes p). change (cu "*") with 42%N.
  cbn [existsb app]. destruct (N.eqb_spec x 42) as [->|Hx].
  - intros _. cbn [matchNodes minCount].
    destruct (Nat.ltb_spec (dotRun s) 1); [done|].
    intros (j & Hj & Hc)%greedy_Some; [|done].
    destruct (matchNodes _ (pos + j) (drop j s)) as [r'|]; [|done].
    cbn in Hc. injection Hc as <-. exists (take j s), r'.1. split; [done|].
    intros Hnil. apply (f_equal length) in Hnil. rewrite length_take in Hnil.
    pose proof (dotRun_length s). cbn in Hnil. lia.
  - rewrite (proj2 (N.eqb_neq 42 x)) by done. cbn [orb]. intros Hstar.
    cbn [matchNodes]. destruct s as [|y s]; [done|].
    destruct (N.eqb y x); [|done].
    destruct (matchNodes _ (S pos) s) as [r'|] eqn:Hr'; [|done].
    intros [= <-]. cbn [fst]. by apply (IH _ _ _ Hstar Hr').
Qed.

(** X1. What a handler registered with a string pattern receives as
    params: nothing for a pattern without star; for a pattern with stars
    only the key [wildcard], bound to the text of the first star, which is
    never empty. *)
Theorem string_route_params :
  forall (p : jsstring) (re : RegExp.t) (cid : jsstring) (m : MatchArray),
    compile (PString p) = inr re ->
    match_ cid re = Some m ->
    m_groups m = None /\
    (includesStar p = false -> paramsOf m = []) /\
    (includesStar p = true ->
     exists c, c <> [] /\ m_captures m !! 0%nat = Some (Some c) /\
               paramsOf m = [(js "wildcard", Some c)]).
Proof.
  intros p re cid m Hre Hm. rewrite compile_string in Hre. injection Hre as <-.
  cbn [match_] in Hm. rewrite execFrom_anchored_0 in Hm.
  destruct (matchNodes _ 0 cid) as [r|] eqn:Hr; [|done].
  cbn in Hm. injection Hm as <-. unfold matchArray.
  rewrite hasNamedGroup_compiled. cbn [m_groups]. split; [done|]. split.
  - intros Hstar. cbn [matchNodes Nat.eqb] in Hr.
    rewrite globNodes_no_star in Hr by done.
    apply matchNodes_tail in Hr as [_ ->]. done.
  - intros Hstar. cbn [matchNodes Nat.eqb] in Hr.
    destruct (matchNodes_glob_first_capture _ _ _ _ _ Hstar Hr) as (c & rest & Hcaps & Hc).
    exists c. split; [done|]. unfold paramsOf. cbn [m_captures m_groups default].
    rewrite Hcaps. cbn. done.
Qed.

Lemma string_route_params_witness :
  exists c, c <> [] /\
    m_captures {| m_full := js "a_1_2"; m_captures := [Some (js "1"); Some (js "2")];
                  m_groups := None |} !! 0%nat = Some (Some c) /\
    paramsOf {| m_full := js "a_1_2"; m_captures := [Some (js "1"); Some (js "2")];
                m_groups := None |} = [(js "wildcard", Some c)].
Proof.
  refine (proj2 (proj2 (string_route_params (js "a_*_*")
            (Ast (AssertStart :: globNodes (js "a_*_*") ++ [AssertEnd]))
            (js "a_1_2") _ _ _)) _).
  - vm_compute. reflexivity.
  - vm_compute. reflexivity.
  - reflexivity.
Defined.

(** X2. A pattern without star is an exact match, whatever characters it
    has: registering it never throws, and the dispatch of an identifier
    calls the handler, with empty params, exactly when the identifier is
    the pattern. *)
Theorem exact_route_matches_only_its_text :
  forall (Handler : Type) (h : Handler) (p cid : jsstring),
    includesStar p = false ->
    cid <> [] ->
    exists r,
      on constructor (PString p) (Fn h) = inr r /\
      (cid = p ->
       handle r {| customId := Some cid |} =
       (r, [CallHandler h {| customId := Some cid |} [] (_routes r)], true)) /\
      (cid <> p -> handle r {| customId := Some cid |} = (r, [], false)).
Proof.
  intros Handler h p cid Hstar Hcid. unfold on, _register.
  rewrite compile_string.
  pose (route := {| pattern := PString p;
                    compiled := Ast (AssertStart :: globNodes p ++ [AssertEnd]);
                    handler := h; once_ := false |} : Route Handler).
  exists {| _routes := [route]; _fallback := None |}.
  split; [reflexivity|]. split.
  - intros ->.
    destruct (proj2 (match_exact p p Hstar) eq_refl) as [m Hm].
    rewrite (handle_first_match _ p [] route [] m); [|done..].
    destruct (string_route_params p _ p m (compile_string p) Hm) as (_ & Hparams & _).
    by rewrite Hparams.
  - intros Hne. rewrite handle_no_match; [done|done|].
    constructor; [|constructor]. cbn [compiled route].
    destruct (match_ cid _) eqn:Hm; [|done].
    destruct Hne. apply (match_exact p cid Hstar). by eexists.
Qed.

Lemma exact_route_matches_only_its_text_witness :
  exists r,
    on constructor (PString (js "a.b")) (Fn 1%nat) = inr r /\
    handle r {| customId := Some (js "axb") |} = (r, [], false).
Proof.
  destruct (exact_route_matches_only_its_text nat 1%nat (js "a.b") (js "axb")
              eq_refl ltac:(vm_compute; discriminate)) as (r & Hon & _ & Hne).
  exists r. split; [exact Hon|]. apply Hne. vm_compute. discriminate.
Defined.

(** ** Unregistration and sequences of dispatches *)
Section Sequences.
Context {Handler : Type}.
Implicit Types (r : InteractionRouter.t Handler) (route : Route Handler).

(** The two ways [handle] can go. *)
Lemma handle_cases r i :
  (exists calls,
     handle r i = (r, calls, false) /\
     forall inClass, handlerCalls inClass calls = 0%nat) \/
  (exists pre route post params,
     _routes r = pre ++ route :: post /\
     handle r i =
     (if once_ route then {| _routes := pre ++ post; _fallback := _fallback r |} else r,
      [CallHandler (handler route) i params
         (if once_ route then pre ++ post else _routes r)], true)).
Proof.
  destruct i as [[cid|]]; [|left; by exists []].
  destruct (decide (cid = [])) as [->|Hcid]; [left; by exists []|].
  destruct (scan cid 0 (_routes r)) as [[[j route] m]|] eqn:Hscan.
  - right. apply scan_Some in Hscan as (pre & post & Hr & _ & Hpre & Hm).
    exists pre, route, post, (paramsOf m). split; [done|].
    by apply handle_first_match.
  - left. apply scan_None in Hscan. rewrite handle_no_match by done.
    destruct (_fallback r); by eexists.
Qed.

Lemma handleAll_acc interactions r (acc : list (Effect Handler)) :
  foldl (fun (acc : InteractionRouter.t Handler * list (Effect Handler)) i =>
           let '(r', calls, _) := handle acc.1 i in (r', acc.2 ++ calls))
        (r, acc) interactions =
  ((handleAll r interactions).1, acc ++ (handleAll r interactions).2).
Proof.
  unfold handleAll. revert r acc.
  induction interactions as [|i interactions IH]; intros r acc.
  - cbn. by rewrite app_nil_r.
  - cbn [foldl fst snd]. destruct (handle r i) as [[r1 calls1] b1].
    rewrite IH. cbn [app]. rewrite (IH r1 calls1). cbn [fst snd].
    by rewrite app_assoc.
Qed.

Lemma handleAll_cons r i interactions :
  handleAll r (i :: interactions) =
  ((handleAll (handle r i).1.1 interactions).1,
   (handle r i).1.2 ++ (handleAll (handle r i).1.1 interactions).2).
Proof.
  unfold handleAll at 1. cbn [foldl fst snd].
  destruct (handle r i) as [[r1 calls1] b1]. cbn [fst snd app].
  apply handleAll_acc.
Qed.

Lemma filter_middle (f : Route Handler -> bool) pre route post :
  List.filter f (pre ++ route :: post) =
  List.filter f pre ++ (if f route then [route] else []) ++ List.filter f post.
Proof. rewrite List.filter_app. cbn [List.filter]. by destruct (f route). Qed.

(** One dispatch: the fallback and the persistent routes are kept, and
    the route list does not grow. *)
Lemma handle_keeps r i :
  _fallback (handle r i).1.1 = _fallback r /\
  List.filter (fun q => negb (once_ q)) (_routes (handle r i).1.1) =
    List.filter (fun q => negb (once_ q)) (_routes r) /\
  (Forall (fun q => once_ q = false) (_routes r) -> (handle r i).1.1 = r).
Proof.
  destruct (handle_cases r i) as [(calls & -> & _)|(pre & route & post & params & Hr & ->)].
  - done.
  - cbn [fst]. destruct (once_ route) eqn:Honce; [|done]. cbn [_fallback _routes].
    split; [done|]. split.
    + rewrite Hr, filter_middle, Honce. cbn [negb app]. by rewrite List.filter_app.
    + rewrite Hr. intros Hall. apply Forall_app in Hall as [_ Hall].
      apply Forall_cons in Hall as [Hroute _]. congruence.
Qed.

(** X3. Dispatching never unregisters a persistent route and never
    touches the fallback: after any sequence of interactions the routes
    registered with [on] are all there, in their order, and a router
    without single-shot routes is exactly as it was. *)
Theorem dispatch_keeps_persistent_routes r interactions :
  _fallback (handleAll r interactions).1 = _fallback r /\
  List.filter (fun q => negb (once_ q)) (_routes (handleAll r interactions).1) =
    List.filter (fun q => negb (once_ q)) (_routes r) /\
  (Forall (fun q => once_ q = false) (_routes r) -> (handleAll r interactions).1 = r).
Proof.
  revert r. induction interactions as [|i interactions IH]; intros r; [done|].
  rewrite handleAll_cons. cbn [fst].
  destruct (handle_keeps r i) as (Hf & Hp & Hsame).
  destruct (IH (handle r i).1.1) as (Hf' & Hp' & Hsame').
  split; [congruence|]. split; [congruence|].
  intros Hall. specialize (Hsame Hall). rewrite Hsame in *. by apply Hsame'.
Qed.

Lemma handlerCalls_app (inClass : Handler -> bool) (a b : list (Effect Handler)) :
  handlerCalls inClass (a ++ b) = (handlerCalls inClass a + handlerCalls inClass b)%nat.
Proof. unfold handlerCalls. by rewrite List.filter_app, length_app. Qed.

Lemma handle_once_budget (inClass : Handler -> bool) r i :
  Forall (fun q => inClass (handler q) = true -> once_ q = true) (_routes r) ->
  Forall (fun q => inClass (handler q) = true -> once_ q = true)
         (_routes (handle r i).1.1) /\
  (handlerCalls inClass (handle r i).1.2 +
   length (List.filter (fun q => inClass (handler q)) (_routes (handle r i).1.1))
   <= length (List.filter (fun q => inClass (handler q)) (_routes r)))%nat.
Proof.
  intros Hall.
  destruct (handle_cases r i) as [(calls & -> & Hcalls)|(pre & route & post & params & Hr & ->)].
  - cbn [fst snd]. rewrite Hcalls. split; [done|lia].
  - cbn [fst snd]. rewrite Hr in Hall |- *.
    pose proof Hall as Hall'. apply Forall_app in Hall' as [Hpre Hrest].
    apply Forall_cons in Hrest as [Hroute Hpost].
    unfold handlerCalls. cbn [List.filter].
    rewrite filter_middle, !length_app.
    destruct (inClass (handler route)) eqn:Hin.
    + rewrite Hroute by done. cbn [_routes length]. split.
      * by apply Forall_app.
      * rewrite List.filter_app, length_app. lia.
    + cbn [length]. destruct (once_ route); cbn [_routes].
      * split; [by apply Forall_app|]. rewrite List.filter_app, length_app. lia.
      * rewrite Hr. split; [done|]. rewrite filter_middle, Hin, !length_app. cbn. lia.
Qed.

(** X4. Single-shot routes fire at most once each, over any sequence of
    dispatches: when every route whose handler is in a given class was
    registered with [once], the handlers of the class are called no more
    often than there are such routes. *)
Theorem once_routes_fire_at_most_once (inClass : Handler -> bool) r interactions :
  Forall (fun q => inClass (handler q) = true -> once_ q = true) (_routes r) ->
  (handlerCalls inClass (handleAll r interactions).2
   <= length (List.filter (fun q => inClass (handler q)) (_routes r)))%nat.
Proof.
  revert r. induction interactions as [|i interactions IH]; intros r Hall.
  - cbn. lia.
  - rewrite handleAll_cons. cbn [snd]. rewrite handlerCalls_app.
    destruct (handle_once_budget inClass r i Hall) as [Hall' Hle].
    specialize (IH _ Hall'). lia.
Qed.

(** [off] after a registration of the same string undoes it, along with
    the earlier registrations of that string. *)
Lemma off_after_register r (p : jsstring) h o r1 :
  _register r (PString p) (Fn h) o = inr r1 -> off r1 p = off r p.
Proof.
  unfold _register. rewrite compile_string. intros [= <-]. unfold off.
  cbn [_routes _fallback]. f_equal. rewrite List.filter_app. cbn [List.filter pattern].
  rewrite bool_decide_eq_true_2 by done. cbn [negb]. by rewrite app_nil_r.
Qed.

Lemma off_not_registered r (p : jsstring) :
  Forall (fun q => pattern q <> PString p) (_routes r) -> off r p = r.
Proof.
  intros Hall. destruct r as [routes fb]. unfold off. cbn [_routes _fallback] in *.
  f_equal. induction Hall as [|q routes Hq _ IH]; [done|].
  cbn [List.filter]. rewrite IH.
  destruct (pattern q) as [re|s|] eqn:Hp; [done| |done].
  rewrite bool_decide_eq_false_2; [done|]. intros ->. by destruct Hq.
Qed.

(** X5. [off] with a string removes the routes registered with that very
    string, and only those; the fallback stays. Registering a string
    pattern and unregistering it gives the router back as it was when
    the string was not registered before. *)
Theorem off_unregisters_string r (p : jsstring) :
  Forall (fun q => pattern q <> PString p) (_routes (off r p)) /\
  (forall q, q ∈ _routes r -> pattern q <> PString p -> q ∈ _routes (off r p)) /\
  _fallback (off r p) = _fallback r /\
  (forall h o r1,
     _register r (PString p) (Fn h) o = inr r1 ->
     Forall (fun q => pattern q <> PString p) (_routes r) ->
     off r1 p = r).
Proof.
  split; [|split; [|split]].
  - unfold off. cbn [_routes]. apply List.Forall_forall. intros q Hq.
    apply List.filter_In in Hq as [_ Hq]. intros Hp. rewrite Hp in Hq.
    by rewrite bool_decide_eq_true_2 in Hq.
  - intros q Hq Hp. unfold off. cbn [_routes]. apply list_elem_of_In.
    apply List.filter_In. split; [by apply list_elem_of_In|].
    destruct (pattern q) as [re|s|]; [done| |done].
    rewrite bool_decide_eq_false_2; [done|]. intros ->. by destruct Hp.
  - done.
  - intros h o r1 Hreg Hall. rewrite (off_after_register _ _ _ _ _ Hreg).
    by apply off_not_registered.
Qed.

End Sequences.

Lemma dispatch_keeps_persistent_routes_witness :
  (handleAll
     {| _routes := [stringRoute "page_*" 1%nat false; stringRoute "open" 2%nat false];
        _fallback := Some 9%nat |}
     [{| customId := Some (js "page_3") |}; {| customId := None |};
      {| customId := Some (js "open") |}]).1 =
  {| _routes := [stringRoute "page_*" 1%nat false; stringRoute "open" 2%nat false];
     _fallback := Some 9%nat |}.
Proof.
  refine (proj2 (proj2 (dispatch_keeps_persistent_routes _ _)) _).
  repeat constructor.
Defined.

Lemma off_unregisters_string_witness :
  off {| _routes := [stringRoute "open" 1%nat false; stringRoute "page_*" 2%nat true];
         _fallback := None |} (js "page_*") =
  {| _routes := [stringRoute "open" 1%nat false]; _fallback := None |}.
Proof.
  refine (proj2 (proj2 (proj2 (off_unregisters_string
            {| _routes := [stringRoute "open" 1%nat false]; _fallback := None |}
            (js "page_*")))) 2%nat true _ _ _).
  - apply _register_string.
  - repeat constructor. vm_compute. discriminate.
Defined.

Lemma once_routes_fire_at_most_once_witness :
  (handlerCalls (Nat.eqb 1)
     (handleAll
        {| _routes := [stringRoute "claim_*" 1%nat true; stringRoute "claim_*" 2%nat false];
           _fallback := None |}
        [{| customId := Some (js "claim_7") |}; {| customId := Some (js "claim_7") |};
         {| customId := Some (js "claim_8") |}]).2
   <= 1)%nat.
Proof.
  refine (once_routes_fire_at_most_once (Nat.eqb 1)
            {| _routes := [stringRoute "claim_*" 1%nat true;
                           stringRoute "claim_*" 2%nat false];
               _fallback := None |} _ _).
  repeat constructor. vm_compute. discriminate.
Defined.

(** X6. A route registered with a regular expression: when the match has
    a first capture and the named groups have no key [wildcard], the
    handler receives every named group with the text it captured and, in
    addition, [wildcard] bound to the first capture. *)
Theorem regexp_route_params :
  forall (Handler : Type) (r : InteractionRouter.t Handler) cid pre route post m w,
    cid <> [] ->
    _routes r = pre ++ route :: post ->
    Forall (fun q => match_ cid (compiled q) = None) pre ->
    match_ cid (compiled route) = Some m ->
    m_captures m !! 0%nat = Some (Some w) ->
    js "wildcard" ∉ (default [] (m_groups m)).*1 ->
    exists r' params,
      handle r {| customId := Some cid |} =
      (r', [CallHandler (handler route) {| customId := Some cid |} params (_routes r')],
       true) /\
      getProp params (js "wildcard") = Some w /\
      forall key, key <> js "wildcard" ->
        getProp params key = getProp (default [] (m_groups m)) key.
Proof.
  intros Handler r cid pre route post m w Hcid Hr Hpre Hm Hcap Hkey.
  rewrite (handle_first_match r cid pre route post m) by done.
  destruct (paramsOf_adds_wildcard m w Hcap Hkey) as [Hw Hother].
  destruct (once_ route);
    [exists {| _routes := pre ++ post; _fallback := _fallback r |}, (paramsOf m)
    | exists r, (paramsOf m)]; done.
Qed.

Lemma regexp_route_params_witness :
  exists r' params,
    handle
      {| _routes :=
           [{| pattern := PRegExp (Ast [AssertStart; Char (cu "b"); Char (cu "_");
                                        DotGroup (Some (js "userId")) OneOrMore; AssertEnd]);
               compiled := Ast [AssertStart; Char (cu "b"); Char (cu "_");
                                DotGroup (Some (js "userId")) OneOrMore; AssertEnd];
               handler := 1%nat; once_ := false |}];
         _fallback := None |}
      {| customId := Some (js "b_42") |} =
    (r', [CallHandler 1%nat {| customId := Some (js "b_42") |} params (_routes r')], true) /\
    getProp params (js "wildcard") = Some (js "42") /\
    forall key, key <> js "wildcard" ->
      getProp params key = getProp [(js "userId", Some (js "42"))] key.
Proof.
  refine (regexp_route_params nat _ (js "b_42") []
            {| pattern := PRegExp (Ast [AssertStart; Char (cu "b"); Char (cu "_");
                                        DotGroup (Some (js "userId")) OneOrMore; AssertEnd]);
               compiled := Ast [AssertStart; Char (cu "b"); Char (cu "_");
                                DotGroup (Some (js "userId")) OneOrMore; AssertEnd];
               handler := 1%nat; once_ := false |} []
            {| m_full := js "b_42"; m_captures := [Some (js "42")];
               m_groups := Some [(js "userId", Some (js "42"))] |}
            (js "42") _ _ _ _ _ _).
  - vm_compute. discriminate.
  - reflexivity.
  - constructor.
  - vm_compute. reflexivity.
  - reflexivity.
  - intros H. apply elem_of_cons in H as [H|H]; [discriminate|].
    by apply not_elem_of_nil in H.
Defined.

End RouterExtra.

(** ** More on cooldowns *)
Module CooldownExtra.
Import CooldownManager CooldownFacts.

(** [check] only reads the prefix and the entry of its key. *)
Lemma check_ext m m' command entityId now :
  _prefix m' = _prefix m ->
  _store m' !! _key m command entityId = _store m !! _key m command entityId ->
  check m' command entityId now = check m command entityId now.
Proof.
  intros Hp Hk. unfold check, _get, _key in *. by rewrite Hp, Hk.
Qed.

Lemma key_entity_inj m command entityId entityId' :
  _key m command entityId = _key m command entityId' -> entityId = entityId'.
Proof.
  unfold _key. intros H. apply app_inv_head in H. apply app_inv_head in H.
  by apply app_inv_head in H.
Qed.

(** [use] and [set] write at most the entry of their key. *)
Lemma use_prefix m command entityId durationMs nowCheck nowSet :
  _prefix (state_of (use m command entityId durationMs nowCheck nowSet)) = _prefix m.
Proof.
  unfold use, set. destruct (onCooldown _); [done|]. by destruct (durationMs <=? 0).
Qed.

Lemma use_other_key m command entityId durationMs nowCheck nowSet (k : jsstring) :
  k <> _key m command entityId ->
  _store (state_of (use m command entityId durationMs nowCheck nowSet)) !! k =
  _store m !! k.
Proof.
  intros Hk. unfold use, set. destruct (onCooldown _); [done|].
  destruct (durationMs <=? 0); [done|]. cbn. by rewrite lookup_insert_ne.
Qed.

(** X7. [set] and [check] round trip. A positive duration stores the
    expiry [now + durationMs], whatever was stored before, and returns it;
    from then until the expiry [check] reports the cooldown with the time
    left, and from the expiry on it reports none although the entry is
    still in the store. A duration that is not positive throws
    COOLDOWN_INVALID_DURATION and changes nothing. *)
Theorem set_then_check :
  forall (m : CooldownManager.t) (command entityId : jsstring) (durationMs now : Z),
    (0 < durationMs ->
     exists m',
       set m command entityId durationMs now = Returned (now + durationMs) m' /\
       _store m' !! _key m command entityId = Some (now + durationMs) /\
       (forall t, 0 <= t -> t < now + durationMs ->
          check m' command entityId t =
          {| onCooldown := true; remaining := now + durationMs - t;
             expiry := Some (now + durationMs) |}) /\
       (forall t, now + durationMs <= t ->
          check m' command entityId t =
          {| onCooldown := false; remaining := 0; expiry := None |})) /\
    (durationMs <= 0 ->
     set m command entityId durationMs now =
     Threw (ForgeError COOLDOWN_INVALID_DURATION None) m).
Proof.
  intros m command entityId durationMs now. split.
  - intros Hd. unfold set. destruct (Z.leb_spec durationMs 0); [lia|].
    eexists. split; [reflexivity|].
    assert (Hk : _store (_set m (_key m command entityId) (now + durationMs))
                   !! _key (_set m (_key m command entityId) (now + durationMs))
                        command entityId = Some (now + durationMs))
      by apply lookup_insert_eq.
    split; [exact Hk|]. split.
    + intros t Ht Hlt. by apply check_active.
    + intros t Ht. apply check_idle. intros (e & He & Hlt).
      rewrite Hk in He. injection He as <-. lia.
  - intros Hd. unfold set. by destruct (Z.leb_spec durationMs 0); [|lia].
Qed.

Lemma set_then_check_witness :
  exists m',
    set (constructor {| store := None; keyPrefix := None |})
      (js "ban") (js "u1") 10000 5000 = Returned (5000 + 10000) m' /\
    check m' (js "ban") (js "u1") 7000 =
      {| onCooldown := true; remaining := 5000 + 10000 - 7000;
         expiry := Some (5000 + 10000) |} /\
    check m' (js "ban") (js "u1") 15000 =
      {| onCooldown := false; remaining := 0; expiry := None |}.
Proof.
  destruct (proj1 (set_then_check (constructor {| store := None; keyPrefix := None |})
                     (js "ban") (js "u1") 10000 5000) ltac:(lia))
    as (m' & Hset & _ & Hin & Hout).
  exists m'. split; [exact Hset|]. split.
  - apply Hin; lia.
  - apply Hout; lia.
Defined.

(** X8. [remaining] is never negative: for a clock that reads [now >= 0]
    it is [max 0 (expiry - now)] when the key has an entry and 0 when it
    has none; and [check] reports a cooldown exactly when the time left is
    positive. *)
Theorem remaining_is_time_left :
  forall (m : CooldownManager.t) (command entityId : jsstring) (now : Z),
    0 <= remaining_ m command entityId now /\
    (onCooldown (check m command entityId now) = true <->
     0 < remaining_ m command entityId now) /\
    (0 <= now ->
     remaining_ m command entityId now =
     match _store m !! _key m command entityId with
     | Some e => Z.max 0 (e - now)
     | None => 0
     end).
Proof.
  intros m command entityId now. unfold remaining_, check, _get.
  destruct (_store m !! _key m command entityId) as [e|]; [|done].
  destruct (Z.eqb_spec e 0) as [->|Hne]; cbn [orb].
  - cbn. repeat split; try done; lia.
  - destruct (Z.geb_spec now e); cbn; repeat split; try done; lia.
Qed.

Lemma remaining_is_time_left_witness :
  remaining_ (_set (constructor {| store := None; keyPrefix := None |})
                (js "forge:cd:ban:u1") 9000) (js "ban") (js "u1") 2000 =
  match _store (_set (constructor {| store := None; keyPrefix := None |})
                  (js "forge:cd:ban:u1") 9000)
          !! _key (_set (constructor {| store := None; keyPrefix := None |})
                     (js "forge:cd:ban:u1") 9000) (js "ban") (js "u1") with
  | Some e => Z.max 0 (e - 2000)
  | None => 0
  end.
Proof.
  refine (proj2 (proj2 (remaining_is_time_left _ (js "ban") (js "u1") 2000)) _). lia.
Defined.

(** X9. [reset] ends the cooldown of its key and of no other: afterwards
    [check] reports none for the key at any time, a [use] with a positive
    duration succeeds, and every other entry of the store is as before. *)
Theorem reset_clears_only_its_key :
  forall (m : CooldownManager.t) (command entityId : jsstring),
    (forall now,
       check (reset m command entityId) command entityId now =
       {| onCooldown := false; remaining := 0; expiry := None |}) /\
    (forall durationMs nowCheck nowSet,
       0 < durationMs ->
       use (reset m command entityId) command entityId durationMs nowCheck nowSet =
       Returned () (_set (reset m command entityId) (_key m command entityId)
                      (nowSet + durationMs))) /\
    (forall k : jsstring,
       k <> _key m command entityId ->
       _store (reset m command entityId) !! k = _store m !! k).
Proof.
  intros m command entityId.
  assert (Hk : _store (reset m command entityId)
                 !! _key (reset m command entityId) command entityId = None)
    by apply lookup_delete_eq.
  assert (Hidle : forall now,
            ~ (exists e, _store (reset m command entityId)
                           !! _key (reset m command entityId) command entityId = Some e
                         /\ now < e)).
  { intros now (e & He & _). by rewrite Hk in He. }
  split; [|split].
  - intros now. by apply check_idle.
  - intros durationMs nowCheck nowSet Hd. rewrite use_idle by apply Hidle.
    by destruct (Z.leb_spec durationMs 0); [lia|].
  - intros k Hne. unfold reset, _delete. cbn. by rewrite lookup_delete_ne.
Qed.

Lemma reset_clears_only_its_key_witness :
  use (reset (_set (constructor {| store := None; keyPrefix := None |})
                (js "forge:cd:ban:u1") 9000) (js "ban") (js "u1"))
      (js "ban") (js "u1") 1000 0 0 =
  Returned ()
    (_set (reset (_set (constructor {| store := None; keyPrefix := None |})
                    (js "forge:cd:ban:u1") 9000) (js "ban") (js "u1"))
       (_key (_set (constructor {| store := None; keyPrefix := None |})
                (js "forge:cd:ban:u1") 9000) (js "ban") (js "u1"))
       (0 + 1000)).
Proof.
  refine (proj1 (proj2 (reset_clears_only_its_key _ (js "ban") (js "u1"))) 1000 0 0 _).
  lia.
Defined.

(** ** Keys *)

Lemma colon_split (c c' e e' : jsstring) :
  58%N ∉ c -> 58%N ∉ c' ->
  c ++ 58%N :: e = c' ++ 58%N :: e' -> c = c' /\ e = e'.
Proof.
  revert c'. induction c as [|x c IH]; intros [|y c'] Hc Hc' Heq.
  - by injection Heq as <-.
  - injection Heq as <- _. destruct Hc'. apply elem_of_cons. by left.
  - injection Heq as -> _. destruct Hc. apply elem_of_cons. by left.
  - injection Heq as -> Heq. apply not_elem_of_cons in Hc as [_ Hc].
    apply not_elem_of_cons in Hc' as [_ Hc'].
    destruct (IH c' Hc Hc' Heq) as [-> ->]. done.
Qed.

(** X10. Which calls share a cooldown entry. The key joins prefix, command
    and entity with a colon, so a command "c:e" with entity "f" has the key
    of the command "c" with entity "e:f". Commands without a colon never
    share an entry: different (command, entity) pairs have different keys,
    and a [use] for one pair leaves what [check] reports for the other
    unchanged. Within one command, different entities never share an
    entry. *)
Theorem colon_free_commands_do_not_alias :
  forall (m : CooldownManager.t) (command entityId command' entityId' : jsstring),
    _key m (command ++ js ":" ++ entityId) entityId' =
      _key m command (entityId ++ js ":" ++ entityId') /\
    (entityId <> entityId' ->
     forall durationMs nowCheck nowSet now,
       check (state_of (use m command entityId durationMs nowCheck nowSet))
         command entityId' now = check m command entityId' now) /\
    (58%N ∉ command -> 58%N ∉ command' ->
     (command, entityId) <> (command', entityId') ->
     _key m command entityId <> _key m command' entityId' /\
     forall durationMs nowCheck nowSet now,
       check (state_of (use m command entityId durationMs nowCheck nowSet))
         command' entityId' now = check m command' entityId' now).
Proof.
  intros m command entityId command' entityId'. split; [|split].
  - unfold _key. by rewrite <- !app_assoc.
  - intros Hne durationMs nowCheck nowSet now. apply check_ext.
    + apply use_prefix.
    + apply use_other_key. intros Heq. by apply key_entity_inj in Heq.
  - intros Hc Hc' Hne.
    assert (Hkey : _key m command entityId <> _key m command' entityId').
    { unfold _key. intros Heq. apply app_inv_head in Heq.
      destruct (colon_split _ _ _ _ Hc Hc' Heq) as [-> ->]. done. }
    split; [done|]. intros durationMs nowCheck nowSet now. apply check_ext.
    + apply use_prefix.
    + apply use_other_key. congruence.
Qed.

Lemma colon_free_commands_do_not_alias_witness :
  check (state_of (use (constructor {| store := None; keyPrefix := None |})
                     (js "ban") (js "u1") 1000 0 0)) (js "kick") (js "u1") 5 =
  check (constructor {| store := None; keyPrefix := None |}) (js "kick") (js "u1") 5.
Proof.
  refine (proj2 (proj2 (proj2 (colon_free_commands_do_not_alias
            (constructor {| store := None; keyPrefix := None |})
            (js "ban") (js "u1") (js "kick") (js "u1"))) _ _ _) 1000 0 0 5).
  - vm_compute. intros H. repeat (apply elem_of_cons in H as [H|H]; [discriminate|]).
    by apply not_elem_of_nil in H.
  - vm_compute. intros H. repeat (apply elem_of_cons in H as [H|H]; [discriminate|]).
    by apply not_elem_of_nil in H.
  - vm_compute. discriminate.
Defined.

(** ** [resetAll] *)

Lemma startsWith_app (prefix rest : jsstring) : startsWith (prefix ++ rest) prefix = true.
Proof.
  induction prefix as [|c prefix IH]; [by destruct rest|].
  cbn. by rewrite N.eqb_refl, IH.
Qed.

Lemma resetAll_fold_prefix (l : list jsstring) (P : jsstring) (m : CooldownManager.t) :
  _prefix (foldl (resetAllStep P) m l) = _prefix m.
Proof.
  revert m. induction l as [|k l IH]; intros m; [done|].
  cbn [foldl]. rewrite IH. unfold resetAllStep. by destruct (startsWith k P).
Qed.

Lemma resetAll_fold_lookup (l : list jsstring) (P : jsstring) (m : CooldownManager.t)
    (k : jsstring) :
  _store (foldl (resetAllStep P) m l) !! k =
  if decide (k ∈ l /\ startsWith k P = true) then None else _store m !! k.
Proof.
  revert m. induction l as [|k' l IH]; intros m.
  - cbn. rewrite decide_False; [done|]. intros [H _]. by apply not_elem_of_nil in H.
  - cbn [foldl]. rewrite IH. unfold resetAllStep.
    destruct (decide (k ∈ l /\ startsWith k P = true)) as [[Hin Hsw]|Hno].
    + rewrite decide_True; [done|]. split; [|done]. apply elem_of_cons. by right.
    + destruct (startsWith k' P) eqn:Hk'.
      * destruct (decide (k = k')) as [->|Hne].
        -- rewrite decide_True; [|split; [apply elem_of_cons; by left|done]].
           cbn. apply lookup_delete_eq.
        -- rewrite decide_False.
           ++ cbn. by apply lookup_delete_ne.
           ++ intros [[?|Hin]%elem_of_cons Hsw]; [done|]. by destruct Hno.
      * rewrite decide_False; [done|].
        intros [[->|Hin]%elem_of_cons Hsw]; [congruence|]. by destruct Hno.
Qed.

(** X11. [resetAll] removes exactly the entries whose key starts with the
    prefix, the command and a colon: afterwards no entity of the command is
    on cooldown, and the entries with other keys are as before. *)
Theorem resetAll_clears_command :
  forall (m : CooldownManager.t) (command : jsstring),
    (forall (k : jsstring) (v : Z),
       _store (resetAll m command) !! k = Some v <->
       _store m !! k = Some v /\
       startsWith k (_prefix m ++ command ++ js ":") = false) /\
    (forall entityId now,
       check (resetAll m command) command entityId now =
       {| onCooldown := false; remaining := 0; expiry := None |}) /\
    _prefix (resetAll m command) = _prefix m.
Proof.
  intros m command.
  assert (Hlookup : forall k : jsstring,
            _store (resetAll m command) !! k =
            if startsWith k (_prefix m ++ command ++ js ":") then None
            else _store m !! k).
  { intros k. unfold resetAll. rewrite resetAll_fold_lookup.
    destruct (startsWith k _) eqn:Hsw.
    - destruct (_store m !! k) as [v|] eqn:Hk.
      + rewrite decide_True; [done|]. split; [|done]. unfold _keys.
        apply list_elem_of_fmap. exists (k, v). split; [done|].
        by apply elem_of_map_to_list.
      + by destruct (decide _).
    - rewrite decide_False; [done|]. by intros [_ ?]. }
  assert (Hprefix : _prefix (resetAll m command) = _prefix m)
    by apply resetAll_fold_prefix.
  split; [|split; [|done]].
  - intros k v. rewrite Hlookup. destruct (startsWith k _); [|by intuition].
    split; [done|]. by intros [_ ?].
  - intros entityId now. apply check_idle. intros (e & He & _).
    unfold _key in He. rewrite Hprefix, Hlookup in He.
    rewrite !app_assoc in He. rewrite startsWith_app in He. done.
Qed.

(** ** Sweeping and lazy expiry *)

(** X12. Sweeping is not observable: at any time from the instant of the
    sweep on, [check] reports for every key the same with and without the
    sweep. An expired entry is as good as absent. *)
Theorem sweep_is_unobservable :
  forall (m : CooldownManager.t) (now : Z) (command entityId : jsstring) (t : Z),
    now <= t ->
    check (sweep m now).1 command entityId t = check m command entityId t.
Proof.
  intros m now command entityId t Ht.
  assert (Hprefix : _prefix (sweep m now).1 = _prefix m)
    by (unfold sweep; apply sweep_fold_prefix).
  unfold check, _get, _key. rewrite Hprefix, sweep_store.
  destruct (_store m !! (_prefix m ++ command ++ js ":" ++ entityId)) as [e|] eqn:Hk.
  - destruct (decide (now < e)) as [Hlt|Hge].
    + rewrite (proj2 (map_lookup_filter_Some _ _ _ e)); [done|]. split; [done|]. exact Hlt.
    + rewrite (proj2 (map_lookup_filter_None _ _ _)).
      * destruct (Z.eqb_spec e 0); [done|]. cbn [orb].
        by destruct (Z.geb_spec t e); [|lia].
      * right. intros e' He'. cbn. rewrite Hk in He'. injection He' as <-. done.
  - rewrite (proj2 (map_lookup_filter_None _ _ _)); [done|]. by left.
Qed.

Lemma sweep_is_unobservable_witness :
  check (sweep (_set (constructor {| store := None; keyPrefix := None |})
                  (js "forge:cd:ban:u1") 9000) 9500).1 (js "ban") (js "u1") 9600 =
  check (_set (constructor {| store := None; keyPrefix := None |})
           (js "forge:cd:ban:u1") 9000) (js "ban") (js "u1") 9600.
Proof.
  refine (sweep_is_unobservable _ 9500 (js "ban") (js "u1") 9600 _). lia.
Defined.

(** ** Scopes *)

(** X13. The four scopes of a command are separate: a cooldown taken
    through one scope helper leaves what [check] reports for the entity of
    any other scope unchanged, for any two interactions. Two users have
    different entries in the user scope. Interactions outside of a guild
    all use the one entity "guild_dm" in the guild scope. *)
Theorem scopes_are_separate :
  forall (m : CooldownManager.t) (command : jsstring) (i i' : ScopeInteraction)
         (duration nowCheck nowSet now : Z),
    (forall (k k' : nat) scope entity,
       k <> k' ->
       [scope_user; scope_guild; scope_channel; scope_global] !! k = Some scope ->
       [userEntity; guildEntity; channelEntity; fun _ => globalEntity] !! k'
         = Some entity ->
       check (state_of (scope m command i duration nowCheck nowSet))
         command (entity i') now =
       check m command (entity i') now) /\
    (user_id i <> user_id i' ->
     check (state_of (scope_user m command i duration nowCheck nowSet))
       command (userEntity i') now =
     check m command (userEntity i') now) /\
    (guildId i = None -> guildId i' = None -> guildEntity i = guildEntity i').
Proof.
  intros m command i i' duration nowCheck nowSet now.
  assert (Hsep : forall e e' : jsstring, e <> e' ->
            check (state_of (use m command e duration nowCheck nowSet)) command e' now =
            check m command e' now).
  { intros e e' Hne. apply check_ext; [apply use_prefix|].
    apply use_other_key. intros Heq. by apply key_entity_inj in Heq. }
  split; [|split].
  - intros k k' scope entity Hne Hscope Hentity.
    destruct k as [|[|[|[|k]]]]; cbn in Hscope; try done;
      injection Hscope as <-;
      destruct k' as [|[|[|[|k']]]]; cbn in Hentity; try done;
      injection Hentity as <-;
      apply Hsep; unfold userEntity, guildEntity, channelEntity, globalEntity;
      intros Heq; vm_compute in Heq;
      try discriminate.
    all: destruct (guildId i) as [g|], (guildId i') as [g'|]; vm_compute in Heq;
      discriminate.
  - intros Hne. apply Hsep. unfold userEntity. intros Heq.
    by apply app_inv_head in Heq.
  - unfold guildEntity. by intros -> ->.
Qed.

Lemma scopes_are_separate_witness :
  check (state_of (scope_user (constructor {| store := None; keyPrefix := None |})
                     (js "ban")
                     {| user_id := js "7"; guildId := None; channelId := None |}
                     1000 0 0))
    (js "ban") (userEntity {| user_id := js "8"; guildId := None; channelId := None |}) 5 =
  check (constructor {| store := None; keyPrefix := None |})
    (js "ban") (userEntity {| user_id := js "8"; guildId := None; channelId := None |}) 5.
Proof.
  refine (proj1 (proj2 (scopes_are_separate
            (constructor {| store := None; keyPrefix := None |}) (js "ban")
            {| user_id := js "7"; guildId := None; channelId := None |}
            {| user_id := js "8"; guildId := None; channelId := None |}
            1000 0 0 5)) _).
  vm_compute. discriminate.
Defined.

(** ** The cooldown guarantee *)

Lemma runOp_prefix m op : _prefix (runOp m op) = _prefix m.
Proof.
  destruct op as [c e d t1 t2|now]; cbn [runOp].
  - apply use_prefix.
  - unfold sweep. apply sweep_fold_prefix.
Qed.

Lemma runOps_prefix m ops : _prefix (runOps m ops) = _prefix m.
Proof.
  revert m. induction ops as [|op ops IH]; intros m; [done|].
  unfold runOps in *. cbn [foldl]. by rewrite IH, runOp_prefix.
Qed.

(** An entry with expiry [E] stays until a call that read the clock at
    [E] or later replaces or removes it. *)
Lemma runOp_entry m op (k : jsstring) (E T : Z) :
  0 < E ->
  opClock op <= T ->
  _store m !! k = Some E \/ E <= T ->
  _store (runOp m op) !! k = Some E \/ E <= T.
Proof.
  intros Hpos Hclock [Hk|Hle]; [|by right].
  destruct op as [c e d t1 t2|now]; cbn [runOp opClock] in *.
  - destruct (decide (k = _key m c e)) as [->|Hne].
    + destruct (decide (t1 < E)) as [Hlt|Hge]; [|right; lia].
      left. unfold use, check, _get. rewrite Hk.
      destruct (Z.eqb_spec E 0); [lia|]. cbn [orb].
      by destruct (Z.geb_spec t1 E); [lia|].
    + left. by rewrite use_other_key.
  - rewrite sweep_store. destruct (decide (now < E)) as [Hlt|Hge]; [|right; lia].
    left. by apply map_lookup_filter_Some.
Qed.

Lemma runOps_entry m ops (k : jsstring) (E T : Z) :
  0 < E ->
  Forall (fun op => opClock op <= T) ops ->
  _store m !! k = Some E \/ E <= T ->
  _store (runOps m ops) !! k = Some E \/ E <= T.
Proof.
  intros Hpos Hall. revert m.
  induction Hall as [|op ops Hop _ IH]; intros m Hm; [done|].
  unfold runOps in *. cbn [foldl]. apply IH. by apply runOp_entry.
Qed.

(** X14. Two successful [use] calls of one key are at least the duration
    of the first one apart: if a [use] succeeds and stores at clock
    [nowSet >= 0], then, whatever [use] calls (of any keys, successful or
    not) and sweeps happen in between, a later [use] of the same key that
    succeeds read the clock at [nowSet + durationMs] or later. The clock
    is only supposed not to run backwards up to the later call. *)
Theorem successful_uses_are_spaced :
  forall (m m1 m3 : CooldownManager.t) (command entityId : jsstring)
         (durationMs nowCheck nowSet : Z) (between : list Op)
         (durationMs' nowCheck' nowSet' : Z),
    0 <= nowSet ->
    use m command entityId durationMs nowCheck nowSet = Returned () m1 ->
    Forall (fun op => opClock op <= nowCheck') between ->
    use (runOps m1 between) command entityId durationMs' nowCheck' nowSet'
      = Returned () m3 ->
    nowSet + durationMs <= nowCheck'.
Proof.
  intros m m1 m3 command entityId durationMs nowCheck nowSet between
    durationMs' nowCheck' nowSet' Hset Huse Hclock Huse'.
  assert (Hd : 0 < durationMs /\
               m1 = _set m (_key m command entityId) (nowSet + durationMs)).
  { unfold use, set in Huse. destruct (onCooldown _); [done|].
    destruct (Z.leb_spec durationMs 0); [done|]. injection Huse as <-. done. }
  destruct Hd as [Hd ->].
  set (m1 := _set m (_key m command entityId) (nowSet + durationMs)) in *.
  assert (Hentry : _store m1 !! _key m command entityId = Some (nowSet + durationMs))
    by apply lookup_insert_eq.
  pose proof (runOps_entry m1 between (_key m command entityId)
                (nowSet + durationMs) nowCheck'
                ltac:(lia) Hclock (or_introl Hentry)) as [Hk|Hle]; [|done].
  destruct (decide (nowCheck' < nowSet + durationMs)) as [Hlt|Hge]; [|lia].
  assert (Hkey : _key (runOps m1 between) command entityId = _key m command entityId).
  { unfold _key. by rewrite runOps_prefix. }
  unfold use, check, _get in Huse'. rewrite Hkey, Hk in Huse'.
  destruct (Z.eqb_spec (nowSet + durationMs) 0); [lia|]. cbn [orb] in Huse'.
  by destruct (Z.geb_spec nowCheck' (nowSet + durationMs)); [lia|].
Qed.

Lemma successful_uses_are_spaced_witness :
  5000 + 1000 <= 6000.
Proof.
  refine (successful_uses_are_spaced
            (constructor {| store := None; keyPrefix := None |})
            _ _ (js "ban") (js "u1") 1000 5000 5000
            [OpUse (js "ban") (js "u1") 1000 5500 5500; OpSweep 5800;
             OpUse (js "kick") (js "u1") 50 5900 5900]
            2000 6000 6000 _ _ _ _).
  - lia.
  - reflexivity.
  - repeat constructor; cbn; lia.
  - vm_compute. reflexivity.
Defined.

End CooldownExtra.

(** ** More on the paginator *)
Module PaginatorExtra.
Import Paginator PaginatorFacts.

Section Pages.
Context {Page : Type}.
Implicit Types (p : Paginator.t Page).

Lemma _update_in_range p :
  is_Some (_message p) ->
  0 <= _current p < Z.of_nat (length (_pages p)) ->
  exists p',
    _update p = Returned () p' /\ _pages p' = _pages p /\
    _current p' = _current p /\ _collector p' = _collector p /\ displays p'.
Proof.
  intros [msg Hmsg] Hcur. unfold _update, _buildPayload.
  destruct (pageAt_in_range (_pages p) (_current p) Hcur) as [pg Hpg].
  rewrite Hpg, Hmsg. eexists. split; [reflexivity|].
  split; [done|]. split; [done|]. split; [done|].
  eexists. split; [reflexivity|]. exact Hpg.
Qed.

(** One action on a paginator on display with its cursor in range. *)
Lemma act_in_range p a :
  displays p ->
  0 <= _current p < Z.of_nat (length (_pages p)) ->
  ((exists p', act p a = Returned () p') \/
   (exists index,
      a = GoTo index /\ (index < 0 \/ Z.of_nat (length (_pages p)) <= index) /\
      act p a = Threw (ForgeError PAGINATOR_INVALID_PAGE None) p)) /\
  displays (state_of (act p a)) /\
  _pages (state_of (act p a)) = _pages p /\
  0 <= _current (state_of (act p a)) < Z.of_nat (length (_pages p)).
Proof.
  intros Hdisp Hcur. pose proof Hdisp as (msg & Hmsg & Hpage).
  assert (Hupd : forall index,
            0 <= index < Z.of_nat (length (_pages p)) ->
            (exists p', _update (setCurrent p index) = Returned () p') /\
            displays (state_of (_update (setCurrent p index))) /\
            _pages (state_of (_update (setCurrent p index))) = _pages p /\
            0 <= _current (state_of (_update (setCurrent p index)))
              < Z.of_nat (length (_pages p))).
  { intros index Hi.
    destruct (_update_in_range (setCurrent p index)) as (p' & -> & Hp & Hc & _ & Hd).
    - cbn. rewrite Hmsg. by eexists.
    - done.
    - cbn [state_of]. rewrite Hp, Hc. cbn. split; [by eexists|]. done. }
  destruct a as [index|customId]; cbn [act].
  - unfold goTo.
    destruct (Z.ltb_spec index 0); cbn [orb].
    { split; [right; exists index; split; [done|]; split; [lia|done]|]. done. }
    destruct (Z.geb_spec index (Z.of_nat (length (_pages p)))).
    { split; [right; exists index; split; [done|]; split; [lia|done]|]. done. }
    destruct (Hupd index) as (Hret & ?); [lia|]. split; [by left|done].
  - unfold onCollect.
    repeat (destruct (bool_decide _);
            [match goal with
             | |- context [_update (setCurrent p ?i)] =>
               destruct (Hupd i) as (Hret & ?); [lia|]; split; [by left|done]
             | _ => idtac
             end|]).
    + split; [left; by eexists|]. cbn [state_of]. unfold stopCollector.
      destruct (_collector p) as [[[reason|]]|];
        (split; [exact Hdisp|split; [reflexivity|exact Hcur]]).
    + destruct (_update_in_range p) as (p' & -> & Hp & Hc & _ & Hd);
        [rewrite Hmsg; by eexists|done|].
      cbn [state_of]. rewrite Hp, Hc. split; [left; by eexists|done].
Qed.

(** X15. A paginator on display whose cursor is in range stays so: after
    any sequence of button presses and [goTo] calls, accepted or refused,
    the cursor is an index of a page, the pages are the same, and the
    message shows the page under the cursor. None of these calls fails
    but a [goTo] with an index out of range, which throws
    PAGINATOR_INVALID_PAGE and changes nothing. *)
Theorem cursor_stays_in_range :
  forall p (actions : list Action),
    displays p ->
    0 <= _current p < Z.of_nat (length (_pages p)) ->
    displays (actAll p actions) /\
    _pages (actAll p actions) = _pages p /\
    0 <= _current (actAll p actions) < Z.of_nat (length (_pages p)) /\
    forall a,
      (exists p', act (actAll p actions) a = Returned () p') \/
      (exists index,
         a = GoTo index /\ (index < 0 \/ Z.of_nat (length (_pages p)) <= index) /\
         act (actAll p actions) a =
         Threw (ForgeError PAGINATOR_INVALID_PAGE None) (actAll p actions)).
Proof.
  intros p actions. revert p.
  induction actions as [|a actions IH]; intros p Hdisp Hcur.
  - cbn. split; [done|]. split; [done|]. split; [done|].
    intros a. by destruct (act_in_range p a Hdisp Hcur) as [? _].
  - unfold actAll in *. cbn [foldl].
    destruct (act_in_range p a Hdisp Hcur) as (_ & Hdisp' & Hpages & Hcur').
    rewrite <- Hpages in Hcur'.
    destruct (IH _ Hdisp' Hcur') as (H1 & H2 & H3 & H4).
    rewrite Hpages in H2, H3, H4. done.
Qed.

Lemma onCollect_cursor p :
  _current (state_of (onCollect p NAV_ID_FIRST)) = 0 /\
  _current (state_of (onCollect p NAV_ID_PREV)) = Z.max 0 (_current p - 1) /\
  _current (state_of (onCollect p NAV_ID_NEXT)) =
    Z.min (Z.of_nat (length (_pages p)) - 1) (_current p + 1) /\
  _current (state_of (onCollect p NAV_ID_LAST)) = Z.of_nat (length (_pages p)) - 1.
Proof.
  unfold onCollect. repeat split.
  - rewrite bool_decide_eq_true_2 by done. by rewrite _update_current.
  - rewrite bool_decide_eq_false_2 by (vm_compute; discriminate).
    rewrite bool_decide_eq_true_2 by done. by rewrite _update_current.
  - do 2 rewrite bool_decide_eq_false_2 by (vm_compute; discriminate).
    rewrite bool_decide_eq_true_2 by done. by rewrite _update_current.
  - do 3 rewrite bool_decide_eq_false_2 by (vm_compute; discriminate).
    rewrite bool_decide_eq_true_2 by done. by rewrite _update_current.
Qed.

(** X16. With the cursor in range, the payload shows the page under the
    cursor, and a navigation button is rendered disabled exactly when
    pressing it would leave the cursor where it is: "first" and "prev" at
    index 0, "next" and "last" at the last index; with a single page all
    four are disabled. The counter reads the cursor plus one and the number
    of pages. *)
Theorem disabled_buttons_do_nothing :
  forall p,
    0 <= _current p < Z.of_nat (length (_pages p)) ->
    exists payload,
      _buildPayload p = inr payload /\
      pageAt (_pages p) (_current p) = Some (page payload) /\
      (firstDisabled (row payload) = true <->
       _current (state_of (onCollect p NAV_ID_FIRST)) = _current p) /\
      (prevDisabled (row payload) = true <->
       _current (state_of (onCollect p NAV_ID_PREV)) = _current p) /\
      (nextDisabled (row payload) = true <->
       _current (state_of (onCollect p NAV_ID_NEXT)) = _current p) /\
      (lastDisabled (row payload) = true <->
       _current (state_of (onCollect p NAV_ID_LAST)) = _current p) /\
      (length (_pages p) = 1%nat ->
       firstDisabled (row payload) = true /\ prevDisabled (row payload) = true /\
       nextDisabled (row payload) = true /\ lastDisabled (row payload) = true) /\
      count (row payload) =
        if _showCount p
        then Some (_current p + 1, Z.of_nat (length (_pages p))) else None.
Proof.
  intros p Hcur. unfold _buildPayload.
  destruct (pageAt_in_range (_pages p) (_current p) Hcur) as [pg Hpg]. rewrite Hpg.
  eexists. split; [reflexivity|]. split; [done|].
  destruct (onCollect_cursor p) as (-> & -> & -> & ->). cbn [row firstDisabled
    prevDisabled nextDisabled lastDisabled count].
  destruct (Z.eqb_spec (_current p) 0) as [H0|H0];
    destruct (Z.eqb_spec (_current p) (Z.of_nat (length (_pages p)) - 1)) as [Hl|Hl];
    destruct (Z.eqb_spec (Z.of_nat (length (_pages p))) 1) as [H1|H1];
    cbn [orb]; repeat split; try done; try lia.
Qed.

(** X17. Who may turn the pages. After [reply], the collector accepts the
    five navigation buttons from one user only: the user named in the
    options if there is one, the author of the interaction otherwise; any
    other user is told that the pagination is not for them. After [send]
    without user, and without user in the options, everybody may turn
    the pages. *)
Theorem navigation_is_restricted :
  forall p (interactionUser v customId : jsstring),
    (_userId p = None -> interactionUser <> [] ->
     filter (state_of (reply p interactionUser)) v customId =
     (bool_decide (v = interactionUser) && isNavId customId,
      negb (bool_decide (v = interactionUser)))) /\
    (forall owner, _userId p = Some owner -> owner <> [] ->
     filter (state_of (reply p interactionUser)) v customId =
     (bool_decide (v = owner) && isNavId customId, negb (bool_decide (v = owner)))) /\
    (_userId p = None ->
     filter (state_of (send p None)) v customId = (isNavId customId, false)) /\
    (forall w, w <> [] ->
     filter (state_of (send p (Some w))) v customId =
     (bool_decide (v = w) && isNavId customId, negb (bool_decide (v = w)))).
Proof.
  intros p interactionUser v customId.
  assert (Hdec : forall u : jsstring,
            bool_decide (Some u = Some v) = bool_decide (v = u)).
  { intros u. apply bool_decide_ext. split; [by intros [= ->]|by intros ->]. }
  assert (Hr : _userId (state_of (reply p interactionUser)) =
               Some (default interactionUser (_userId p))).
  { unfold reply. by destruct (_buildPayload _). }
  assert (Hs : forall w, _userId (state_of (send p w)) =
                         if noUserId w then _userId p else w).
  { intros w. unfold send. by destruct (_buildPayload _). }
  split; [|split; [|split]].
  - intros Hnone Hu. unfold filter. rewrite Hr, Hnone. cbn [default].
    destruct interactionUser as [|c u]; [done|]. cbn [noUserId orb].
    by rewrite Hdec.
  - intros owner Hsome Ho. unfold filter. rewrite Hr, Hsome. cbn [default].
    destruct owner as [|c o]; [done|]. cbn [noUserId orb]. by rewrite Hdec.
  - intros Hnone. unfold filter. rewrite Hs, Hnone. done.
  - intros w Hw. unfold filter. rewrite Hs.
    destruct w as [|c w]; [done|]. cbn [noUserId orb]. by rewrite Hdec.
Qed.

End Pages.

Lemma cursor_stays_in_range_witness :
  0 <= _current (actAll (state_of (reply (ofPages [10; 20; 30]%nat) (js "u1")))
                   [Press NAV_ID_NEXT; GoTo 7; Press NAV_ID_LAST; Press NAV_ID_NEXT;
                    Press (js "other")])
    < Z.of_nat (length (_pages (state_of (reply (ofPages [10; 20; 30]%nat) (js "u1"))))).
Proof.
  refine (proj1 (proj2 (proj2 (cursor_stays_in_range
            (state_of (reply (ofPages [10; 20; 30]%nat) (js "u1"))) _ _ _)))).
  - eexists. split; reflexivity.
  - split; [discriminate|reflexivity].
Defined.

Lemma disabled_buttons_do_nothing_witness :
  exists payload,
    _buildPayload (setCurrent (ofPages [10; 20; 30]%nat) 2) = inr payload /\
    nextDisabled (row payload) = true /\ firstDisabled (row payload) = false.
Proof.
  destruct (disabled_buttons_do_nothing (setCurrent (ofPages [10; 20; 30]%nat) 2)
              ltac:(split; [discriminate|reflexivity]))
    as (payload & Hbuild & _).
  exists payload. split; [exact Hbuild|].
  injection Hbuild as <-. split; reflexivity.
Defined.

Lemma navigation_is_restricted_witness :
  filter (state_of (reply (ofPages [10; 20; 30]%nat) (js "u1"))) (js "u2") NAV_ID_NEXT =
  (bool_decide (js "u2" = js "u1") && isNavId NAV_ID_NEXT,
   negb (bool_decide (js "u2" = js "u1"))).
Proof.
  refine (proj1 (navigation_is_restricted (ofPages [10; 20; 30]%nat)
                   (js "u1") (js "u2") NAV_ID_NEXT) eq_refl _).
  vm_compute. discriminate.
Defined.

End PaginatorExtra.

(** ** More on confirmations *)
Module ConfirmationExtra.
Import ConfirmationManager ConfirmationFacts.




(** X19. The private notice. The filter runs for every press of every
    turn up to and including the turn that decides the session, so every
    press of somebody else than the owner in these turns is answered with
    the notice that the confirmation is not for them, one notice per press
    and in order, also for a press that the client emits after the
    deciding one in the same turn. The owner never gets a notice, and
    nobody gets one for a press of a later turn. *)
Theorem notices_go_to_the_others :
  forall (interactionUserId nonce : jsstring) (o : Options) (evs : list Event),
    notices (run (ask interactionUserId nonce o) evs) =
      expectedNotices interactionUserId
        (js "forge_confirm_yes_" ++ nonce) (js "forge_confirm_no_" ++ nonce) evs /\
    interactionUserId ∉ notices (run (ask interactionUserId nonce o) evs).
Proof.
  intros interactionUserId nonce o evs.
  destruct (run_open evs (ask interactionUserId nonce o)
              eq_refl eq_refl eq_refl eq_refl eq_refl eq_refl eq_refl) as [Hnt _].
  rewrite Hnt. cbn [notices ask app owner yesId noId].
  change (DEFAULT_ID_CONFIRM ++ js "_" ++ nonce) with (js "forge_confirm_yes_" ++ nonce).
  change (DEFAULT_ID_CANCEL ++ js "_" ++ nonce) with (js "forge_confirm_no_" ++ nonce).
  split; [done|].
  assert (Hothers : forall batch, interactionUserId ∉ others interactionUserId batch).
  { intros batch. unfold others. induction batch as [|[u c] batch IH];
      [apply not_elem_of_nil|].
    cbn [List.filter fst]. destruct (bool_decide (u = interactionUserId)) eqn:Hu; [done|].
    apply bool_decide_eq_false_1 in Hu. cbn [negb fmap list_fmap fst].
    apply not_elem_of_cons. split; [congruence|done]. }
  clear Hnt. induction evs as [|ev evs IH]; [apply not_elem_of_nil|].
  cbn [expectedNotices]. apply not_elem_of_app. split.
  - destruct ev; [apply Hothers|apply not_elem_of_nil..].
  - destruct (decisive _ _ _ ev); [apply not_elem_of_nil|done].
Qed.

(** X20. Nonces keep sessions apart. The button identifiers of two
    sessions with different nonces are four different strings, so presses
    of the buttons of one session, by anybody and however the client
    groups them in turns, never settle the other session nor change its
    message. *)
Theorem nonces_separate_sessions :
  forall (user user' nonce nonce' : jsstring) (o o' : Options) (evs : list Event),
    nonce <> nonce' ->
    Forall (fun ev => exists batch, ev = Clicks batch /\
                        Forall (fun click : jsstring * jsstring =>
                                  click.2 = yesId (ask user nonce o) \/
                                  click.2 = noId (ask user nonce o)) batch)
           evs ->
    yesId (ask user nonce o) <> yesId (ask user' nonce' o') /\
    noId (ask user nonce o) <> noId (ask user' nonce' o') /\
    yesId (ask user nonce o) <> noId (ask user' nonce' o') /\
    noId (ask user nonce o) <> yesId (ask user' nonce' o') /\
    promise (run (ask user' nonce' o') evs) = Pending /\
    message (run (ask user' nonce' o') evs) = Prompt.
Proof.
  intros user user' nonce nonce' o o' evs Hne Hevs.
  assert (Hyy : yesId (ask user nonce o) <> yesId (ask user' nonce' o')).
  { cbn [yesId noId ask]. intros H. apply app_inv_head in H. apply app_inv_head in H. done. }
  assert (Hnn : noId (ask user nonce o) <> noId (ask user' nonce' o')).
  { cbn [yesId noId ask]. intros H. apply app_inv_head in H. apply app_inv_head in H. done. }
  assert (Hyn : yesId (ask user nonce o) <> noId (ask user' nonce' o')).
  { intros H. vm_compute in H. discriminate. }
  assert (Hny : noId (ask user nonce o) <> yesId (ask user' nonce' o')).
  { intros H. vm_compute in H. discriminate. }
  do 4 (split; [done|]).
  assert (Hfirst : firstDecisive (owner (ask user' nonce' o'))
                     (yesId (ask user' nonce' o')) (noId (ask user' nonce' o')) evs = None).
  { induction Hevs as [|ev evs (batch & -> & Hbatch) _ IH]; [done|].
    cbn [firstDecisive decisive]. rewrite IH.
    assert (Hex : existsb (qualifying (owner (ask user' nonce' o'))
                             (yesId (ask user' nonce' o')) (noId (ask user' nonce' o')))
                    batch = false).
    { induction Hbatch as [|[v c] batch Hc _ IHb]; [done|].
      cbn [existsb]. rewrite IHb, orb_false_r. unfold qualifying. cbn [fst snd] in *.
      rewrite (bool_decide_eq_false_2 (c = yesId (ask user' nonce' o')))
        by (destruct Hc as [-> | ->]; done).
      rewrite (bool_decide_eq_false_2 (c = noId (ask user' nonce' o')))
        by (destruct Hc as [-> | ->]; done).
      by rewrite andb_false_r. }
    by rewrite Hex. }
  destruct (run_open evs (ask user' nonce' o')
              eq_refl eq_refl eq_refl eq_refl eq_refl eq_refl eq_refl) as [_ Hrun].
  rewrite Hfirst in Hrun.
  by destruct Hrun as (-> & _ & _ & _ & _ & ->).
Qed.

Lemma nonces_separate_sessions_witness :
  promise (run (ask (js "u") (js "n2") defaults)
             [Click (js "u") (js "forge_confirm_yes_n1")]) = Pending.
Proof.
  refine (proj1 (proj2 (proj2 (proj2 (proj2
            (nonces_separate_sessions (js "u") (js "u") (js "n1") (js "n2")
               defaults defaults [Click (js "u") (js "forge_confirm_yes_n1")] _ _)))))).
  - vm_compute. discriminate.
  - constructor; [|constructor]. exists [(js "u", js "forge_confirm_yes_n1")].
    split; [reflexivity|]. constructor; [|constructor]. left. reflexivity.
Defined.

End ConfirmationExtra.

(** ** Webhook batches *)
Module WebhookExtra.
Import WebhookManager.

Section Batches.

Context {Embed Component Other : Type}.
Context (execUrl : jsstring -> option (jsstring * jsstring)).
Context (embedJSON : Embed -> Embed) (componentJSON : Component -> Component).

Local Abbreviation sendBatch := (sendBatch (Other:=Other) execUrl embedJSON componentJSON).
Local Abbreviation sendEach := (sendEach (Other:=Other) execUrl embedJSON componentJSON).

Lemma chunkLoop_concat (embeds : list Embed) fuel i :
  (length embeds <= i + 10 * fuel)%nat ->
  concat (chunkLoop fuel i embeds) = drop i embeds.
Proof.
  revert i. induction fuel as [|fuel IH]; intros i Hlen; cbn [chunkLoop].
  - rewrite drop_ge by lia. done.
  - destruct (Nat.ltb_spec i (length embeds)) as [Hi|Hi].
    + cbn [concat]. rewrite IH by lia.
      rewrite <- drop_drop. apply take_drop.
    + rewrite drop_ge by lia. done.
Qed.

Lemma concat_fmap_fmap (chunks : list (list Embed)) :
  concat ((fun chunk : list Embed => embedJSON <$> chunk) <$> chunks) =
  embedJSON <$> concat chunks.
Proof.
  induction chunks as [|chunk chunks IH]; [done|].
  cbn [concat fmap list_fmap] in *. by rewrite IH, fmap_app.
Qed.

Lemma chunksOf_concat (embeds : list Embed) : concat (chunksOf embeds) = embeds.
Proof. unfold chunksOf. by rewrite chunkLoop_concat by lia. Qed.

Lemma chunkLoop_sizes (embeds : list Embed) fuel i k chunk :
  chunkLoop fuel i embeds !! k = Some chunk ->
  (1 <= length chunk <= 10)%nat /\
  (S k < length (chunkLoop fuel i embeds) -> length chunk = 10)%nat.
Proof.
  revert i k. induction fuel as [|fuel IH]; intros i k; cbn [chunkLoop]; [done|].
  destruct (Nat.ltb_spec i (length embeds)) as [Hi|Hi]; [|done].
  destruct k as [|k]; cbn [lookup list_lookup length].
  - intros [= <-]. rewrite length_take, length_drop. split; [lia|].
    destruct fuel as [|fuel]; cbn [chunkLoop length]; [lia|].
    destruct (Nat.ltb_spec (i + 10) (length embeds)); cbn [length]; lia.
  - intros Hk. destruct (IH _ _ Hk) as [Hsize Hfull]. split; [done|].
    intros Hlt. apply Hfull. lia.
Qed.

Lemma sendEach_valid url id token (payload : WebhookSendOptions) meta ci chunks :
  execUrl url = Some (id, token) ->
  sendEach url payload meta ci chunks =
  inr (imap (fun k chunk =>
               {| webhookId := id;
                  webhookToken := token;
                  queryWait := negb (bool_decide (wait meta = Some false));
                  queryThreadId := match threadId meta with
                                   | Some (c :: thread) => Some (c :: thread)
                                   | _ => None
                                   end;
                  body := {| content := if (ci + k =? 0)%nat then content payload else None;
                             embeds := Some (embedJSON <$> chunk);
                             components := (fun cs : list Component => componentJSON <$> cs)
                                             <$> components payload;
                             other := other payload |} |}) chunks).
Proof.
  intros Hurl. revert ci. induction chunks as [|chunk chunks IH]; intros ci; [done|].
  cbn [WebhookManager.sendEach]. unfold send at 1, _parse. rewrite Hurl.
  rewrite IH. cbn [imap]. unfold _normalise. cbn. rewrite Nat.add_0_r.
  do 2 f_equal. apply imap_ext. intros k x _. cbn.
  by rewrite Nat.add_succ_r.
Qed.

(** X21. Batches of embeds. For a webhook URL that parses, [sendBatch]
    posts the embeds in order, split over requests to that webhook: every
    request carries between one and ten embeds, every request but the
    last carries exactly ten, and together they carry every embed once,
    each as its [toJSON]. Only the first request has the content; the
    components and the other properties are repeated on every request. *)
Theorem sendBatch_splits_embeds :
  forall (url id token : jsstring) (payload : WebhookSendOptions) (meta : WebhookSendMeta),
    execUrl url = Some (id, token) ->
    exists reqs : list Request,
      sendBatch url payload meta = inr reqs /\
      concat ((fun r => default [] (embeds (body r))) <$> reqs) =
        embedJSON <$> default [] (embeds payload) /\
      forall (k : nat) (r : Request),
        reqs !! k = Some r ->
        webhookId r = id /\ webhookToken r = token /\
        content (body r) = (if (k =? 0)%nat then content payload else None) /\
        components (body r) =
          (fun cs : list Component => componentJSON <$> cs) <$> components payload /\
        other (body r) = other payload /\
        exists es, embeds (body r) = Some es /\
                   (1 <= length es <= 10)%nat /\
                   (S k < length reqs -> length es = 10)%nat.
Proof.
  intros url id token payload meta Hurl. eexists. split.
  { unfold WebhookManager.sendBatch. by rewrite (sendEach_valid _ _ _ _ _ _ _ Hurl). }
  split.
  - rewrite fmap_imap.
    rewrite <- (chunksOf_concat (default [] (embeds payload))) at 2.
    rewrite <- concat_fmap_fmap. f_equal.
    rewrite <- imap_const. by apply imap_ext.
  - intros k r. rewrite list_lookup_imap, length_imap.
    destruct (chunksOf _ !! k) as [chunk|] eqn:Hk; [|done].
    cbn. intros [= <-]. cbn. do 5 (split; [done|]).
    exists (embedJSON <$> chunk). rewrite length_fmap. split; [done|].
    exact (chunkLoop_sizes _ _ _ _ _ Hk).
Qed.

(** X22. A batch without embeds. When the payload has no embeds,
    [sendBatch] sends nothing at all, so the content is not delivered,
    and the URL is not even parsed; with at least one embed a URL that
    does not parse is rejected with WEBHOOK_INVALID_URL before anything
    is sent. *)
Theorem sendBatch_without_embeds :
  forall (url : jsstring) (payload : WebhookSendOptions) (meta : WebhookSendMeta),
    (default [] (embeds payload) = [] -> sendBatch url payload meta = inr []) /\
    (default [] (embeds payload) <> [] -> execUrl url = None ->
     sendBatch url payload meta = inl (WEBHOOK_INVALID_URL url)).
Proof.
  intros url payload meta. unfold WebhookManager.sendBatch. split.
  - intros ->. done.
  - intros Hne Hurl. destruct (default [] (embeds payload)) as [|e es]; [done|].
    unfold chunksOf. cbn [length chunkLoop]. cbn [Nat.ltb Nat.leb].
    cbn [WebhookManager.sendEach]. unfold send, _parse. by rewrite Hurl.
Qed.

End Batches.

Lemma sendBatch_splits_embeds_witness :
  exists reqs,
    sendBatch (Component:=nat) (Other:=unit) (fun _ => Some (js "1", js "t")) S id (js "url")
      {| content := Some (js "hi"); embeds := Some (seq 0 12);
         components := None; other := tt |}
      {| threadId := None; wait := None |} = inr reqs /\
    concat ((fun r => default [] (embeds (body r))) <$> reqs) = seq 1 12.
Proof.
  destruct (sendBatch_splits_embeds (Component:=nat) (Other:=unit)
              (fun _ => Some (js "1", js "t")) S id
              (js "url") (js "1") (js "t")
              {| content := Some (js "hi"); embeds := Some (seq 0 12);
                 components := None; other := tt |}
              {| threadId := None; wait := None |} eq_refl) as (reqs & Hsend & Hall & _).
  exists reqs. split; [exact Hsend|exact Hall].
Defined.

Lemma sendBatch_without_embeds_witness :
  sendBatch (Embed:=nat) (Component:=nat) (Other:=unit) (fun _ => None) id id (js "no url")
    {| content := Some (js "hi"); embeds := None; components := None; other := tt |}
    {| threadId := None; wait := None |} = inr [] /\
  sendBatch (Embed:=nat) (Component:=nat) (Other:=unit) (fun _ => None) id id (js "no url")
    {| content := Some (js "hi"); embeds := Some [7%nat]; components := None; other := tt |}
    {| threadId := None; wait := None |} = inl (WEBHOOK_INVALID_URL (js "no url")).
Proof.
  split.
  - exact (proj1 (sendBatch_without_embeds (fun _ => None) id id (js "no url")
                    {| content := Some (js "hi"); embeds := None;
                       components := None; other := tt |}
                    {| threadId := None; wait := None |}) eq_refl).
  - refine (proj2 (sendBatch_without_embeds (fun _ => None) id id (js "no url")
                    {| content := Some (js "hi"); embeds := Some [7%nat];
                       components := None; other := tt |}
                    {| threadId := None; wait := None |}) _ eq_refl).
    discriminate.
Defined.

End WebhookExtra.

(** ** Truncating and splitting text *)
Module StringsExtra.
Import Strings.

(** X23. The length [truncate] keeps. A text of at most [max] code units
    is returned as it is; a longer one is cut and ends in the suffix, and
    is exactly [max] long when the suffix itself fits in [max]. The result
    fits in [max] only in these cases: when the text is longer than [max]
    and the suffix is longer too, what is returned is longer than
    [max]. *)
Theorem truncate_length :
  forall (text : jsstring) (max : Z) (suffix : option jsstring),
    (Z.of_nat (length text) <= max -> truncate text max suffix = text) /\
    (Z.of_nat (length (default [8230%N] suffix)) <= max < Z.of_nat (length text) ->
     truncate text max suffix =
       take (Z.to_nat (max - Z.of_nat (length (default [8230%N] suffix)))) text
         ++ default [8230%N] suffix /\
     Z.of_nat (length (truncate text max suffix)) = max) /\
    (Z.of_nat (length (truncate text max suffix)) <= max <->
     Z.of_nat (length text) <= max \/
     Z.of_nat (length (default [8230%N] suffix)) <= max).
Proof.
  intros text max suffix. unfold truncate, sliceTo, relativeIndex.
  set (s := default [8230%N] suffix).
  destruct (Z.leb_spec (Z.of_nat (length text)) max) as [Hfit|Hlong].
  - split; [done|]. split; [lia|]. split; [by left|done].
  - split; [lia|]. split.
    + intros [Hs _].
      destruct (Z.ltb_spec (max - Z.of_nat (length s)) 0) as [Hneg|Hpos]; [lia|].
      rewrite Z.min_l by lia. split; [done|].
      rewrite length_app, length_take. lia.
    + rewrite length_app, length_take.
      destruct (Z.ltb_spec (max - Z.of_nat (length s)) 0) as [Hneg|Hpos]; lia.
Qed.

Lemma truncate_length_witness :
  truncate (js "hello world") 8 None = js "hello w" ++ [8230%N] /\
  ~ Z.of_nat (length (truncate (js "abc") 1 (Some (js "...")))) <= 1.
Proof.
  split.
  - refine (proj1 (proj1 (proj2 (truncate_length (js "hello world") 8 None)) _)).
    cbn. lia.
  - intros Hle.
    destruct (proj1 (proj2 (proj2 (truncate_length (js "abc") 1 (Some (js "..."))))) Hle)
      as [H|H]; cbn in H; lia.
Defined.

Lemma chunkLoop_eq fuel text maxLength chunks :
  chunkLoop fuel text maxLength chunks =
  if Z.of_nat (length text) >? maxLength then
    match fuel with
    | O => None
    | S fuel' =>
      chunkLoop fuel'
        (trimStart (sliceFrom text (if lastIndexOfNewline text maxLength <=? 0
                                    then maxLength
                                    else lastIndexOfNewline text maxLength)))
        maxLength
        (chunks ++ [sliceTo text (if lastIndexOfNewline text maxLength <=? 0
                                  then maxLength
                                  else lastIndexOfNewline text maxLength)])
    end
  else Some (match text with [] => chunks | _ :: _ => chunks ++ [text] end).
Proof. by destruct fuel. Qed.

Lemma chunkLoop_fuel_S fuel text maxLength chunks result :
  chunkLoop fuel text maxLength chunks = Some result ->
  chunkLoop (S fuel) text maxLength chunks = Some result.
Proof.
  revert text chunks. induction fuel as [|fuel IH]; intros text chunks.
  - rewrite !chunkLoop_eq. by destruct (_ >? _).
  - rewrite (chunkLoop_eq (S fuel)), (chunkLoop_eq (S (S fuel))).
    destruct (_ >? _); [|done]. apply IH.
Qed.

Lemma chunkLoop_fuel_le fuel fuel' text maxLength chunks result :
  (fuel <= fuel')%nat ->
  chunkLoop fuel text maxLength chunks = Some result ->
  chunkLoop fuel' text maxLength chunks = Some result.
Proof.
  induction 1 as [|fuel' _ IH]; [done|]. intros H. by apply chunkLoop_fuel_S, IH.
Qed.

Lemma chunkLoop_chunks fuel text maxLength chunks :
  chunkLoop fuel text maxLength chunks = (chunks ++.) <$> chunkLoop fuel text maxLength [].
Proof.
  revert text chunks. induction fuel as [|fuel IH]; intros text chunks.
  - rewrite !chunkLoop_eq. destruct (_ >? _); [done|]. cbn.
    destruct text; by rewrite ?app_nil_r.
  - rewrite !(chunkLoop_eq (S fuel)). destruct (_ >? _).
    + rewrite IH, (IH _ ([] ++ _)). cbn [app].
      destruct (chunkLoop fuel _ maxLength []) as [r|]; [|done].
      cbn. by rewrite <- app_assoc.
    + cbn. destruct text; by rewrite ?app_nil_r.
Qed.

Lemma searchBackwards_bounds text k :
  -1 <= searchBackwards text k <= Z.of_nat k.
Proof.
  induction k as [|k IH]; cbn [searchBackwards];
    destruct (bool_decide _); lia.
Qed.

Lemma searchBackwards_found text k j :
  (j <= k)%nat -> text !! j = Some 10%N ->
  (forall i, (j < i <= k)%nat -> text !! i <> Some 10%N) ->
  searchBackwards text k = Z.of_nat j.
Proof.
  induction k as [|k IH]; intros Hjk Hj Hlast; cbn [searchBackwards].
  - assert (j = 0%nat) as -> by lia. by rewrite bool_decide_eq_true_2.
  - destruct (decide (j = S k)) as [->|Hne].
    + by rewrite bool_decide_eq_true_2.
    + rewrite bool_decide_eq_false_2 by (apply Hlast; lia).
      apply IH; [lia|done|]. intros i Hi. apply Hlast. lia.
Qed.

Lemma searchBackwards_hard text k :
  (forall i, (1 <= i <= k)%nat -> text !! i <> Some 10%N) ->
  searchBackwards text k <= 0.
Proof.
  induction k as [|k IH]; intros Hno; cbn [searchBackwards].
  - destruct (bool_decide _); lia.
  - rewrite bool_decide_eq_false_2 by (apply Hno; lia).
    apply IH. intros i Hi. apply Hno. lia.
Qed.

Lemma lastIndexOfNewline_inside text maxLength :
  1 <= maxLength < Z.of_nat (length text) ->
  lastIndexOfNewline text maxLength = searchBackwards text (Z.to_nat maxLength).
Proof.
  intros Hm. unfold lastIndexOfNewline.
  rewrite Z.max_l, Z.min_l by lia.
  by destruct (Z.ltb_spec maxLength 0); [lia|].
Qed.

Lemma trimStart_length text : (length (trimStart text) <= length text)%nat.
Proof.
  induction text as [|c text IH]; cbn [trimStart]; [done|].
  destruct (isWhiteSpace c); cbn [length]; lia.
Qed.

Lemma trimStart_visible text :
  List.filter (fun c => negb (isWhiteSpace c)) (trimStart text) =
  List.filter (fun c => negb (isWhiteSpace c)) text.
Proof.
  induction text as [|c text IH]; cbn [trimStart]; [done|].
  destruct (isWhiteSpace c) eqn:Hc; [|done]. cbn [List.filter]. by rewrite Hc.
Qed.

Lemma chunkLoop_returns fuel text maxLength chunks :
  1 <= maxLength -> (length text <= fuel)%nat ->
  exists new,
    chunkLoop fuel text maxLength chunks = Some (chunks ++ new) /\
    Forall (fun c => 1 <= Z.of_nat (length c) <= maxLength) new /\
    List.filter (fun c => negb (isWhiteSpace c)) (concat new) =
      List.filter (fun c => negb (isWhiteSpace c)) text.
Proof.
  intros Hm. revert text chunks.
  induction fuel as [|fuel IH]; intros text chunks Hfuel; rewrite chunkLoop_eq.
  - destruct text; [|cbn in Hfuel; lia].
    destruct (Z.gtb_spec (Z.of_nat (length (A:=N) [])) maxLength) as [Hgt|_];
      [cbn in Hgt; lia|].
    exists []. by rewrite app_nil_r.
  - destruct (Z.gtb_spec (Z.of_nat (length text)) maxLength) as [Hgt|Hle].
    + rewrite lastIndexOfNewline_inside by lia.
      pose proof (searchBackwards_bounds text (Z.to_nat maxLength)) as Hb.
      set (idx := if searchBackwards text (Z.to_nat maxLength) <=? 0
                  then maxLength else searchBackwards text (Z.to_nat maxLength)).
      assert (Hidx : 1 <= idx <= maxLength).
      { unfold idx. destruct (Z.leb_spec (searchBackwards text (Z.to_nat maxLength)) 0); lia. }
      assert (Hto : sliceTo text idx = take (Z.to_nat idx) text).
      { unfold sliceTo, relativeIndex. destruct (Z.ltb_spec idx 0); [lia|].
        by rewrite Z.min_l by lia. }
      assert (Hfrom : sliceFrom text idx = drop (Z.to_nat idx) text).
      { unfold sliceFrom, relativeIndex. destruct (Z.ltb_spec idx 0); [lia|].
        by rewrite Z.min_l by lia. }
      rewrite Hto, Hfrom.
      destruct (IH (trimStart (drop (Z.to_nat idx) text))
                   (chunks ++ [take (Z.to_nat idx) text])) as (new & Hrun & Hsizes & Hvis).
      { pose proof (trimStart_length (drop (Z.to_nat idx) text)) as Ht.
        rewrite length_drop in Ht. lia. }
      exists (take (Z.to_nat idx) text :: new). split; [|split].
      * by rewrite Hrun, <- app_assoc.
      * constructor; [|done]. rewrite length_take. lia.
      * cbn [concat]. rewrite List.filter_app, Hvis, trimStart_visible, <- List.filter_app.
        by rewrite take_drop.
    + destruct text as [|c text].
      * exists []. by rewrite app_nil_r.
      * exists [c :: text]. split; [done|]. split.
        -- constructor; [|done]. cbn [length] in *. lia.
        -- cbn [concat]. by rewrite app_nil_r.
Qed.

(** X24. What [chunk] returns for a positive limit. The loop ends, after
    at most as many rounds as the text has code units. Every chunk
    returned is non-empty and at most [maxLength] long; the chunks, put
    together, are the text with nothing but white space removed; and a
    text that fits in the limit comes back as the single chunk, an empty
    text as no chunk. *)
Theorem chunk_positive_limit :
  forall (text : jsstring) (maxLength : Z),
    1 <= maxLength ->
    exists chunks : list jsstring,
      (forall fuel, (length text <= fuel)%nat -> chunk fuel text maxLength = Some chunks) /\
      Forall (fun c => 1 <= Z.of_nat (length c) <= maxLength) chunks /\
      List.filter (fun c => negb (isWhiteSpace c)) (concat chunks) =
        List.filter (fun c => negb (isWhiteSpace c)) text /\
      (Z.of_nat (length text) <= maxLength ->
       chunks = match text with [] => [] | _ :: _ => [text] end).
Proof.
  intros text maxLength Hm.
  destruct (chunkLoop_returns (length text) text maxLength [] Hm (le_n _))
    as (chunks & Hrun & Hsizes & Hvis).
  exists chunks. split; [|split; [done|split; [done|]]].
  - intros fuel Hfuel. unfold chunk. by apply (chunkLoop_fuel_le (length text)).
  - intros Hfit. rewrite chunkLoop_eq in Hrun.
    destruct (Z.gtb_spec (Z.of_nat (length text)) maxLength); [lia|].
    cbn [app] in Hrun. by injection Hrun as <-.
Qed.

Lemma chunk_positive_limit_witness :
  exists chunks,
    chunk 11 (js "hello world") 4 = Some chunks /\
    Forall (fun c => 1 <= Z.of_nat (length c) <= 4) chunks.
Proof.
  destruct (chunk_positive_limit (js "hello world") 4) as (chunks & Hrun & Hsizes & _).
  - lia.
  - exists chunks. split; [|exact Hsizes]. apply Hrun. cbn. lia.
Defined.

(** X25. Where [chunk] breaks. A text longer than the limit is broken at
    the last line feed among the indices 1 to [maxLength], and at
    [maxLength] when there is none: the first chunk is the text before
    the break, and the other chunks are the chunks of the rest, with the
    white space at its start removed. *)
Theorem chunk_breaks_at_last_newline :
  forall (text : jsstring) (maxLength : Z) (k fuel : nat),
    1 <= maxLength < Z.of_nat (length text) ->
    (length text <= fuel)%nat ->
    (1 <= k)%nat /\ Z.of_nat k <= maxLength /\ text !! k = Some 10%N /\
      (forall i, (k < i)%nat -> Z.of_nat i <= maxLength -> text !! i <> Some 10%N)
    \/ Z.of_nat k = maxLength /\
       (forall i, (1 <= i)%nat -> Z.of_nat i <= maxLength -> text !! i <> Some 10%N) ->
    chunk fuel text maxLength =
      (fun rest => take k text :: rest) <$> chunk fuel (trimStart (drop k text)) maxLength.
Proof.
  intros text maxLength k fuel Hm Hfuel Hbreak.
  assert (Hidx : (if lastIndexOfNewline text maxLength <=? 0
                  then maxLength else lastIndexOfNewline text maxLength) = Z.of_nat k).
  { rewrite lastIndexOfNewline_inside by done.
    destruct Hbreak as [(Hk1 & Hk2 & Hnl & Hlast)|[Hk Hno]].
    - rewrite (searchBackwards_found text _ k); [|lia|done|].
      + destruct (Z.leb_spec (Z.of_nat k) 0); lia.
      + intros i Hi. apply Hlast; lia.
    - pose proof (searchBackwards_hard text (Z.to_nat maxLength)) as Hhard.
      destruct (Z.leb_spec (searchBackwards text (Z.to_nat maxLength)) 0) as [_|Hpos];
        [lia|].
      exfalso. apply Z.lt_nge in Hpos. apply Hpos, Hhard.
      intros i Hi. apply Hno; lia. }
  assert (Hk : (1 <= k)%nat /\ Z.of_nat k <= maxLength).
  { destruct Hbreak as [(Hk1 & Hk2 & _)|[Hk _]]; lia. }
  destruct (chunkLoop_returns (length text) (trimStart (drop k text)) maxLength [])
    as (rest & Hrest & _); [lia| |].
  { pose proof (trimStart_length (drop k text)) as Ht. rewrite length_drop in Ht. lia. }
  cbn [app] in Hrest.
  unfold chunk.
  rewrite (chunkLoop_fuel_le _ fuel _ _ _ _ Hfuel Hrest).
  destruct fuel as [|fuel]; [lia|].
  rewrite chunkLoop_eq.
  destruct (Z.gtb_spec (Z.of_nat (length text)) maxLength) as [_|Hle]; [|lia].
  rewrite Hidx. cbn [app].
  assert (Hto : sliceTo text (Z.of_nat k) = take k text).
  { unfold sliceTo, relativeIndex. destruct (Z.ltb_spec (Z.of_nat k) 0); [lia|].
    by rewrite Z.min_l, Nat2Z.id by lia. }
  assert (Hfrom : sliceFrom text (Z.of_nat k) = drop k text).
  { unfold sliceFrom, relativeIndex. destruct (Z.ltb_spec (Z.of_nat k) 0); [lia|].
    by rewrite Z.min_l, Nat2Z.id by lia. }
  rewrite Hto, Hfrom, chunkLoop_chunks.
  assert (Hrest' : chunkLoop fuel (trimStart (drop k text)) maxLength [] = Some rest).
  { destruct (chunkLoop_returns fuel (trimStart (drop k text)) maxLength [])
      as (rest' & Hrun' & _); [lia| |].
    { pose proof (trimStart_length (drop k text)) as Ht. rewrite length_drop in Ht. lia. }
    cbn [app] in Hrun'. rewrite Hrun'. f_equal.
    apply (chunkLoop_fuel_le _ (S fuel)) in Hrun'; [|lia].
    apply (chunkLoop_fuel_le _ (S fuel)) in Hrest; [|lia]. congruence. }
  by rewrite Hrest'.
Qed.

Lemma chunk_breaks_at_last_newline_witness :
  chunk 7 [97; 98; 10; 99; 100; 101; 102]%N 4 =
    (fun rest => [97; 98]%N :: rest) <$> chunk 7 [99; 100; 101; 102]%N 4.
Proof.
  refine (chunk_breaks_at_last_newline [97; 98; 10; 99; 100; 101; 102]%N 4 2 7 _ _ _).
  - cbn. lia.
  - cbn. lia.
  - left. split; [lia|]. split; [lia|]. split; [reflexivity|].
    intros i Hi Hm.
    assert (i = 3 \/ i = 4)%nat as [-> | ->] by lia; discriminate.
Defined.

Lemma trimStart_keeps_visible text c :
  c ∈ text -> isWhiteSpace c = false ->
  c ∈ trimStart text.
Proof.
  intros Hin Hc. induction text as [|d text IH]; [done|]. cbn [trimStart].
  destruct (isWhiteSpace d) eqn:Hd; [|done].
  apply elem_of_cons in Hin as [->|Hin]; [congruence|by apply IH].
Qed.

(** X26. Limits that are not positive. With a negative [maxLength] the
    loop of [chunk] never ends, whatever the text; with [maxLength] 0 it
    never ends for a text that has a code unit other than white
    space. *)
Theorem chunk_never_returns :
  forall (fuel : nat) (text : jsstring) (maxLength : Z),
    maxLength < 0 \/
    maxLength = 0 /\ (exists c, c ∈ text /\ isWhiteSpace c = false) ->
    chunk fuel text maxLength = None.
Proof.
  intros fuel text maxLength Hbad. unfold chunk. generalize (@nil jsstring) as chunks.
  revert text Hbad. induction fuel as [|fuel IH]; intros text Hbad chunks;
    rewrite chunkLoop_eq.
  - destruct (Z.gtb_spec (Z.of_nat (length text)) maxLength) as [_|Hle]; [done|].
    destruct Hbad as [Hneg|[-> (c & Hin & _)]]; [lia|].
    destruct text; [by apply not_elem_of_nil in Hin|cbn in Hle; lia].
  - destruct (Z.gtb_spec (Z.of_nat (length text)) maxLength) as [_|Hle].
    + apply IH. destruct Hbad as [Hneg|[-> (c & Hin & Hc)]]; [by left|right].
      split; [done|]. exists c. split; [|done].
      apply trimStart_keeps_visible; [|done].
      assert (Hidx : lastIndexOfNewline text 0 <= 0).
      { unfold lastIndexOfNewline.
        destruct (Z.ltb_spec (Z.min (Z.max 0 0) (Z.of_nat (length text) - 1)) 0); [lia|].
        pose proof (searchBackwards_bounds text
                      (Z.to_nat (Z.min (Z.max 0 0) (Z.of_nat (length text) - 1)))).
        lia. }
      destruct (Z.leb_spec (lastIndexOfNewline text 0) 0); [|lia].
      unfold sliceFrom, relativeIndex. cbn [Z.ltb Z.compare].
      rewrite Z.min_l by lia. done.
    + destruct Hbad as [Hneg|[-> (c & Hin & _)]]; [lia|].
      destruct text; [by apply not_elem_of_nil in Hin|cbn in Hle; lia].
Qed.

Lemma chunk_never_returns_witness :
  chunk 1000 (js "abc") 0 = None /\ chunk 1000 [] (-1) = None.
Proof.
  split.
  - apply (chunk_never_returns 1000 (js "abc") 0). right. split; [reflexivity|].
    exists 97%N. split; [|reflexivity]. apply elem_of_cons. by left.
  - apply (chunk_never_returns 1000 [] (-1)). left. lia.
Defined.

End StringsExtra.
